(** * GPUMD: the interlayer potential (ILP) force core and the heat sampler

    A shallow embedding of [src/force/ilp.cu] and [src/heat.cu].

    Conventions of the embedding.
    - C [int] values are [Z]; every index that occurs is far below 2^31, so
      the wrap-around of [int] is never reached and is not written out.
    - C [double] values are the real numbers [R] of the Standard Library:
      the arithmetic of the source is read as exact arithmetic, [sqrt] as the
      real square root and [expf(float(x))] as the real exponential.  Rounding
      is outside the model.
    - A device array is a [list]; a read or write outside it is the fault
      [Oob] of the error monad [res].
    - A kernel launched over the atoms [N1 <= n1 < N2] is the sequential
      composition of its threads in increasing [n1]: a thread of these
      kernels writes only slots that it owns. *)

From Equations Require Import Equations.
From Stdlib Require Import ZArith List Bool Lia Reals Lra Psatz String.
Import ListNotations.

Set Implicit Arguments.
Set Warnings "-notation-for-abbreviation".
Open Scope string_scope.
Open Scope list_scope.

(** ** Taper function *)

Module Taper.
Open Scope R_scope.

(** [h_tap_coeff], copied into the constant array [Tap_coeff] by the
    constructor of [ILP]. *)
Definition Tap_coeff : list R := [1; 0; 0; 0; -35; 84; -70; 20].

Definition coeff (i : nat) : R := nth i Tap_coeff 0.

(** [calc_Tap(r_ij, Rcutinv)]: Horner evaluation, [i = 6 .. 0]. *)
Definition calc_Tap (r_ij Rcutinv : R) : R :=
  let r := r_ij * Rcutinv in
  if Rge_dec r 1 then 0
  else fold_left (fun Tap i => Tap * r + coeff i)
                 [6; 5; 4; 3; 2; 1; 0]%nat (coeff 7).

(** [calc_dTap(r_ij, Rcut, Rcutinv)]: Horner evaluation, [i = 6 .. 1],
    followed by [dTap *= Rcutinv]. *)
Definition calc_dTap (r_ij Rcut Rcutinv : R) : R :=
  let r := r_ij * Rcutinv in
  if Rge_dec r Rcut then 0
  else fold_left (fun dTap i => dTap * r + INR i * coeff i)
                 [6; 5; 4; 3; 2; 1]%nat (7 * coeff 7) * Rcutinv.

End Taper.

(** ** Normal-vector calculator *)

Module Normal.
Open Scope R_scope.

(** The arrays of [calc_normal] have extent 3 in every dimension, and every
    index it uses is a literal or a loop counter in [0..2]: the index type
    is [ix], and [double a[3][3]] is a function [ix -> ix -> R]. *)
Inductive ix := c0 | c1 | c2.

Definition arr1 := ix -> R.
Definition arr2 := ix -> ix -> R.
Definition arr3 := ix -> ix -> ix -> R.

(** A 3x3 table given row by row. *)
Definition tab (a00 a01 a02 a10 a11 a12 a20 a21 a22 : R) : arr2 :=
  fun id ip =>
    match id, ip with
    | c0, c0 => a00 | c0, c1 => a01 | c0, c2 => a02
    | c1, c0 => a10 | c1, c1 => a11 | c1, c2 => a12
    | c2, c0 => a20 | c2, c1 => a21 | c2, c2 => a22
    end.

Definition vec (a0 a1 a2 : R) : arr1 :=
  fun id => match id with c0 => a0 | c1 => a1 | c2 => a2 end.

(** [t[id][ip][m]] from the three tables [t[.][.][0]], [t[.][.][1]],
    [t[.][.][2]]. *)
Definition by_atom (t0 t1 t2 : arr2) : arr3 :=
  fun id ip m =>
    match m with c0 => t0 id ip | c1 => t1 id ip | c2 => t2 id ip end.

Definition zero2 : arr2 := fun _ _ => 0.

(** The three results that [calc_normal] writes through its reference
    parameters. *)
Record normal_out := {
  normal : arr1;
  dnormdri : arr2;
  dnormal : arr3
}.

(** The state in which [gpu_find_force] hands the three arrays over. *)
Definition zero_out : normal_out :=
  {| normal := fun _ => 0; dnormdri := fun _ _ => 0;
     dnormal := fun _ _ _ => 0 |}.

Section CalcNormal.
Variable vet : arr2.

Definition pv12 : arr1 :=
  vec (vet c0 c1 * vet c1 c2 - vet c1 c1 * vet c0 c2)
      (vet c0 c2 * vet c1 c0 - vet c1 c2 * vet c0 c0)
      (vet c0 c0 * vet c1 c1 - vet c1 c0 * vet c0 c1).

Definition pv31 : arr1 :=
  vec (vet c2 c1 * vet c0 c2 - vet c0 c1 * vet c2 c2)
      (vet c2 c2 * vet c0 c0 - vet c0 c2 * vet c2 c0)
      (vet c2 c0 * vet c0 c1 - vet c0 c0 * vet c2 c1).

Definition pv23 : arr1 :=
  vec (vet c1 c1 * vet c2 c2 - vet c2 c1 * vet c1 c2)
      (vet c1 c2 * vet c2 c0 - vet c2 c2 * vet c1 c0)
      (vet c1 c0 * vet c2 c1 - vet c2 c0 * vet c1 c1).

(** derivatives of pv12 to ri (branch [cont == 2]) *)
Definition dpvdri : arr2 :=
  tab 0 (vet c0 c2 - vet c1 c2) (vet c1 c1 - vet c0 c1)
      (vet c1 c2 - vet c0 c2) 0 (vet c0 c0 - vet c1 c0)
      (vet c0 c1 - vet c1 c1) (vet c1 c0 - vet c0 c0) 0.

Definition dpv12 : arr3 :=
  by_atom
    (tab 0 (vet c1 c2) (- vet c1 c1)
         (- vet c1 c2) 0 (vet c1 c0)
         (vet c1 c1) (- vet c1 c0) 0)
    (tab 0 (- vet c0 c2) (vet c0 c1)
         (vet c0 c2) 0 (- vet c0 c0)
         (- vet c0 c1) (vet c0 c0) 0)
    zero2.

Definition dpv31 : arr3 :=
  by_atom
    (tab 0 (- vet c2 c2) (vet c2 c1)
         (vet c2 c2) 0 (- vet c2 c0)
         (- vet c2 c1) (vet c2 c0) 0)
    zero2
    (tab 0 (vet c0 c2) (- vet c0 c1)
         (- vet c0 c2) 0 (vet c0 c0)
         (vet c0 c1) (- vet c0 c0) 0).

Definition dpv23 : arr3 :=
  by_atom
    zero2
    (tab 0 (vet c2 c2) (- vet c2 c1)
         (- vet c2 c2) 0 (vet c2 c0)
         (vet c2 c1) (- vet c2 c0) 0)
    (tab 0 (- vet c1 c2) (vet c1 c1)
         (vet c1 c2) 0 (- vet c1 c0)
         (- vet c1 c1) (vet c1 c0) 0).

(** What both non-trivial branches do with the non-normalized normal [n1]
    and its derivatives [dn1]: [nn], [nninv], the unit normal, [dnn] and
    [dnormal]. *)
Definition magnitude (n1 : arr1) : R :=
  sqrt (n1 c0 * n1 c0 + n1 c1 * n1 c1 + n1 c2 * n1 c2).

Definition unit_of (n1 : arr1) : arr1 :=
  let nninv := 1 / magnitude n1 in
  vec (n1 c0 * nninv) (n1 c1 * nninv) (n1 c2 * nninv).

Definition dnn_of (n1 : arr1) (dn1 : arr3) : arr2 :=
  let nninv := 1 / magnitude n1 in
  fun id m =>
    (n1 c0 * dn1 c0 id m + n1 c1 * dn1 c1 id m + n1 c2 * dn1 c2 id m) * nninv.

Definition dnormal_of (n1 : arr1) (dn1 : arr3) : arr3 :=
  let nninv := 1 / magnitude n1 in
  fun id ip m =>
    dn1 id ip m * nninv - n1 id * dnn_of n1 dn1 ip m * nninv * nninv.

(** Branch [cont == 2]: [n1 = pv12]. *)
Definition n1_two : arr1 := vec (pv12 c0) (pv12 c1) (pv12 c2).

Definition normal_two : normal_out :=
  let n1 := n1_two in
  let nninv := 1 / magnitude n1 in
  let dni : arr1 :=
    fun ip => (n1 c0 * dpvdri c0 ip + n1 c1 * dpvdri c1 ip
               + n1 c2 * dpvdri c2 ip) * nninv in
  {| normal := unit_of n1;
     dnormdri := fun id ip =>
       dpvdri id ip * nninv - n1 id * dni ip * nninv * nninv;
     dnormal := dnormal_of n1 dpv12 |}.

(** Branch [cont == 3]; [continv = 1.0 / cont]: [n1] is the average of
    the three cross products. *)
Definition n1_three : arr1 :=
  let continv := 1 / 3 in
  vec ((pv12 c0 + pv31 c0 + pv23 c0) * continv)
      ((pv12 c1 + pv31 c1 + pv23 c1) * continv)
      ((pv12 c2 + pv31 c2 + pv23 c2) * continv).

Definition normal_three : normal_out :=
  let continv := 1 / 3 in
  let n1 := n1_three in
  let dn1 : arr3 := fun id ip m =>
    (dpv12 id ip m + dpv23 id ip m + dpv31 id ip m) * continv in
  {| normal := unit_of n1;
     dnormdri := fun _ _ => 0;
     dnormal := dnormal_of n1 dn1 |}.

(** [calc_normal(vet, cont, normal, dnormdri, dnormal)]; [out] is the
    content of the three result arrays on entry, which the last branch
    (more than three bonds) leaves untouched. *)
Definition calc_normal (cont : Z) (out : normal_out) : normal_out :=
  if (cont <=? 1)%Z then
    {| normal := vec 0 0 1;
       dnormdri := fun _ _ => 0;
       dnormal := fun _ _ _ => 0 |}
  else if (cont =? 2)%Z then normal_two
  else if (cont =? 3)%Z then normal_three
  else out.

End CalcNormal.

(** Squared Euclidean norm of a 3-vector. *)
Definition norm2 (v : arr1) : R := (v c0 * v c0 + v c1 * v c1 + v c2 * v c2).


End Normal.

(** ** Device memory and the fault monad *)

Module Mem.

(** An access outside an array is undefined behaviour in the source; the
    model stops with the fault that names the array and the index. *)
Inductive fault :=
| OobRead (array : string) (i : Z)
| OobWrite (array : string) (i : Z).

Inductive res (A : Type) :=
| Ok (a : A)
| Fault (f : fault).
Arguments Ok {A} a.
Arguments Fault {A} f.

Definition bind {A B} (m : res A) (k : A -> res B) : res B :=
  match m with
  | Ok a => k a
  | Fault f => Fault f
  end.

Declare Scope res_scope.
Delimit Scope res_scope with res.
Notation "x <- m ;; k" := (bind m (fun x => k))
  (at level 61, m at next level, right associativity) : res_scope.
Notation "' p <- m ;; k" := (bind m (fun p => k))
  (at level 61, p pattern, m at next level, right associativity) : res_scope.
Open Scope res_scope.

Fixpoint upd {A} (l : list A) (n : nat) (v : A) : list A :=
  match l, n with
  | [], _ => []
  | _ :: l', O => v :: l'
  | a :: l', S n' => a :: upd l' n' v
  end.

(** [a[i]] as an r-value. *)
Definition rd {A} (name : string) (a : list A) (i : Z) : res A :=
  if (i <? 0)%Z then Fault (OobRead name i)
  else match nth_error a (Z.to_nat i) with
       | Some v => Ok v
       | None => Fault (OobRead name i)
       end.

(** [a[i] = v]. *)
Definition wr {A} (name : string) (a : list A) (i : Z) (v : A)
  : res (list A) :=
  if ((0 <=? i) && (i <? Z.of_nat (List.length a)))%Z
  then Ok (upd a (Z.to_nat i) v)
  else Fault (OobWrite name i).

(** [a[i] += v] on an array of doubles. *)
Definition add_at (name : string) (a : list R) (i : Z) (v : R)
  : res (list R) :=
  old <- rd name a i ;; wr name a i (old + v)%R.

(** The integers [lo, lo+1, .., hi-1] (none when [hi <= lo]). *)
Definition zrange (lo hi : Z) : list Z :=
  map (fun k => (lo + Z.of_nat k)%Z) (seq 0 (Z.to_nat (hi - lo))).

(** [for (i in l) s = body(i, s)], stopping at the first fault. *)
Fixpoint for_each {S} (l : list Z) (body : Z -> S -> res S) (s : S)
  : res S :=
  match l with
  | [] => Ok s
  | i :: l' => s' <- body i s ;; for_each l' body s'
  end.

(** Comparisons of doubles as the conditions of [if]. *)
Definition Rltb (a b : R) : bool := if Rlt_dec a b then true else false.
Definition Rgeb (a b : R) : bool := if Rge_dec a b then true else false.
Definition Rneb (a b : R) : bool := if Req_dec_T a b then false else true.

End Mem.

(** ** The ILP data model and the secondary neighbor list builder *)

Module ILP.
Import Mem Normal.
Open Scope R_scope.

(** Modelled from the spec: the capacity [MAX_ILP_NEIGHBOR] of the
    secondary neighbor list is defined in the header [ilp.cuh], which is not
    part of the sources at hand; the spec gives 3 and the diagnostic of
    [ILP_neighbor] ("is greater than 3"), the three slots cleared by
    [init_ILP_temp_data] and [index_ilp_vec[3]] agree. *)
Definition MAX_ILP_NEIGHBOR : Z := 3.

(** [ILP_Para]: the per-type-pair tables, indexed [[type1][type2]]; the
    field [S] of the source is [S_] here ([S] is the successor of [nat]). *)
Record ILP_Para := {
  rcutsq_ilp : Z -> Z -> R;
  d : Z -> Z -> R;
  d_Seff : Z -> Z -> R;
  C_6 : Z -> Z -> R;
  z0 : Z -> Z -> R;
  lambda : Z -> Z -> R;
  epsilon : Z -> Z -> R;
  C : Z -> Z -> R;
  delta2inv : Z -> Z -> R;
  S_ : Z -> Z -> R;
  rcut_global : Z -> Z -> R
}.

(** What [ILP_neighbor] prints. *)
Inductive diag :=
| TooMany (count : Z)
| FirstNeighbors (n1 nei1 nei2 nei3 nei4 : Z).

(** A local [int] array of extent 3. *)
Definition vec3z (a0 a1 a2 : Z) : ix -> Z :=
  fun k => match k with c0 => a0 | c1 => a1 | c2 => a2 end.

Section Kernels.

(** The periodic box and the minimum-image fold [apply_mic(box, x12, y12,
    z12)] belong to the geometry collaborator and are taken as given. *)
Variable Box : Type.
Variable apply_mic : Box -> R -> R -> R -> R * R * R.

(** The read-only arguments shared by the kernels. *)
Record system := {
  number_of_particles : Z;
  N1 : Z;
  N2 : Z;
  box : Box;
  g_neighbor_number : list Z;
  g_neighbor_list : list Z;
  g_type : list Z;
  ilp_para : ILP_Para;
  g_x : list R;
  g_y : list R;
  g_z : list R;
  group_label : list Z
}.

(** The secondary neighbor list, with the lines printed so far. *)
Record nl_state := {
  ilp_neighbor_number : list Z;
  ilp_neighbor_list : list Z;
  printed : list diag
}.

Variable sys : system.

(** The minimum-image vector from atom [n1] at [(x1, y1, z1)] to [n2]. *)
Definition bond (x1 y1 z1 : R) (n2 : Z) : res (R * R * R) :=
  x2 <- rd "g_x" (g_x sys) n2 ;;
  y2 <- rd "g_y" (g_y sys) n2 ;;
  z2 <- rd "g_z" (g_z sys) n2 ;;
  Ok (apply_mic (box sys) (x2 - x1) (y2 - y1) (z2 - z1))%R.

(** One iteration of the neighbor loop of [ILP_neighbor]; the loop state is
    [count] and the list under construction. *)
Definition ILP_neighbor_step (n1 type1 : Z) (x1 y1 z1 : R) (i1 : Z)
    (st : Z * list Z) : res (Z * list Z) :=
  let '(count, nl) := st in
  n2 <- rd "g_neighbor_list" (g_neighbor_list sys)
          (n1 + number_of_particles sys * i1) ;;
  type2 <- rd "g_type" (g_type sys) n2 ;;
  '(x12, y12, z12) <- bond x1 y1 z1 n2 ;;
  let d12sq := (x12 * x12 + y12 * y12 + z12 * z12)%R in
  let rcutsq := rcutsq_ilp (ilp_para sys) type1 type2 in
  g1 <- rd "group_label" (group_label sys) n1 ;;
  g2 <- rd "group_label" (group_label sys) n2 ;;
  if (g1 =? g2)%Z && Rltb d12sq rcutsq && Rneb d12sq 0 then
    nl' <- wr "ilp_neighbor_list" nl
             (count * number_of_particles sys + n1) n2 ;;
    Ok ((count + 1)%Z, nl')
  else Ok (count, nl).

(** The thread of [ILP_neighbor] for particle [n1] (with [n1 < N2]). *)
Definition ILP_neighbor_thread (n1 : Z) (st : nl_state) : res nl_state :=
  neighbor_number <- rd "g_neighbor_number" (g_neighbor_number sys) n1 ;;
  type1 <- rd "g_type" (g_type sys) n1 ;;
  x1 <- rd "g_x" (g_x sys) n1 ;;
  y1 <- rd "g_y" (g_y sys) n1 ;;
  z1 <- rd "g_z" (g_z sys) n1 ;;
  '(count, nl) <- for_each (zrange 0 neighbor_number)
                    (ILP_neighbor_step n1 type1 x1 y1 z1)
                    (0%Z, ilp_neighbor_list st) ;;
  nn <- wr "ilp_neighbor_number" (ilp_neighbor_number st) n1 count ;;
  if (count >? MAX_ILP_NEIGHBOR)%Z then
    let N := number_of_particles sys in
    nei1 <- rd "ilp_neighbor_list" nl (0 * N + n1) ;;
    nei2 <- rd "ilp_neighbor_list" nl (1 * N + n1) ;;
    nei3 <- rd "ilp_neighbor_list" nl (2 * N + n1) ;;
    nei4 <- rd "ilp_neighbor_list" nl (3 * N + n1) ;;
    Ok {| ilp_neighbor_number := nn;
          ilp_neighbor_list := nl;
          printed := printed st
                     ++ [TooMany count; FirstNeighbors n1 nei1 nei2 nei3 nei4]
       |}
  else
    Ok {| ilp_neighbor_number := nn;
          ilp_neighbor_list := nl;
          printed := printed st |}.

(** The kernel [ILP_neighbor<<<grid_size, BLOCK_SIZE_FORCE>>>]. *)
Definition ILP_neighbor (st : nl_state) : res nl_state :=
  for_each (zrange (N1 sys) (N2 sys)) ILP_neighbor_thread st.

(** The secondary neighbor list as [ILP::compute] hands it to the builder:
    [ilp_NN] and [ilp_NL], resized by the constructor to [num_atoms] and
    [num_atoms * MAX_ILP_NEIGHBOR] entries, and filled with 0. *)
Definition fresh_nl : nl_state :=
  let n := Z.to_nat (number_of_particles sys) in
  {| ilp_neighbor_number := repeat 0%Z n;
     ilp_neighbor_list := repeat 0%Z (n * Z.to_nat MAX_ILP_NEIGHBOR);
     printed := [] |}.

(** ** The force kernel *)

(** [calc_vdW]; the results are [(p2_vdW, f2_vdW)]. *)
Definition calc_vdW (r rinv rsq d d_Seff C_6 Tap dTap : R) : R * R :=
  let r2inv := 1 / rsq in
  let r6inv := r2inv * r2inv * r2inv in
  let r8inv := r2inv * r6inv in
  let TSvdw := 1 + exp (- d_Seff * r + d) in
  let TSvdwinv := 1 / TSvdw in
  let Vilp := - C_6 * r6inv * TSvdwinv in
  let fpair :=
    (-6 + d_Seff * (TSvdw - 1) * TSvdwinv * r) * C_6 * TSvdwinv * r8inv in
  let fsum := fpair * Tap - Vilp * dTap * rinv in
  (Tap * Vilp, fsum).

(** An [int] used as the index of a local array of extent 3. *)
Definition ix_of_Z (name : string) (k : Z) : res ix :=
  if (k =? 0)%Z then Ok c0
  else if (k =? 1)%Z then Ok c1
  else if (k =? 2)%Z then Ok c2
  else Fault (OobWrite name k).

Definition ix_eqb (a b : ix) : bool :=
  match a, b with
  | c0, c0 | c1, c1 | c2, c2 => true
  | _, _ => false
  end.

(** [a[k] = v] on a local array of extent 3, and [a[k][.] = v]. *)
Definition set1 (a : arr1) (k : ix) (v : R) : arr1 :=
  fun id => if ix_eqb id k then v else a id.

Definition set_row (a : arr2) (k : ix) (v : arr1) : arr2 :=
  fun id ip => if ix_eqb id k then v ip else a id ip.

(** The nine virial accumulators [s_sxx .. s_szz] are one table
    [s_s a b]; [s_s += outer u f] is [s_sab += u_a * f_b] for the nine
    pairs. *)
Definition outer (u f : arr1) : arr2 := fun a b => u a * f b.
Definition madd (s t : arr2) : arr2 := fun a b => s a b + t a b.
Definition vadd (u v : arr1) : arr1 := fun a => u a + v a.
Definition vsub (u v : arr1) : arr1 := fun a => u a - v a.
Definition vscale (c : R) (u : arr1) : arr1 := fun a => c * u a.

(** The arrays that the force kernel and the reduction pass update.  The
    x, y and z arrays of a vector quantity are one family indexed by the
    component: [g_f c0] is [g_fx], [g_f12 c1] is [g_f12y],
    [g_f12_ilp_neigh c2] is [g_f12z_ilp_neigh]. *)
Record force_state := {
  g_f : ix -> list R;
  g_virial : list R;
  g_potential : list R;
  g_f12 : ix -> list R;
  g_f12_ilp_neigh : ix -> list R
}.

Definition rd3 (name : string) (a : ix -> list R) (i : Z) : res arr1 :=
  vx <- rd name (a c0) i ;;
  vy <- rd name (a c1) i ;;
  vz <- rd name (a c2) i ;;
  Ok (vec vx vy vz).

Definition fam (ax ay az : list R) : ix -> list R :=
  fun c => match c with c0 => ax | c1 => ay | c2 => az end.

Definition wr3 (name : string) (a : ix -> list R) (i : Z) (v : arr1)
  : res (ix -> list R) :=
  ax <- wr name (a c0) i (v c0) ;;
  ay <- wr name (a c1) i (v c1) ;;
  az <- wr name (a c2) i (v c2) ;;
  Ok (fam ax ay az).

Definition add3 (name : string) (a : ix -> list R) (i : Z) (v : arr1)
  : res (ix -> list R) :=
  ax <- add_at name (a c0) i (v c0) ;;
  ay <- add_at name (a c1) i (v c1) ;;
  az <- add_at name (a c2) i (v c2) ;;
  Ok (fam ax ay az).

(** "save virial": xx xy xz = 0 3 4, yx yy yz = 6 1 5, zx zy zz = 7 8 2. *)
Definition save_virial (vir : list R) (n1 : Z) (s_s : arr2) : res (list R) :=
  let N := number_of_particles sys in
  v <- add_at "g_virial" vir (n1 + 0 * N) (s_s c0 c0) ;;
  v <- add_at "g_virial" v (n1 + 1 * N) (s_s c1 c1) ;;
  v <- add_at "g_virial" v (n1 + 2 * N) (s_s c2 c2) ;;
  v <- add_at "g_virial" v (n1 + 3 * N) (s_s c0 c1) ;;
  v <- add_at "g_virial" v (n1 + 4 * N) (s_s c0 c2) ;;
  v <- add_at "g_virial" v (n1 + 5 * N) (s_s c1 c2) ;;
  v <- add_at "g_virial" v (n1 + 6 * N) (s_s c1 c0) ;;
  v <- add_at "g_virial" v (n1 + 7 * N) (s_s c2 c0) ;;
  add_at "g_virial" v (n1 + 8 * N) (s_s c2 c1).

(** [init_ILP_temp_data]: the thread of particle [n1] clears its three
    slots of the many-body buffers.  The pairwise buffers [g_f12x],
    [g_f12y], [g_f12z] are passed to the kernel and left as they are (the
    three assignments to them are commented out in the source). *)
Definition init_ILP_temp_data_thread (n1 : Z) (fs : force_state)
  : res force_state :=
  let N := number_of_particles sys in
  b <- wr3 "g_f12_ilp_neigh" (g_f12_ilp_neigh fs) n1 (vec 0 0 0) ;;
  b <- wr3 "g_f12_ilp_neigh" b (n1 + N) (vec 0 0 0) ;;
  b <- wr3 "g_f12_ilp_neigh" b (n1 + N + N) (vec 0 0 0) ;;
  Ok {| g_f := g_f fs; g_virial := g_virial fs;
        g_potential := g_potential fs; g_f12 := g_f12 fs;
        g_f12_ilp_neigh := b |}.

Definition init_ILP_temp_data (fs : force_state) : res force_state :=
  for_each (zrange (N1 sys) (N2 sys)) init_ILP_temp_data_thread fs.

(** The bond-vector loop of [gpu_find_force]: the loop state is [cont],
    [vet] and the three arrays [delkix_half], [delkiy_half], [delkiz_half]
    (here the table [delki_half k c]). *)
Record bonds := {
  cont : Z;
  vet : arr2;
  delki_half : arr2
}.

Definition bond_step (nl : nl_state) (n1 : Z) (x1 y1 z1 : R) (i1 : Z)
    (b : bonds) : res bonds :=
  n2_ilp <- rd "g_ilp_neighbor_list" (ilp_neighbor_list nl)
              (n1 + number_of_particles sys * i1) ;;
  '(x12, y12, z12) <- bond x1 y1 z1 n2_ilp ;;
  c <- ix_of_Z "vet" (cont b) ;;
  k <- ix_of_Z "delkix_half" i1 ;;
  Ok {| cont := (cont b + 1)%Z;
        vet := set_row (vet b) c (vec x12 y12 z12);
        delki_half :=
          set_row (delki_half b) k
                  (vec (x12 * 0.5) (y12 * 0.5) (z12 * 0.5)) |}.

(** The running sums of a thread of [gpu_find_force]: [s_fx..s_fz],
    [s_pe], [s_sxx..s_szz], [fk_temp[9]] (the table [fk_temp c k] is
    [fk_temp[k + 3 * c]]), and the pairwise buffers it writes into. *)
Record sums := {
  s_f : arr1;
  s_pe : R;
  s_s : arr2;
  fk_temp : arr2;
  f12_buf : ix -> list R
}.

(** The inner loop over [kk] of the energy and force loop. *)
Definition many_body_step (nrm : normal_out) (dkh : arr2) (del : arr1)
    (minus_prodnorm1_m_fpair1_m_Tap : R) (kk : Z) (a : arr2 * arr2)
  : res (arr2 * arr2) :=
  let '(fkt, ss) := a in
  k <- ix_of_Z "dnormal" kk ;;
  let dprodnorm1 : arr1 := fun ip =>
    dnormal nrm c0 ip k * del c0 + dnormal nrm c1 ip k * del c1
    + dnormal nrm c2 ip k * del c2 in
  let fk : arr1 := fun ip =>
    minus_prodnorm1_m_fpair1_m_Tap * dprodnorm1 ip in
  Ok (fun c k' => if ix_eqb k' k then fkt c k' + fk c else fkt c k',
      madd ss (outer (dkh k) fk)).

(** The arithmetic of one iteration of the energy and force loop of
    [gpu_find_force], for a neighbor of type [type2] at the minimum-image
    vector [(x12, y12, z12)] that passed the cutoff and group test: the
    statements of the loop body from [Rcutinv = 1.0 / Rcut] on, in source
    order, without the accumulations and the stores.  The record holds the
    values that the accumulations and stores use. *)
Record pair_terms := {
  q_Tap : R;
  q_p2_vdW : R;
  q_f2_vdW : R;
  q_Vilp : R;
  q_del : arr1;
  q_fkc : arr1;
  q_fprod1 : arr1;
  q_minus_prodnorm1_m_fpair1_m_Tap : R
}.

Definition calc_pair (para : ILP_Para) (type1 type2 : Z)
    (nrm : normal_out) (x12 y12 z12 : R) : pair_terms :=
  let rsq := x12 * x12 + y12 * y12 + z12 * z12 in
  let r := sqrt rsq in
  let Rcut := rcut_global para type1 type2 in
  let Rcutinv := 1 / Rcut in
  let rinv := 1 / r in
  let Tap := Taper.calc_Tap r Rcutinv in
  let dTap := Taper.calc_dTap r Rcut Rcutinv in
  let '(p2_vdW, f2_vdW) :=
    calc_vdW r rinv rsq (d para type1 type2) (d_Seff para type1 type2)
             (C_6 para type1 type2) Tap dTap in
  let C := C para type1 type2 in
  let lambda_ := lambda para type1 type2 in
  let delta2inv := delta2inv para type1 type2 in
  let epsilon := epsilon para type1 type2 in
  let z0 := z0 para type1 type2 in
  let del := vec (- x12) (- y12) (- z12) in
  let prodnorm1 :=
    normal nrm c0 * del c0 + normal nrm c1 * del c1
    + normal nrm c2 * del c2 in
  let rhosq1 := rsq - prodnorm1 * prodnorm1 in
  let rdsq1 := rhosq1 * delta2inv in
  let exp0 := exp (- lambda_ * (r - z0)) in
  let exp1 := exp (- rdsq1) in
  let frho1 := exp1 * C in
  let Erep := 0.5 * epsilon + frho1 in
  let Vilp := exp0 * Erep in
  let fpair := lambda_ * exp0 * rinv * Erep in
  let fpair1 := 2 * exp0 * frho1 * delta2inv in
  let fsum := fpair + fpair1 in
  let prodnorm1_m_fpair1 := prodnorm1 * fpair1 in
  let Vilp_m_dTap_m_rinv := Vilp * dTap * rinv in
  let dprodnorm1 : arr1 := fun ip =>
    dnormdri nrm c0 ip * del c0 + dnormdri nrm c1 ip * del c1
    + dnormdri nrm c2 ip * del c2 in
  let fp1 : arr1 := fun c => prodnorm1_m_fpair1 * normal nrm c in
  let fprod1 : arr1 := fun c => prodnorm1_m_fpair1 * dprodnorm1 c in
  let fkc : arr1 := fun c =>
    (del c * fsum - fp1 c) * Tap - Vilp_m_dTap_m_rinv * del c in
  {| q_Tap := Tap;
     q_p2_vdW := p2_vdW;
     q_f2_vdW := f2_vdW;
     q_Vilp := Vilp;
     q_del := del;
     q_fkc := fkc;
     q_fprod1 := fprod1;
     q_minus_prodnorm1_m_fpair1_m_Tap := - prodnorm1 * fpair1 * Tap |}.

(** One iteration of the energy and force loop of [gpu_find_force]: the
    loads, the test that skips the neighbor, and the accumulations and
    stores of the values computed by [calc_pair]. *)
Definition force_step (nl_count : Z) (nrm : normal_out) (dkh : arr2)
    (n1 type1 : Z) (x1 y1 z1 : R) (i1 : Z) (a : sums) : res sums :=
  let index := (n1 + number_of_particles sys * i1)%Z in
  n2 <- rd "g_neighbor_list" (g_neighbor_list sys) index ;;
  type2 <- rd "g_type" (g_type sys) n2 ;;
  '(x12, y12, z12) <- bond x1 y1 z1 n2 ;;
  let rsq := x12 * x12 + y12 * y12 + z12 * z12 in
  let r := sqrt rsq in
  let Rcut := rcut_global (ilp_para sys) type1 type2 in
  if Rgeb r Rcut then Ok a else
  g1 <- rd "group_label" (group_label sys) n1 ;;
  g2 <- rd "group_label" (group_label sys) n2 ;;
  if (g1 =? g2)%Z then Ok a else
  let q := calc_pair (ilp_para sys) type1 type2 nrm x12 y12 z12 in
  let x12v := vec x12 y12 z12 in
  let f12 : arr1 := fun c => - q_f2_vdW q * x12v c * 0.5 in
  let f21 : arr1 := fun c => - f12 c in
  let s_f1 := vadd (s_f a) (vsub f12 f21) in
  let s_pe1 := s_pe a + q_p2_vdW q * 0.5 in
  let s_s1 := madd (s_s a) (outer x12v f21) in
  let del_half : arr1 := fun c => q_del q c * 0.5 in
  let s_f2 := vadd s_f1 (fun c => q_fkc q c - q_fprod1 q c * q_Tap q) in
  buf <- wr3 "g_f12" (f12_buf a) index (q_fkc q) ;;
  '(fkt, s_s2) <- for_each (zrange 0 nl_count)
                    (many_body_step nrm dkh (q_del q)
                       (q_minus_prodnorm1_m_fpair1_m_Tap q))
                    (fk_temp a, s_s1) ;;
  Ok {| s_f := s_f2;
        s_pe := s_pe1 + q_Tap q * q_Vilp q;
        s_s := madd s_s2 (outer del_half (q_fkc q));
        fk_temp := fkt;
        f12_buf := buf |}.

(** The thread of [gpu_find_force] for particle [n1] (with [n1 < N2]). *)
Definition gpu_find_force_thread (nl : nl_state) (n1 : Z)
    (fs : force_state) : res force_state :=
  let N := number_of_particles sys in
  neighor_number <- rd "g_neighbor_number" (g_neighbor_number sys) n1 ;;
  type1 <- rd "g_type" (g_type sys) n1 ;;
  x1 <- rd "g_x" (g_x sys) n1 ;;
  y1 <- rd "g_y" (g_y sys) n1 ;;
  z1 <- rd "g_z" (g_z sys) n1 ;;
  let index_ilp_vec := vec3z n1 (n1 + N) (n1 + Z.shiftl N 1) in
  ilp_count <- rd "g_ilp_neighbor_number" (ilp_neighbor_number nl) n1 ;;
  b <- for_each (zrange 0 ilp_count) (bond_step nl n1 x1 y1 z1)
         {| cont := 0; vet := zero2; delki_half := zero2 |} ;;
  let nrm := calc_normal (vet b) (cont b) zero_out in
  a <- for_each (zrange 0 neighor_number)
         (force_step ilp_count nrm (delki_half b) n1 type1 x1 y1 z1)
         {| s_f := vec 0 0 0; s_pe := 0; s_s := zero2; fk_temp := zero2;
            f12_buf := g_f12 fs |} ;;
  f <- add3 "g_f" (g_f fs) n1 (s_f a) ;;
  m <- wr3 "g_f12_ilp_neigh" (g_f12_ilp_neigh fs) (index_ilp_vec c0)
         (fun c => fk_temp a c c0) ;;
  m <- wr3 "g_f12_ilp_neigh" m (index_ilp_vec c1)
         (fun c => fk_temp a c c1) ;;
  m <- wr3 "g_f12_ilp_neigh" m (index_ilp_vec c2)
         (fun c => fk_temp a c c2) ;;
  v <- save_virial (g_virial fs) n1 (s_s a) ;;
  p <- add_at "g_potential" (g_potential fs) n1 (s_pe a) ;;
  Ok {| g_f := f; g_virial := v; g_potential := p;
        g_f12 := f12_buf a; g_f12_ilp_neigh := m |}.

Definition gpu_find_force (nl : nl_state) (fs : force_state)
  : res force_state :=
  for_each (zrange (N1 sys) (N2 sys)) (gpu_find_force_thread nl) fs.

(** ** The many-body reduction pass *)

(** The reciprocal-slot search of the first loop of
    [reduce_force_many_body]: the [while (l < r)] loop over the neighbor
    list of [n2], started with [l = 0], [r = neighor_number_2], [m = 0];
    the result is the final [m], which the source assigns to [offset]. *)
Equations? find_offset (n2 n1 : Z) (l r m : Z) : res Z
  by wf (Z.to_nat (r - l)) lt :=
find_offset n2 n1 l r m with Z_lt_dec l r := {
  | right _ := Ok m
  | left _ with rd "g_neighbor_list" (g_neighbor_list sys)
                  (n2 + number_of_particles sys * Z.shiftr (l + r) 1) := {
    | Fault f := Fault f
    | Ok tmp_value with (tmp_value >? n1)%Z := {
      | true := find_offset n2 n1 l (Z.shiftr (l + r) 1 - 1)
                            (Z.shiftr (l + r) 1)
      | false with (tmp_value <? n1)%Z := {
        | true := find_offset n2 n1 (Z.shiftr (l + r) 1 + 1) r
                              (Z.shiftr (l + r) 1)
        | false := Ok (Z.shiftr (l + r) 1) } } } }.
Proof.
  all: rewrite Z.shiftr_div_pow2 by lia; change (2 ^ 1)%Z with 2%Z.
  all: pose proof (Z.div_mod (l + r) 2 ltac:(lia));
       pose proof (Z.mod_pos_bound (l + r) 2 ltac:(lia)); lia.
Qed.

(** The linear search of the second loop, over [k = 0, 1, ..]; [offset]
    keeps its initial value 0 when no entry equals [n1]. *)
Fixpoint find_offset_ilp (nl : nl_state) (n2 n1 : Z) (ks : list Z)
  : res Z :=
  match ks with
  | [] => Ok 0%Z
  | k :: ks' =>
      v <- rd "g_ilp_neighbor_list" (ilp_neighbor_list nl)
             (n2 + number_of_particles sys * k) ;;
      if (n1 =? v)%Z then Ok k else find_offset_ilp nl n2 n1 ks'
  end.

(** The running sums of a thread of the reduction pass. *)
Definition rsums := (arr1 * arr2)%type.

(** One iteration of the first loop (general neighbors). *)
Definition reduce_step (fs : force_state) (n1 : Z) (x1 y1 z1 : R)
    (i1 : Z) (a : rsums) : res rsums :=
  let '(sf, ss) := a in
  let N := number_of_particles sys in
  let index := (n1 + N * i1)%Z in
  n2 <- rd "g_neighbor_list" (g_neighbor_list sys) index ;;
  neighor_number_2 <- rd "g_neighbor_number" (g_neighbor_number sys) n2 ;;
  '(x12, y12, z12) <- bond x1 y1 z1 n2 ;;
  offset <- find_offset n2 n1 0 neighor_number_2 0 ;;
  let index := (n2 + N * offset)%Z in
  f21 <- rd3 "g_f12" (g_f12 fs) index ;;
  Ok (vsub sf f21,
      madd ss (fun a b => outer (vec x12 y12 z12) f21 a b * 0.5)).

(** One iteration of the second loop (secondary neighbors). *)
Definition reduce_ilp_step (nl : nl_state) (fs : force_state) (n1 : Z)
    (x1 y1 z1 : R) (i1 : Z) (a : rsums) : res rsums :=
  let '(sf, ss) := a in
  let N := number_of_particles sys in
  let index := (n1 + N * i1)%Z in
  n2 <- rd "g_ilp_neighbor_list" (ilp_neighbor_list nl) index ;;
  ilp_neighor_number_2 <-
    rd "g_neighbor_number" (g_neighbor_number sys) n2 ;;
  '(x12, y12, z12) <- bond x1 y1 z1 n2 ;;
  offset <- find_offset_ilp nl n2 n1 (zrange 0 ilp_neighor_number_2) ;;
  let index := (n2 + N * offset)%Z in
  f21 <- rd3 "g_f12_ilp_neigh" (g_f12_ilp_neigh fs) index ;;
  Ok (vadd sf f21,
      madd ss (fun a b => outer (vec (- x12) (- y12) (- z12)) f21 a b * 0.5)).

(** The thread of [reduce_force_many_body] for particle [n1]. *)
Definition reduce_force_many_body_thread (nl : nl_state) (n1 : Z)
    (fs : force_state) : res force_state :=
  neighbor_number_1 <- rd "g_neighbor_number" (g_neighbor_number sys) n1 ;;
  x1 <- rd "g_x" (g_x sys) n1 ;;
  y1 <- rd "g_y" (g_y sys) n1 ;;
  z1 <- rd "g_z" (g_z sys) n1 ;;
  a <- for_each (zrange 0 neighbor_number_1) (reduce_step fs n1 x1 y1 z1)
         (vec 0 0 0, zero2) ;;
  ilp_neighbor_number_1 <-
    rd "g_ilp_neighbor_number" (ilp_neighbor_number nl) n1 ;;
  '(sf, ss) <- for_each (zrange 0 ilp_neighbor_number_1)
                 (reduce_ilp_step nl fs n1 x1 y1 z1) a ;;
  f <- add3 "g_f" (g_f fs) n1 sf ;;
  v <- save_virial (g_virial fs) n1 ss ;;
  Ok {| g_f := f; g_virial := v; g_potential := g_potential fs;
        g_f12 := g_f12 fs; g_f12_ilp_neigh := g_f12_ilp_neigh fs |}.

Definition reduce_force_many_body (nl : nl_state) (fs : force_state)
  : res force_state :=
  for_each (zrange (N1 sys) (N2 sys)) (reduce_force_many_body_thread nl) fs.

(** ** One force evaluation *)

(** [ILP::compute] after [find_neighbor]: the secondary list is cleared and
    rebuilt, then the three kernels run in order.  [fs] holds the caller's
    force, virial and potential arrays and the temporary buffers as the
    previous evaluation (or the allocation) left them. *)
Definition compute (fs : force_state) : res (nl_state * force_state) :=
  nl <- ILP_neighbor fresh_nl ;;
  fs <- init_ILP_temp_data fs ;;
  fs <- gpu_find_force nl fs ;;
  fs <- reduce_force_many_body nl fs ;;
  Ok (nl, fs).

End Kernels.

End ILP.

(** ** The heat sampler ([heat.cu]) *)

Module Heat.
Import Mem.
Open Scope R_scope.

Definition DIM : R := 3.
Definition K_B : R := 8.617343e-5.

(** The fields of [Parameters], [Atom] and [Heat] that the sampler uses. *)
Record Parameters := {
  number_of_groups : Z;
  number_of_steps : Z
}.

Record Atom := {
  group_size : list Z;
  group_size_sum : list Z;
  group_contents : list Z;
  mass : list R;
  vx : list R;
  vy : list R;
  vz : list R
}.

Record Heat := {
  sample : bool;
  sample_interval : Z;
  group_temp : list R
}.

(** [preprocess_heat]; [junk k] is the content of cell [k] of the block
    that [MY_MALLOC] returns, which is not initialized.  The [/] of C on
    [int] is [Z.quot]. *)
Definition preprocess_heat (junk : nat -> R) (para : Parameters) (h : Heat)
  : Heat :=
  if sample h then
    let num := ((number_of_groups para + 2)
                * (number_of_steps para ÷ sample_interval h))%Z in
    {| sample := sample h; sample_interval := sample_interval h;
       group_temp := map junk (seq 0 (Z.to_nat num)) |}
  else h.

(** One statement [s[t] += s[t + k]] executed by the lanes [t < n] of a
    block in step: every lane reads before any lane writes. *)
Definition par_add (n k : nat) (s : list R) : list R :=
  map (fun t => if (t <? n)%nat then nth t s 0 + nth (t + k) s 0
                else nth t s 0)
      (seq 0 (List.length s)).

(** [warp_reduce(s, t)] for the lanes [t < 32]. *)
Definition warp_reduce (s : list R) : list R :=
  par_add 32 1 (par_add 32 2 (par_add 32 4 (par_add 32 8
    (par_add 32 16 (par_add 32 32 s))))).

(** The loop over the patches of lane [tid] of [find_group_temp]. *)
Definition patch_step (atom : Atom) (group_size offset tid : Z)
    (patch : Z) (s : R) : res R :=
  let k := (tid + patch * 256)%Z in
  if (k <? group_size)%Z then
    n <- rd "g_group_contents" (group_contents atom) (offset + k) ;;
    vx <- rd "g_vx" (vx atom) n ;;
    vy <- rd "g_vy" (vy atom) n ;;
    vz <- rd "g_vz" (vz atom) n ;;
    m <- rd "g_mass" (mass atom) n ;;
    Ok (s + m * (vx * vx + vy * vy + vz * vz))
  else Ok s.

(** [xs.map(f)] for a fallible [f]. *)
Fixpoint map_res {A B} (f : A -> res B) (l : list A) : res (list B) :=
  match l with
  | [] => Ok []
  | a :: l' => b <- f a ;; bs <- map_res f l' ;; Ok (b :: bs)
  end.

(** The block [bid] of [find_group_temp<<<Ng, 256>>>]; the result is the
    value stored to [g_group_temp[bid]]. *)
Definition find_group_temp (atom : Atom) (bid : Z) : res R :=
  group_size <- rd "g_group_size" (group_size atom) bid ;;
  offset <- rd "g_group_size_sum" (group_size_sum atom) bid ;;
  let number_of_patches := ((group_size - 1) ÷ 256 + 1)%Z in
  s_ke <- map_res (fun tid =>
                     for_each (zrange 0 number_of_patches)
                              (patch_step atom group_size offset tid) 0)
                  (zrange 0 256) ;;
  let s_ke := par_add 128 128 s_ke in
  let s_ke := par_add 64 64 s_ke in
  let s_ke := warp_reduce s_ke in
  Ok (nth 0 s_ke 0 / (DIM * K_B * IZR group_size)).

(** [cudaMemcpy(dst + offset, src, n)] element by element. *)
Fixpoint copy_to (name : string) (dst : list R) (offset : Z) (src : list R)
  : res (list R) :=
  match src with
  | [] => Ok dst
  | v :: src' =>
      dst' <- wr name dst offset v ;; copy_to name dst' (offset + 1) src'
  end.

(** [sample_block_temperature(step, ...)]; [energy_transferred] is the
    array of the ensemble.  [%] of C on [int] is [Z.rem]. *)
Definition sample_block_temperature (step : Z) (para : Parameters)
    (atom : Atom) (energy_transferred : list R) (h : Heat) : res Heat :=
  if sample h then
    if (Z.rem step (sample_interval h) =? 0)%Z then
      let Ng := number_of_groups para in
      let offset := ((step ÷ sample_interval h) * (Ng + 2))%Z in
      temp_gpu <- map_res (find_group_temp atom) (zrange 0 Ng) ;;
      gt <- copy_to "group_temp" (group_temp h) offset temp_gpu ;;
      e0 <- rd "energy_transferred" energy_transferred 0 ;;
      gt <- wr "group_temp" gt (offset + Ng) e0 ;;
      e1 <- rd "energy_transferred" energy_transferred 1 ;;
      gt <- wr "group_temp" gt (offset + Ng + 1) e1 ;;
      Ok {| sample := sample h; sample_interval := sample_interval h;
            group_temp := gt |}
    else Ok h
  else Ok h.

(** [postprocess_heat]: the name of the file opened in append mode and the
    text written to it; [fprintf_15_6e x] is the text that
    [fprintf(fid, "%15.6e", x)] writes (it belongs to the C library). *)
Definition newline : string := String (Ascii.ascii_of_nat 10) EmptyString.


End Heat.

Unset Implicit Arguments.

(** ** The constructor of [ILP] *)

Module Construct.
Import Mem Normal ILP.
Open Scope R_scope.

(** What the constructor prints on the standard output. *)
Inductive line :=
| UseElements (num_types : Z)
| Symbol (atom_symbol : string)
| EndOfLine.

(** Modelled from the spec: the macros [PRINT_INPUT_ERROR] and
    [PRINT_SCANF_ERROR] are defined in [utilities/error.cuh], which is not
    part of the sources at hand; by the spec a malformed parameter stream
    and a type count outside the supported range are fatal, so the macros
    end the run with their text, [PRINT_SCANF_ERROR(count, n, text)] when
    [count != n].

    How a run of the constructor ends: with its result, with such an input
    error or with an access outside an array; [out] is what it has
    printed. *)
Inductive ended (A : Type) :=
| Done (a : A)
| Exit (out : list line) (text : string)
| Crash (out : list line) (f : fault).
Arguments Done {A} a.
Arguments Exit {A} out text.
Arguments Crash {A} out f.

Definition and_then {A B} (m : ended A) (k : A -> ended B) : ended B :=
  match m with
  | Done a => k a
  | Exit out text => Exit out text
  | Crash out f => Crash out f
  end.

(** [for (i in l) s = body(i, s)], stopping where the run ends. *)
Fixpoint for_range {S} (l : list Z) (body : Z -> S -> ended S) (s : S)
  : ended S :=
  match l with
  | [] => Done s
  | i :: l' => and_then (body i s) (for_range l' body)
  end.

(** [a[n][m] = v] on a table of [ILP_Para]. *)
Definition set2 (a : Z -> Z -> R) (n m : Z) (v : R) : Z -> Z -> R :=
  fun i j => if ((i =? n) && (j =? m))%Z then v else a i j.

(** The twelve numbers of a type pair, in the order of the file. *)
Record fields := {
  f_beta : R; f_alpha : R; f_delta : R; f_epsilon : R; f_C : R; f_d : R;
  f_sR : R; f_reff : R; f_C6 : R; f_S : R; f_rcut_ilp : R;
  f_rcut_global : R
}.

(** The sizes that the constructor gives to the vectors of [ilp_data]. *)
Record ILP_Data := {
  NN : Z; NL : Z; cell_count : Z; cell_count_sum : Z; cell_contents : Z;
  ilp_NN : Z; ilp_NL : Z;
  f12x : Z; f12y : Z; f12z : Z;
  f12x_ilp_neigh : Z; f12y_ilp_neigh : Z; f12z_ilp_neigh : Z
}.

(** The members of the class that the constructor sets. *)
Record ILP_object := {
  o_ilp_para : ILP_Para;
  o_rc : R;
  o_ilp_data : ILP_Data;
  o_Tap_coeff : list R
}.

Definition newline : string := String (Ascii.ascii_of_nat 10) EmptyString.

Section Constructor.

(** The parameter file and the two conversions of [fscanf] that the
    constructor uses belong to the C library: [fscanf_s fid] is
    [fscanf(fid, "%s", ..)] and [fscanf_lf fid] one conversion [%lf], each
    with the converted value and the rest of the file, or [None] when the
    conversion fails. *)
Variable stream : Type.
Variable fscanf_s : stream -> option (string * stream).
Variable fscanf_lf : stream -> option (R * stream).

(** [MAX_TYPE_ILP] and [CUDA_MAX_NL] are defined in headers that are not
    part of the sources at hand. *)
Variable MAX_TYPE_ILP : Z.
Variable CUDA_MAX_NL : Z.

(** [fscanf] with [k] conversions [%lf]: the values converted before the
    first failure, and the rest of the file. *)
Fixpoint fscanf_lfs (k : nat) (fid : stream) : list R * stream :=
  match k with
  | O => ([], fid)
  | S k' =>
      match fscanf_lf fid with
      | None => ([], fid)
      | Some (v, fid') =>
          let '(vs, fid'') := fscanf_lfs k' fid' in (v :: vs, fid'')
      end
  end.

(** The call with twelve conversions, for the case that all of them
    succeed ([count == 12]). *)
Definition fscanf_12 (fid : stream) : option (fields * stream) :=
  match fscanf_lfs 12 fid with
  | ([beta; alpha; delta; epsilon; C; d; sR; reff; C6; S_; rcut_ilp;
      rcut_global], fid') =>
      Some ({| f_beta := beta; f_alpha := alpha; f_delta := delta;
               f_epsilon := epsilon; f_C := C; f_d := d; f_sR := sR;
               f_reff := reff; f_C6 := C6; f_S := S_;
               f_rcut_ilp := rcut_ilp; f_rcut_global := rcut_global |},
            fid')
  | _ => None
  end.

(** The first loop: one atom symbol, read into [char atom_symbol[10]] and
    printed. *)
Definition read_symbol (n : Z) (st : stream * list line)
  : ended (stream * list line) :=
  let '(fid, out) := st in
  match fscanf_s fid with
  | None => Exit out "Reading error for ILP potential."
  | Some (atom_symbol, fid') =>
      if (10 <=? String.length atom_symbol)%nat
      then Crash out (OobWrite "atom_symbol" 10)
      else Done (fid', out ++ [Symbol atom_symbol])
  end.

(** The assignments of the second loop for the pair [(n, m)]. *)
Definition store_pair (para : ILP_Para) (n m : Z) (f : fields) : ILP_Para :=
  let para :=
    {| C := set2 (C para) n m (f_C f);
       C_6 := set2 (C_6 para) n m (f_C6 f);
       d := set2 (d para) n m (f_d f);
       d_Seff := set2 (d_Seff para) n m (f_d f / f_sR f / f_reff f);
       epsilon := set2 (epsilon para) n m (f_epsilon f);
       z0 := set2 (z0 para) n m (f_beta f);
       lambda := set2 (lambda para) n m (f_alpha f / f_beta f);
       delta2inv := set2 (delta2inv para) n m (1 / (f_delta f * f_delta f));
       S_ := set2 (S_ para) n m (f_S f);
       rcutsq_ilp :=
         set2 (rcutsq_ilp para) n m (f_rcut_ilp f * f_rcut_ilp f);
       rcut_global := set2 (rcut_global para) n m (f_rcut_global f) |} in
  let meV := 1e-3 * f_S f in
  {| C := set2 (C para) n m (C para n m * meV);
     C_6 := set2 (C_6 para) n m (C_6 para n m * meV);
     d := d para;
     d_Seff := d_Seff para;
     epsilon := set2 (epsilon para) n m (epsilon para n m * meV);
     z0 := z0 para;
     lambda := lambda para;
     delta2inv := delta2inv para;
     S_ := S_ para;
     rcutsq_ilp := rcutsq_ilp para;
     rcut_global := rcut_global para |}.

(** The body of the second loop for the pair [(n, m)]; the state is the
    file, the table and [rc]. *)
Definition read_pair (out : list line) (n m : Z)
    (st : stream * ILP_Para * R) : ended (stream * ILP_Para * R) :=
  let '(fid, para, rc) := st in
  match fscanf_12 fid with
  | None => Exit out "Reading error for ILP potential."
  | Some (f, fid') =>
      Done (fid', store_pair para n m f,
            if Rlt_dec rc (f_rcut_global f) then f_rcut_global f else rc)
  end.

(** [ILP::ILP(fid, num_types, num_atoms)]; [para0] is the content of the
    member [ilp_para] before the constructor runs.  The result is the
    object and what has been printed. *)
Definition ILP_ctor (fid : stream) (num_types num_atoms : Z)
    (para0 : ILP_Para) : ended (ILP_object * list line) :=
  let out := [UseElements num_types] in
  if negb ((num_types >=? 1) && (num_types <=? MAX_TYPE_ILP))%Z then
    Exit out ("Incorrect number of ILP parameters." ++ newline)
  else
    and_then (for_range (zrange 0 num_types) read_symbol (fid, out))
      (fun '(fid, out) =>
    let out := out ++ [EndOfLine] in
    and_then
      (for_range (zrange 0 num_types)
         (fun n => for_range (zrange 0 num_types) (read_pair out n))
         (fid, para0, 0))
      (fun '(fid, para, rc) =>
    let max_neighbor_number := Z.min num_atoms CUDA_MAX_NL in
    Done ({| o_ilp_para := para;
             o_rc := rc;
             o_ilp_data :=
               {| NN := num_atoms;
                  NL := num_atoms * max_neighbor_number;
                  cell_count := num_atoms;
                  cell_count_sum := num_atoms;
                  cell_contents := num_atoms;
                  ilp_NN := num_atoms;
                  ilp_NL := num_atoms * MAX_ILP_NEIGHBOR;
                  f12x := num_atoms * max_neighbor_number;
                  f12y := num_atoms * max_neighbor_number;
                  f12z := num_atoms * max_neighbor_number;
                  f12x_ilp_neigh := num_atoms * MAX_ILP_NEIGHBOR;
                  f12y_ilp_neigh := num_atoms * MAX_ILP_NEIGHBOR;
                  f12z_ilp_neigh := num_atoms * MAX_ILP_NEIGHBOR |};
             o_Tap_coeff := [1; 0; 0; 0; -35; 84; -70; 20] |},
          out))).

End Constructor.

End Construct.

Set Implicit Arguments.

(** * Specification-side definitions and example inputs *)

(** ** Total reads *)

Module Reads.

(** [a[i]] for an index known to be in range (0 outside). *)
Definition at_Z (a : list Z) (i : Z) : Z := nth (Z.to_nat i) a 0%Z.
Definition at_R (a : list R) (i : Z) : R := nth (Z.to_nat i) a 0%R.

End Reads.

(** ** Orderings of the three bonds *)

Module NormalSpec.
Import Normal.
Open Scope R_scope.




(** Bonds used by the examples: an atom with neighbours at (1,0,0),
    (0,1,0) and (-1,-1,0). *)
Definition vet_tri : arr2 := tab 1 0 0 0 1 0 (-1) (-1) 0.


End NormalSpec.

(** ** The selection rule of the secondary neighbor list *)

Module BuilderSpec.
Import Mem Normal ILP Reads.

Section Builder.
Variable Box : Type.
Variable apply_mic : Box -> R -> R -> R -> R * R * R.
Variable sys : system Box.

Local Notation N := (number_of_particles sys).

(** The squared minimum-image distance between atoms [n1] and [n2]. *)
Definition d12sq (n1 n2 : Z) : R :=
  let '(x12, y12, z12) :=
    apply_mic (box sys) (at_R (g_x sys) n2 - at_R (g_x sys) n1)
              (at_R (g_y sys) n2 - at_R (g_y sys) n1)
              (at_R (g_z sys) n2 - at_R (g_z sys) n1) in
  (x12 * x12 + y12 * y12 + z12 * z12)%R.

Definition rcutsq (n1 n2 : Z) : R :=
  rcutsq_ilp (ilp_para sys) (at_Z (g_type sys) n1) (at_Z (g_type sys) n2).

(** The selection rule in words: same group, squared distance below the
    squared cutoff of the type pair, and non-zero distance. *)
Definition kept_spec (n1 n2 : Z) : Prop :=
  at_Z (group_label sys) n1 = at_Z (group_label sys) n2
  /\ (d12sq n1 n2 < rcutsq n1 n2)%R
  /\ d12sq n1 n2 <> 0%R.

Definition keptb (n1 n2 : Z) : bool :=
  (at_Z (group_label sys) n1 =? at_Z (group_label sys) n2)%Z
  && Rltb (d12sq n1 n2) (rcutsq n1 n2) && Rneb (d12sq n1 n2) 0.

(** The general-neighbor entries of [n1], in list order. *)
Definition general_neighbors (n1 : Z) : list Z :=
  map (fun i1 => at_Z (g_neighbor_list sys) (n1 + N * i1))
      (zrange 0 (at_Z (g_neighbor_number sys) n1)).

(** The secondary-neighbor entries of [n1], in list order. *)
Definition secondary_neighbors (st : nl_state) (n1 : Z) : list Z :=
  map (fun k => at_Z (ilp_neighbor_list st) (k * N + n1))
      (zrange 0 (at_Z (ilp_neighbor_number st) n1)).

(** Well-formed input of the kernels for atom [n1]: the per-atom arrays
    hold [N] entries and the general-neighbor entries of [n1] are atoms. *)
Record wf_atom (n1 : Z) : Prop := {
  wf_n1 : (0 <= n1 < N)%Z;
  wf_NN : Z.of_nat (List.length (g_neighbor_number sys)) = N;
  wf_type : Z.of_nat (List.length (g_type sys)) = N;
  wf_x : Z.of_nat (List.length (g_x sys)) = N;
  wf_y : Z.of_nat (List.length (g_y sys)) = N;
  wf_z : Z.of_nat (List.length (g_z sys)) = N;
  wf_group : Z.of_nat (List.length (group_label sys)) = N;
  wf_NL : forall i1, (0 <= i1 < at_Z (g_neighbor_number sys) n1)%Z ->
      (0 <= n1 + N * i1 < Z.of_nat (List.length (g_neighbor_list sys)))%Z
      /\ (0 <= at_Z (g_neighbor_list sys) (n1 + N * i1) < N)%Z
}.

(** The secondary list as allocated by the constructor. *)
Definition wf_nl (st : nl_state) : Prop :=
  Z.of_nat (List.length (ilp_neighbor_number st)) = N
  /\ Z.of_nat (List.length (ilp_neighbor_list st)) = (N * MAX_ILP_NEIGHBOR)%Z.

(** The entries written by the loop of thread [n1], starting at slot
    [count]. *)
Fixpoint put (n1 count : Z) (kept : list Z) (nl : list Z) : list Z :=
  match kept with
  | [] => nl
  | n2 :: kept' =>
      put n1 (count + 1) kept' (upd nl (Z.to_nat (count * N + n1)) n2)
  end.

(** The state that the thread of [n1] leaves. *)
Definition after_thread (n1 : Z) (st : nl_state) : nl_state :=
  let kept := filter (keptb n1) (general_neighbors n1) in
  {| ilp_neighbor_number :=
       upd (ilp_neighbor_number st) (Z.to_nat n1)
           (Z.of_nat (List.length kept));
     ilp_neighbor_list := put n1 0 kept (ilp_neighbor_list st);
     printed := printed st |}.

End Builder.

End BuilderSpec.

(** ** Sizes and contents of the force arrays *)

Module ForceSpec.
Import Mem Normal ILP.
Open Scope R_scope.

(** The three arrays of a vector quantity after [a[i] = v]. *)
Definition upd3 (a : ix -> list R) (i : Z) (v : arr1) : ix -> list R :=
  fam (upd (a c0) (Z.to_nat i) (v c0)) (upd (a c1) (Z.to_nat i) (v c1))
      (upd (a c2) (Z.to_nat i) (v c2)).

Definition at3 (a : ix -> list R) (i : Z) : arr1 :=
  vec (nth (Z.to_nat i) (a c0) 0) (nth (Z.to_nat i) (a c1) 0)
      (nth (Z.to_nat i) (a c2) 0).

Definition len3 (a : ix -> list R) (n : Z) : Prop :=
  forall c, Z.of_nat (List.length (a c)) = n.

(** A list after [a[i] += v]. *)
Definition add_upd (a : list R) (i : Z) (v : R) : list R :=
  upd a (Z.to_nat i) (nth (Z.to_nat i) a 0 + v).

(** The virial array after "save virial". *)
Definition virial_saved (N : Z) (vir : list R) (n1 : Z) (s_s : arr2)
  : list R :=
  let v := add_upd vir (n1 + 0 * N) (s_s c0 c0) in
  let v := add_upd v (n1 + 1 * N) (s_s c1 c1) in
  let v := add_upd v (n1 + 2 * N) (s_s c2 c2) in
  let v := add_upd v (n1 + 3 * N) (s_s c0 c1) in
  let v := add_upd v (n1 + 4 * N) (s_s c0 c2) in
  let v := add_upd v (n1 + 5 * N) (s_s c1 c2) in
  let v := add_upd v (n1 + 6 * N) (s_s c1 c0) in
  let v := add_upd v (n1 + 7 * N) (s_s c2 c0) in
  add_upd v (n1 + 8 * N) (s_s c2 c1).

(** The sizes that the constructor of [ILP] and the caller give to the
    arrays of a force evaluation; [M] is [max_neighbor_number]. *)
Record wf_force (N M : Z) (fs : force_state) : Prop := {
  wf_g_f : len3 (g_f fs) N;
  wf_g_virial : Z.of_nat (List.length (g_virial fs)) = (9 * N)%Z;
  wf_g_potential : Z.of_nat (List.length (g_potential fs)) = N;
  wf_g_f12 : len3 (g_f12 fs) (N * M);
  wf_g_f12_ilp_neigh : len3 (g_f12_ilp_neigh fs) (N * MAX_ILP_NEIGHBOR)
}.

End ForceSpec.

(** ** Closed forms of the pair energies *)

Module TwoAtomSpec.
Import Mem Normal ILP.
Open Scope R_scope.

(** The closed-form van der Waals energy of a pair at distance [r]. *)
Definition vdW_closed (p : ILP_Para) (ta tb : Z) (r : R) : R :=
  Taper.calc_Tap r (1 / rcut_global p ta tb)
  * (- C_6 p ta tb / r ^ 6)
  / (1 + exp (- d_Seff p ta tb * r + d p ta tb)).

(** The closed-form repulsive energy of an atom whose normal is the
    default (0,0,1), for a neighbor at distance [r] and height [z12]. *)
Definition rep_closed (p : ILP_Para) (ta tb : Z) (r z12 : R) : R :=
  Taper.calc_Tap r (1 / rcut_global p ta tb)
  * exp (- lambda p ta tb * (r - z0 p ta tb))
  * (epsilon p ta tb / 2
     + C p ta tb * exp (- ((r * r - z12 * z12) * delta2inv p ta tb))).

(** The type pair has the same parameters in both orders. *)
Definition sym_para (p : ILP_Para) (ta tb : Z) : Prop :=
  rcut_global p tb ta = rcut_global p ta tb
  /\ C_6 p tb ta = C_6 p ta tb
  /\ d p tb ta = d p ta tb
  /\ d_Seff p tb ta = d_Seff p ta tb
  /\ lambda p tb ta = lambda p ta tb
  /\ z0 p tb ta = z0 p ta tb
  /\ epsilon p tb ta = epsilon p ta tb
  /\ C p tb ta = C p ta tb
  /\ delta2inv p tb ta = delta2inv p ta tb.

(** The normal of an atom without secondary neighbors. *)
Definition default_normal : normal_out := calc_normal zero2 0 zero_out.

Definition dist (x12 y12 z12 : R) : R :=
  sqrt (x12 * x12 + y12 * y12 + z12 * z12).

Section TwoAtoms.
Variable Box : Type.
Variables (b : Box) (p : ILP_Para) (t0 t1 g0 g1 : Z).
Variables (x0 y0 z0 x1 y1 z1 : R) (nl2 nl3 : Z).

(** Two atoms, each the only general neighbor of the other; the general
    neighbor list has [max_neighbor_number = 2] rows. *)
Definition two_atoms : system Box :=
  {| number_of_particles := 2; N1 := 0; N2 := 2; box := b;
     g_neighbor_number := [1; 1]%Z;
     g_neighbor_list := [1; 0; nl2; nl3]%Z;
     g_type := [t0; t1];
     ilp_para := p;
     g_x := [x0; x1]; g_y := [y0; y1]; g_z := [z0; z1];
     group_label := [g0; g1] |}.

Definition empty_nl : nl_state :=
  {| ilp_neighbor_number := [0; 0]%Z;
     ilp_neighbor_list := [0; 0; 0; 0; 0; 0]%Z;
     printed := [] |}.

(** The potential energy that the thread of an atom adds for its only
    neighbor, at the minimum-image vector [(x12, y12, z12)]. *)
Definition atom_energy (ta tb : Z) (x12 y12 z12 : R) : R :=
  let q := calc_pair p ta tb default_normal x12 y12 z12 in
  0 + q_p2_vdW q * 0.5 + q_Tap q * q_Vilp q.

End TwoAtoms.

End TwoAtomSpec.

(** ** Example inputs *)

Module Inputs.
Import Mem Normal ILP Reads BuilderSpec ForceSpec TwoAtomSpec.
Open Scope R_scope.

(** A box without periodic directions: the minimum-image fold is the
    identity. *)
Definition no_mic (_ : unit) (x y z : R) : R * R * R := (x, y, z).

(** Parameters used by the examples (one atom type). *)
Definition para1 (rcut_ilp rcut_glob : R) : ILP_Para :=
  {| rcutsq_ilp := fun _ _ => (rcut_ilp * rcut_ilp)%R;
     d := fun _ _ => 3%R;
     d_Seff := fun _ _ => 1%R;
     C_6 := fun _ _ => 1%R;
     z0 := fun _ _ => 3%R;
     lambda := fun _ _ => 1%R;
     epsilon := fun _ _ => 1%R;
     C := fun _ _ => 1%R;
     delta2inv := fun _ _ => 1%R;
     S_ := fun _ _ => 1%R;
     rcut_global := fun _ _ => rcut_glob |}.

(** Two atoms of one group that are general neighbors of each other, at
    the positions [p0] and [p1] on the x axis. *)
Definition pair_same_group (p0 p1 : R) : system unit :=
  {| number_of_particles := 2; N1 := 0; N2 := 2; box := tt;
     g_neighbor_number := [1; 1]%Z;
     g_neighbor_list := [1; 0; 0; 0]%Z;
     g_type := [0; 0]%Z;
     ilp_para := para1 2 6;
     g_x := [p0; p1]; g_y := [0; 0]%R; g_z := [0; 0]%R;
     group_label := [0; 0]%Z |}.

(** The selection rule as the claim words it: same group, another atom,
    squared distance below the squared cutoff. *)
Definition claimed_spec (sys : system unit) (n1 n2 : Z) : Prop :=
  at_Z (group_label sys) n1 = at_Z (group_label sys) n2
  /\ n2 <> n1
  /\ (d12sq no_mic sys n1 n2 < rcutsq sys n1 n2)%R.

(** A force state with all arrays cleared, for [N] atoms and [M] rows of
    the general neighbor list. *)
Definition zero_fs (N M : nat) : force_state :=
  {| g_f := fun _ => repeat 0 N;
     g_virial := repeat 0 (9 * N);
     g_potential := repeat 0 N;
     g_f12 := fun _ => repeat 0 (N * M);
     g_f12_ilp_neigh := fun _ => repeat 0 (N * 3) |}.

(** An atom of group 0 at the origin and an atom of group 1 at height 3
    above it, in a box without periodic directions; [rcut_global] is 6. *)
Definition stacked : system unit :=
  two_atoms tt (para1 2 6) 0 0 0 1 0 0 0 0 0 3 0 0.

(** Two atoms of one group at distance 3: general neighbors of each other
    ([rcut_global = 6]), not secondary neighbors ([rcut_ilp = 2]). *)
Definition same_layer_pair : system unit := pair_same_group 0 3.

(** A buffer content left over from an earlier evaluation. *)
Definition stale_fs : force_state :=
  {| g_f := fun _ => [0; 0];
     g_virial := repeat 0 18;
     g_potential := [0; 0];
     g_f12 := fun _ => [0; 1; 0; 0];
     g_f12_ilp_neigh := fun _ => repeat 0 6 |}.

(** Atoms 0 and 1 in layer 0 at (-4,0,0) and (4,0,0), atom 2 in layer 1 at
    (0,0,3); [rcut_global = 6], so atom 2 is a general neighbor of both and
    they are not neighbors of each other (distance 8).  The general
    neighbor list has 3 rows; the list of atom 2 is [0; 1], sorted. *)
Definition tri_sys : system unit :=
  {| number_of_particles := 3; N1 := 0; N2 := 3; box := tt;
     g_neighbor_number := [1; 1; 2]%Z;
     g_neighbor_list := [2; 2; 0;  0; 0; 1;  0; 0; 0]%Z;
     g_type := [0; 0; 0]%Z;
     ilp_para := para1 2 6;
     g_x := [-4; 4; 0]; g_y := [0; 0; 0]; g_z := [0; 0; 3];
     group_label := [0; 0; 1]%Z |}.

(** The neighbor list of atom [n2] of [tri_sys], entry [k]. *)
Definition tri_entry (n2 k : Z) : res Z :=
  rd "g_neighbor_list" (g_neighbor_list tri_sys)
     (n2 + number_of_particles tri_sys * k).

Definition tri_nl : nl_state :=
  {| ilp_neighbor_number := [0; 0; 0]%Z;
     ilp_neighbor_list := repeat 0%Z 9;
     printed := [] |}.

(** The pair terms of atom 2 for its neighbors atom 0 and atom 1. *)
Definition q20 : pair_terms :=
  calc_pair (para1 2 6) 0 0 default_normal (-4 - 0) (0 - 0) (0 - 3).
Definition q21 : pair_terms :=
  calc_pair (para1 2 6) 0 0 default_normal (4 - 0) (0 - 0) (0 - 3).

(** Five atoms of one group: atom 0 at the origin and atoms 1 to 4 at
    distance 1 from it along the x and y axes; [rcut_ilp = 2], so atom 0
    has four qualifying neighbors.  Every atom is a general neighbor of
    every other one; the general neighbor list has 5 rows. *)
Definition star_sys : system unit :=
  {| number_of_particles := 5; N1 := 0; N2 := 5; box := tt;
     g_neighbor_number := [4; 4; 4; 4; 4]%Z;
     g_neighbor_list := [1; 0; 0; 0; 0;  2; 2; 1; 1; 1;  3; 3; 3; 2; 2;
                         4; 4; 4; 4; 3;  0; 0; 0; 0; 0]%Z;
     g_type := [0; 0; 0; 0; 0]%Z;
     ilp_para := para1 2 6;
     g_x := [0; 1; 0; -1; 0]; g_y := [0; 0; 1; 0; -1];
     g_z := [0; 0; 0; 0; 0];
     group_label := [0; 0; 0; 0; 0]%Z |}.

(** A secondary list with one row more than the constructor allocates. *)
Definition roomy_nl : nl_state :=
  {| ilp_neighbor_number := repeat 0%Z 5;
     ilp_neighbor_list := repeat 0%Z 20;
     printed := [] |}.

(** The secondary list of [star_sys] with the count 4 that the builder
    stores for atom 0 and the three entries of atom 0 that fit. *)
Definition over_nl : nl_state :=
  {| ilp_neighbor_number := [4; 3; 3; 3; 3]%Z;
     ilp_neighbor_list := [1; 0; 0; 0; 0;  2; 2; 1; 2; 1;  3; 4; 3; 4; 3]%Z;
     printed := [] |}.

End Inputs.

Unset Implicit Arguments.

(** ** Sums *)

Module SumSpec.
Open Scope R_scope.

(** [f 0 + f 1 + .. + f (n - 1)]. *)
Fixpoint sumn (f : nat -> R) (n : nat) : R :=
  match n with
  | O => 0
  | S n' => sumn f n' + f n'
  end.

Definition sum_list (l : list R) : R := fold_right Rplus 0 l.

End SumSpec.

(** ** The heat sampler in words *)

Module HeatSpec.
Import Mem Heat Reads SumSpec.
Open Scope R_scope.

(** [m * v^2] of atom [n]. *)
Definition ke_term (atom : Atom) (n : Z) : R :=
  at_R (mass atom) n
  * (at_R (vx atom) n * at_R (vx atom) n
     + at_R (vy atom) n * at_R (vy atom) n
     + at_R (vz atom) n * at_R (vz atom) n).

(** The atoms of group [g], in the order of [group_contents]. *)
Definition group_atoms (atom : Atom) (g : Z) : list Z :=
  map (fun k => at_Z (group_contents atom) (at_Z (group_size_sum atom) g + k))
      (zrange 0 (at_Z (group_size atom) g)).

(** The temperature of group [g] in words: the sum of [m * v^2] over the
    group, divided by [3 * k_B * group_size]. *)
Definition group_temperature (atom : Atom) (g : Z) : R :=
  sum_list (map (ke_term atom) (group_atoms atom g))
  / (3 * K_B * IZR (at_Z (group_size atom) g)).

(** Well-formed group data for group [g]. *)
Record wf_group (atom : Atom) (g : Z) : Prop := {
  wf_g : (0 <= g < Z.of_nat (List.length (group_size atom)))%Z;
  wf_g_sum : (g < Z.of_nat (List.length (group_size_sum atom)))%Z;
  wf_size : (0 <= at_Z (group_size atom) g)%Z;
  wf_vx : List.length (vx atom) = List.length (mass atom);
  wf_vy : List.length (vy atom) = List.length (mass atom);
  wf_vz : List.length (vz atom) = List.length (mass atom);
  wf_contents : forall k, (0 <= k < at_Z (group_size atom) g)%Z ->
      (0 <= at_Z (group_size_sum atom) g + k
       < Z.of_nat (List.length (group_contents atom)))%Z
      /\ (0 <= at_Z (group_contents atom) (at_Z (group_size_sum atom) g + k)
          < Z.of_nat (List.length (mass atom)))%Z
}.

Definition nth0 (s : list R) (t : nat) : R := nth t s 0.

(** The term of the atom at position [k] of group [bid], 0 beyond the
    group. *)
Definition padded (atom : Atom) (bid : Z) (k : Z) : R :=
  if (k <? at_Z (group_size atom) bid)%Z
  then ke_term atom
         (at_Z (group_contents atom) (at_Z (group_size_sum atom) bid + k))
  else 0.





(** A sampler that is switched on, with the given interval and a buffer of
    the size that [preprocess_heat] allocates. *)
Definition sampling (para : Parameters) (interval : Z) (h : Heat) : Prop :=
  sample h = true /\ sample_interval h = interval
  /\ Z.of_nat (List.length (group_temp h))
     = ((number_of_groups para + 2)
        * (number_of_steps para ÷ interval))%Z.







Definition atom_ex : Atom :=
  {| group_size := [1%Z]; group_size_sum := [0%Z]; group_contents := [0%Z];
     mass := [2]; vx := [1]; vy := [0]; vz := [0] |}.

End HeatSpec.

(** ** Displacements of the atoms around a normal *)

Module JacobianSpec.
Import Normal ILP.
Open Scope R_scope.

(** Scalar product of two 3-vectors. *)
Definition dot (u v : arr1) : R := u c0 * v c0 + u c1 * v c1 + u c2 * v c2.

(** The bonds after neighbor [m] has moved by [s] along the axis [ip]. *)
Definition bump (vet : arr2) (m ip : ix) (s : R) : arr2 :=
  fun k c => if ix_eqb k m && ix_eqb c ip then vet k c + s else vet k c.

(** The bonds after the central atom has moved by [s] along the axis [ip]:
    a bond is the position of the neighbor minus that of the central
    atom. *)
Definition shift (vet : arr2) (ip : ix) (s : R) : arr2 :=
  fun k c => if ix_eqb c ip then vet k c - s else vet k c.

(** The branch of [calc_normal] taken for [cont] bonds does not divide by
    zero: the non-normalized normal has a magnitude other than 0. *)
Definition nondegenerate (vet : arr2) (cont : Z) : Prop :=
  (cont = 2%Z -> magnitude (n1_two vet) <> 0)
  /\ (cont = 3%Z -> magnitude (n1_three vet) <> 0).

(** The bonds (1,0,0) and (0,1,0) of an atom with two neighbors. *)
Definition vet_xy : arr2 := tab 1 0 0 0 1 0 0 0 0.

End JacobianSpec.

(** ** Displacements of a pair *)

Module PairSpec.
Import Normal ILP.
Open Scope R_scope.






End PairSpec.

(** ** Systems without neighbors *)

Module LonelySpec.
Import Mem Normal ILP Reads.
Open Scope R_scope.

(** The three arrays of a vector quantity hold the same values. *)
Definition same3 (a b : ix -> list R) : Prop := forall c, a c = b c.

(** Two atoms without general neighbors; the general neighbor list has one
    row. *)
Definition lonely : system unit :=
  {| number_of_particles := 2; N1 := 0; N2 := 2; box := tt;
     g_neighbor_number := [0; 0]%Z;
     g_neighbor_list := [0; 0]%Z;
     g_type := [0; 0]%Z;
     ilp_para := Inputs.para1 2 6;
     g_x := [0; 1]; g_y := [0; 0]; g_z := [0; 0];
     group_label := [0; 1]%Z |}.

End LonelySpec.

(** ** Translated systems *)

Module TranslateSpec.
Import Mem Normal ILP.
Open Scope R_scope.

(** The system with every atom moved by the vector [t]. *)
Definition translate {Box : Type} (t : arr1) (sys : system Box)
  : system Box :=
  {| number_of_particles := number_of_particles sys;
     N1 := N1 sys; N2 := N2 sys; box := box sys;
     g_neighbor_number := g_neighbor_number sys;
     g_neighbor_list := g_neighbor_list sys;
     g_type := g_type sys;
     ilp_para := ilp_para sys;
     g_x := map (fun x => x + t c0) (g_x sys);
     g_y := map (fun y => y + t c1) (g_y sys);
     g_z := map (fun z => z + t c2) (g_z sys);
     group_label := group_label sys |}.

(** The system with the group labels renamed by [f]. *)
Definition relabel {Box : Type} (f : Z -> Z) (sys : system Box)
  : system Box :=
  {| number_of_particles := number_of_particles sys;
     N1 := N1 sys; N2 := N2 sys; box := box sys;
     g_neighbor_number := g_neighbor_number sys;
     g_neighbor_list := g_neighbor_list sys;
     g_type := g_type sys;
     ilp_para := ilp_para sys;
     g_x := g_x sys; g_y := g_y sys; g_z := g_z sys;
     group_label := map f (group_label sys) |}.

End TranslateSpec.

(** ** The parameter file in words *)

Module ConstructSpec.
Import Mem Normal ILP Construct.
Open Scope R_scope.

Section File.
Variable stream : Type.
Variable fscanf_s : stream -> option (string * stream).
Variable fscanf_lf : stream -> option (R * stream).

(** The file after [k] atom symbols. *)
Fixpoint skip_symbols (k : nat) (fid : stream) : option stream :=
  match k with
  | O => Some fid
  | S k' =>
      match fscanf_s fid with
      | Some (_, fid') => skip_symbols k' fid'
      | None => None
      end
  end.

(** The file after [k] records of twelve numbers. *)
Fixpoint skip_records (k : nat) (fid : stream) : option stream :=
  match k with
  | O => Some fid
  | S k' =>
      match fscanf_12 stream fscanf_lf fid with
      | Some (_, fid') => skip_records k' fid'
      | None => None
      end
  end.

(** Record number [k] of the file, counted from 0. *)
Definition record_at (fid : stream) (k : nat) : option fields :=
  match skip_records k fid with
  | Some fid' => option_map fst (fscanf_12 stream fscanf_lf fid')
  | None => None
  end.

End File.

(** The entry [(n, m)] of the table holds the values of the record [f]. *)
Definition entry_of (para : ILP_Para) (n m : Z) (f : fields) : Prop :=
  C para n m = f_C f * (1e-3 * f_S f)
  /\ C_6 para n m = f_C6 f * (1e-3 * f_S f)
  /\ d para n m = f_d f
  /\ d_Seff para n m = f_d f / f_sR f / f_reff f
  /\ epsilon para n m = f_epsilon f * (1e-3 * f_S f)
  /\ z0 para n m = f_beta f
  /\ lambda para n m = f_alpha f / f_beta f
  /\ delta2inv para n m = 1 / (f_delta f * f_delta f)
  /\ S_ para n m = f_S f
  /\ rcutsq_ilp para n m = f_rcut_ilp f * f_rcut_ilp f
  /\ rcut_global para n m = f_rcut_global f.

(** The tables [p] and [q] hold the same values at [(i, j)]. *)
Definition same_entry (p q : ILP_Para) (i j : Z) : Prop :=
  C p i j = C q i j /\ C_6 p i j = C_6 q i j /\ d p i j = d q i j
  /\ d_Seff p i j = d_Seff q i j /\ epsilon p i j = epsilon q i j
  /\ z0 p i j = z0 q i j /\ lambda p i j = lambda q i j
  /\ delta2inv p i j = delta2inv q i j /\ S_ p i j = S_ q i j
  /\ rcutsq_ilp p i j = rcutsq_ilp q i j
  /\ rcut_global p i j = rcut_global q i j.

(** A parameter file as the list of its numbers: every conversion takes the
    next number; atom symbols are not told apart from numbers and read as
    the symbol "X". *)
Definition scan_symbol (fid : list R) : option (string * list R) :=
  match fid with
  | [] => None
  | _ :: fid' => Some ("X", fid')
  end.

Definition scan_number (fid : list R) : option (R * list R) :=
  match fid with
  | [] => None
  | v :: fid' => Some (v, fid')
  end.

(** A file for one atom type: the symbol and the twelve numbers 1 to 12. *)
Definition file1 : list R := [0; 1; 2; 3; 4; 5; 6; 7; 8; 9; 10; 11; 12].

End ConstructSpec.

(** ** A run whose length is no multiple of the interval *)

Module HeatRunSpec.
Import Mem Heat Reads HeatSpec.
Open Scope R_scope.


(** Three steps sampled at every second one, with one group. *)
Definition para_odd : Parameters :=
  {| number_of_groups := 1; number_of_steps := 3 |}.

Definition heat_odd : Heat :=
  {| sample := true; sample_interval := 2; group_temp := [] |}.

End HeatRunSpec.

(** * Theorems *)

Set Implicit Arguments.

(** ** Theorems: taper function *)

Module TaperFacts.
Import Taper.
Open Scope R_scope.



End TaperFacts.

(** ** Theorems: normal-vector calculator *)

Module NormalFacts.
Import Normal NormalSpec.
Open Scope R_scope.


Lemma magnitude_ext (a b : arr1) :
  (forall id, a id * a id = b id * b id) -> magnitude a = magnitude b.
Proof.
  intros H. unfold magnitude. now rewrite !H.
Qed.

Lemma norm2_nonneg (v : arr1) : 0 <= norm2 v.
Proof. unfold norm2. nra. Qed.

Lemma magnitude_sqr (v : arr1) : magnitude v * magnitude v = norm2 v.
Proof. unfold magnitude. apply sqrt_sqrt. apply (norm2_nonneg v). Qed.

(** Dividing a vector by its non-zero magnitude gives a unit vector. *)
Lemma unit_of_norm2 (n1 : arr1) :
  magnitude n1 <> 0 -> norm2 (unit_of n1) = 1.
Proof.
  intros Hnz. pose proof (magnitude_sqr n1) as Hs.
  unfold unit_of, norm2 in *. simpl.
  set (nn := magnitude n1) in *.
  transitivity ((n1 c0 * n1 c0 + n1 c1 * n1 c1 + n1 c2 * n1 c2) / (nn * nn)).
  - field. exact Hnz.
  - rewrite <- Hs. field. exact Hnz.
Qed.

(** C8: with 0 or 1 bond vectors [calc_normal] returns exactly (0,0,1) and
    all-zero derivative tensors [dnormdri] and [dnormal]; with 2 or 3 bond
    vectors whose (averaged) cross product has non-zero magnitude [nn], it
    returns a vector of Euclidean norm 1.  Arithmetic is exact real
    arithmetic. *)
Theorem calc_normal_default_and_unit (vet : arr2) (out : normal_out) :
  (forall cont : Z, (cont = 0 \/ cont = 1)%Z ->
     let o := calc_normal vet cont out in
     (normal o c0 = 0 /\ normal o c1 = 0 /\ normal o c2 = 1)
     /\ (forall id ip, dnormdri o id ip = 0)
     /\ (forall id ip m, dnormal o id ip m = 0))
  /\ (magnitude (n1_two vet) <> 0 ->
      norm2 (normal (calc_normal vet 2 out)) = 1)
  /\ (magnitude (n1_three vet) <> 0 ->
      norm2 (normal (calc_normal vet 3 out)) = 1).
Proof.
  split; [| split].
  - intros cont [-> | ->]; simpl; auto.
  - intros Hnz. simpl. apply unit_of_norm2. exact Hnz.
  - intros Hnz. simpl. apply unit_of_norm2. exact Hnz.
Qed.

Lemma n1_two_tri : forall id, n1_two vet_tri id = vec 0 0 1 id.
Proof. intros []; unfold n1_two, pv12, vet_tri; simpl; ring. Qed.

Lemma n1_three_tri : forall id, n1_three vet_tri id = vec 0 0 1 id.
Proof. intros []; unfold n1_three, pv12, pv31, pv23, vet_tri; simpl; field. Qed.

Lemma magnitude_001 (a : arr1) :
  (forall id, a id = vec 0 0 1 id) -> magnitude a = 1.
Proof.
  intros H. unfold magnitude. rewrite !H. simpl.
  replace (0 * 0 + 0 * 0 + 1 * 1) with 1 by ring. apply sqrt_1.
Qed.

Lemma calc_normal_default_and_unit_witness :
  norm2 (normal (calc_normal vet_tri 2 zero_out)) = 1
  /\ norm2 (normal (calc_normal vet_tri 3 zero_out)) = 1
  /\ normal (calc_normal vet_tri 1 zero_out) c2 = 1.
Proof.
  pose proof (calc_normal_default_and_unit vet_tri zero_out) as [H1 [H2 H3]].
  split; [| split].
  - apply H2. rewrite (magnitude_001 _ n1_two_tri). lra.
  - apply H3. rewrite (magnitude_001 _ n1_three_tri). lra.
  - apply (H1 1%Z). right. reflexivity.
Defined.



Lemma unit_of_ext (a b : arr1) :
  (forall id, a id = b id) -> forall id, unit_of a id = unit_of b id.
Proof.
  intros H id. unfold unit_of.
  rewrite (magnitude_ext a b) by (intro; now rewrite H).
  destruct id; simpl; now rewrite H.
Qed.






End NormalFacts.

(** ** Lemmas: device memory *)

Module MemFacts.
Import Mem.

Lemma bind_ok {A B} (m : res A) (k : A -> res B) (b : B) :
  bind m k = Ok b -> exists a, m = Ok a /\ k a = Ok b.
Proof. destruct m as [a | f]; simpl; [eauto | discriminate]. Qed.

Lemma rd_ok {A} name (a : list A) (i : Z) (dflt : A) :
  (0 <= i < Z.of_nat (List.length a))%Z ->
  rd name a i = Ok (nth (Z.to_nat i) a dflt).
Proof.
  intros H. unfold rd.
  destruct (Z.ltb_spec i 0) as [Hn | _]; [lia |].
  destruct (nth_error a (Z.to_nat i)) as [v |] eqn:E.
  - now rewrite (nth_error_nth _ _ dflt E).
  - apply nth_error_None in E. lia.
Qed.

Lemma rd_inv {A} name (a : list A) (i : Z) (v : A) :
  rd name a i = Ok v ->
  (0 <= i < Z.of_nat (List.length a))%Z /\ nth_error a (Z.to_nat i) = Some v.
Proof.
  unfold rd. destruct (Z.ltb_spec i 0) as [Hn | Hp]; [discriminate |].
  destruct (nth_error a (Z.to_nat i)) as [w |] eqn:E; [| discriminate].
  intros [= ->]. split; [| reflexivity].
  assert (Z.to_nat i < List.length a)%nat
    by (apply nth_error_Some; congruence).
  lia.
Qed.

Lemma wr_ok {A} name (a : list A) (i : Z) (v : A) :
  (0 <= i < Z.of_nat (List.length a))%Z ->
  wr name a i v = Ok (upd a (Z.to_nat i) v).
Proof.
  intros H. unfold wr.
  destruct (Z.leb_spec 0 i); [| lia].
  destruct (Z.ltb_spec i (Z.of_nat (List.length a))); [reflexivity | lia].
Qed.

Lemma wr_oob {A} name (a : list A) (i : Z) (v : A) :
  (Z.of_nat (List.length a) <= i)%Z ->
  wr name a i v = Fault (OobWrite name i).
Proof.
  intros H. unfold wr.
  destruct (Z.ltb_spec i (Z.of_nat (List.length a))); [lia |].
  now rewrite andb_false_r.
Qed.

Lemma length_upd {A} (l : list A) n v : List.length (upd l n v) = List.length l.
Proof.
  revert n; induction l as [| a l IH]; intros [| n]; simpl; auto.
Qed.

Lemma nth_upd_same {A} (l : list A) n v dflt :
  (n < List.length l)%nat -> nth n (upd l n v) dflt = v.
Proof.
  revert n; induction l as [| a l IH]; intros [| n] H; simpl in *;
    try lia; auto. apply IH. lia.
Qed.

Lemma nth_upd_other {A} (l : list A) n m v dflt :
  n <> m -> nth m (upd l n v) dflt = nth m l dflt.
Proof.
  revert n m; induction l as [| a l IH]; intros [| n] [| m] H; simpl;
    auto; try congruence.
Qed.

Lemma zrange_nil lo hi : (hi <= lo)%Z -> zrange lo hi = [].
Proof.
  intros H. unfold zrange. replace (Z.to_nat (hi - lo)) with 0%nat by lia.
  reflexivity.
Qed.

Lemma zrange_cons lo hi :
  (lo < hi)%Z -> zrange lo hi = lo :: zrange (lo + 1) hi.
Proof.
  intros H. unfold zrange.
  replace (Z.to_nat (hi - lo)) with (S (Z.to_nat (hi - (lo + 1)))) by lia.
  simpl. f_equal; [lia |].
  rewrite <- seq_shift, map_map. apply map_ext. intros k. lia.
Qed.

Lemma zrange_length lo hi : List.length (zrange lo hi) = Z.to_nat (hi - lo).
Proof. unfold zrange. now rewrite length_map, length_seq. Qed.

Lemma zrange_in lo hi i : In i (zrange lo hi) <-> (lo <= i < hi)%Z.
Proof.
  unfold zrange. rewrite in_map_iff. split.
  - intros [k [<- Hk]]. apply in_seq in Hk. lia.
  - intros H. exists (Z.to_nat (i - lo)). split; [lia |].
    apply in_seq. lia.
Qed.

Lemma for_each_app {S} (l1 l2 : list Z) (body : Z -> S -> res S) (s : S) :
  for_each (l1 ++ l2) body s
  = bind (for_each l1 body s) (for_each l2 body).
Proof.
  revert s; induction l1 as [| i l1 IH]; intros s; simpl; [reflexivity |].
  destruct (body i s) as [s' | f]; simpl; [apply IH | reflexivity].
Qed.

Lemma Rltb_true a b : (a < b)%R -> Rltb a b = true.
Proof. intros H. unfold Rltb. destruct (Rlt_dec a b); [reflexivity | tauto]. Qed.

Lemma Rltb_false a b : (b <= a)%R -> Rltb a b = false.
Proof. intros H. unfold Rltb. destruct (Rlt_dec a b); [lra | reflexivity]. Qed.

Lemma Rgeb_true a b : (b <= a)%R -> Rgeb a b = true.
Proof. intros H. unfold Rgeb. destruct (Rge_dec a b); [reflexivity | lra]. Qed.

Lemma Rgeb_false a b : (a < b)%R -> Rgeb a b = false.
Proof. intros H. unfold Rgeb. destruct (Rge_dec a b); [lra | reflexivity]. Qed.

Lemma Rneb_true a b : a <> b -> Rneb a b = true.
Proof. intros H. unfold Rneb. destruct (Req_dec_T a b); [tauto | reflexivity]. Qed.

Lemma Rneb_false a b : a = b -> Rneb a b = false.
Proof. intros H. unfold Rneb. destruct (Req_dec_T a b); [reflexivity | tauto]. Qed.

End MemFacts.

(** ** Theorems: the secondary neighbor list builder *)

Module BuilderFacts.
Import Mem MemFacts Normal ILP Reads BuilderSpec.

Section Builder.
Variable Box : Type.
Variable apply_mic : Box -> R -> R -> R -> R * R * R.
Variable sys : system Box.

Local Notation N := (number_of_particles sys).
Local Notation d12sq := (BuilderSpec.d12sq apply_mic sys).
Local Notation rcutsq := (BuilderSpec.rcutsq sys).
Local Notation kept_spec := (BuilderSpec.kept_spec apply_mic sys).
Local Notation keptb := (BuilderSpec.keptb apply_mic sys).
Local Notation general_neighbors := (BuilderSpec.general_neighbors sys).
Local Notation secondary_neighbors := (BuilderSpec.secondary_neighbors sys).
Local Notation wf_atom := (BuilderSpec.wf_atom sys).
Local Notation wf_nl := (BuilderSpec.wf_nl sys).
Local Notation put := (BuilderSpec.put sys).
Local Notation after_thread := (BuilderSpec.after_thread apply_mic sys).

Lemma keptb_spec n1 n2 : keptb n1 n2 = true <-> kept_spec n1 n2.
Proof.
  unfold BuilderSpec.keptb, BuilderSpec.kept_spec, Rltb, Rneb.
  destruct (Z.eqb_spec (at_Z (group_label sys) n1)
                       (at_Z (group_label sys) n2));
    destruct (Rlt_dec (d12sq n1 n2) (rcutsq n1 n2));
    destruct (Req_dec_T (d12sq n1 n2) 0); simpl; intuition congruence.
Qed.

Lemma put_length n1 count kept nl :
  List.length (put n1 count kept nl) = List.length nl.
Proof.
  revert count nl; induction kept as [| n2 kept IH]; intros; simpl;
    [reflexivity |]. now rewrite IH, length_upd.
Qed.

Lemma put_other n1 count kept nl idx :
  (0 <= n1 < N)%Z -> (0 <= count)%Z ->
  (forall j, (0 <= j < Z.of_nat (List.length kept))%Z ->
             idx <> Z.to_nat ((count + j) * N + n1)) ->
  nth idx (put n1 count kept nl) 0%Z = nth idx nl 0%Z.
Proof.
  intros Hn1. revert count nl.
  induction kept as [| n2 kept IH]; intros count nl Hc Hidx; simpl;
    [reflexivity |].
  rewrite IH.
  - apply nth_upd_other. specialize (Hidx 0%Z). simpl in Hidx.
    replace (count + 0)%Z with count in Hidx by lia.
    intros E. apply Hidx; [lia | congruence].
  - lia.
  - intros j Hj. replace (count + 1 + j)%Z with (count + (j + 1))%Z by lia.
    apply Hidx. simpl. lia.
Qed.

Lemma put_nth n1 count kept nl j :
  (0 <= n1 < N)%Z -> (0 <= count)%Z ->
  ((count + Z.of_nat (List.length kept)) * N
   <= Z.of_nat (List.length nl))%Z ->
  (j < List.length kept)%nat ->
  nth (Z.to_nat ((count + Z.of_nat j) * N + n1)) (put n1 count kept nl) 0%Z
  = nth j kept 0%Z.
Proof.
  intros Hn1. revert count nl j.
  induction kept as [| n2 kept IH]; intros count nl j Hc Hlen Hj;
    simpl in *; [lia |].
  destruct j as [| j].
  - rewrite put_other; try lia.
    + replace (count + Z.of_nat 0)%Z with count by lia.
      apply nth_upd_same. nia.
    + intros k Hk. nia.
  - replace (count + Z.of_nat (S j))%Z with (count + 1 + Z.of_nat j)%Z
      by lia.
    apply IH; try lia. rewrite length_upd. nia.
Qed.

Lemma map_nth_zrange (l : list Z) (f : Z -> Z) :
  (forall j, (j < List.length l)%nat -> f (Z.of_nat j) = nth j l 0%Z) ->
  map f (zrange 0 (Z.of_nat (List.length l))) = l.
Proof.
  intros H. unfold zrange. rewrite map_map.
  replace (Z.to_nat (Z.of_nat (List.length l) - 0)) with (List.length l) by lia.
  set (g := fun k : nat => f (0 + Z.of_nat k)%Z).
  apply nth_ext with (d := g 0%nat) (d' := 0%Z).
  - now rewrite length_map, length_seq.
  - intros n Hn. rewrite length_map, length_seq in Hn.
    rewrite map_nth, seq_nth by exact Hn. unfold g. simpl.
    rewrite <- H by exact Hn. f_equal.
Qed.

Section Thread.
Variable n1 : Z.
Hypothesis Hwf : wf_atom n1.

Let type1 := at_Z (g_type sys) n1.
Let x1 := at_R (g_x sys) n1.
Let y1 := at_R (g_y sys) n1.
Let z1 := at_R (g_z sys) n1.

Lemma bond_ok n2 :
  (0 <= n2 < N)%Z ->
  bond apply_mic sys x1 y1 z1 n2
  = Ok (apply_mic (box sys) (at_R (g_x sys) n2 - x1)
                  (at_R (g_y sys) n2 - y1) (at_R (g_z sys) n2 - z1))%R.
Proof.
  intros H. destruct Hwf. unfold bond.
  rewrite (rd_ok _ _ 0%R) by lia. simpl.
  rewrite (rd_ok _ _ 0%R) by lia. simpl.
  rewrite (rd_ok _ _ 0%R) by lia. reflexivity.
Qed.

(** One iteration of the loop, in closed form. *)
Lemma ILP_neighbor_step_eq i1 count nl :
  (0 <= i1 < at_Z (g_neighbor_number sys) n1)%Z ->
  ILP_neighbor_step apply_mic sys n1 type1 x1 y1 z1 i1 (count, nl)
  = let n2 := at_Z (g_neighbor_list sys) (n1 + N * i1) in
    if keptb n1 n2
    then bind (wr "ilp_neighbor_list" nl (count * N + n1) n2)
              (fun nl' => Ok ((count + 1)%Z, nl'))
    else Ok (count, nl).
Proof.
  intros Hi. destruct (wf_NL Hwf Hi) as [Hidx Hn2]. pose proof Hwf as [].
  unfold ILP_neighbor_step.
  rewrite (rd_ok _ _ 0%Z) by lia. simpl.
  fold (at_Z (g_neighbor_list sys) (n1 + N * i1)).
  rewrite (rd_ok _ _ 0%Z) by lia. simpl.
  rewrite bond_ok by exact Hn2. simpl.
  unfold BuilderSpec.keptb, BuilderSpec.d12sq, BuilderSpec.rcutsq, at_R,
    x1, y1, z1, type1.
  destruct (apply_mic _ _ _ _) as [[x12 y12] z12]. simpl.
  rewrite (rd_ok _ _ 0%Z) by lia. simpl.
  rewrite (rd_ok _ _ 0%Z) by lia. simpl.
  reflexivity.
Qed.

(** The loop over a run of indices, in closed form. *)
Lemma ILP_neighbor_loop (idxs : list Z) count nl :
  (forall i1, In i1 idxs -> (0 <= i1 < at_Z (g_neighbor_number sys) n1)%Z) ->
  let kept := filter (keptb n1)
                (map (fun i1 => at_Z (g_neighbor_list sys) (n1 + N * i1))
                     idxs) in
  (0 <= count)%Z ->
  ((count + Z.of_nat (List.length kept)) * N
   <= Z.of_nat (List.length nl))%Z ->
  for_each idxs (ILP_neighbor_step apply_mic sys n1 type1 x1 y1 z1)
           (count, nl)
  = Ok ((count + Z.of_nat (List.length kept))%Z, put n1 count kept nl).
Proof.
  revert count nl. induction idxs as [| i1 idxs IH]; intros count nl Hin.
  - simpl. intros _ _. f_equal. f_equal. lia.
  - cbv zeta. cbn [for_each map filter]. intros Hc Hlen.
    rewrite ILP_neighbor_step_eq by (apply Hin; now left). cbv zeta.
    destruct (keptb n1 (at_Z (g_neighbor_list sys) (n1 + N * i1))) eqn:E;
      cbn [List.length put bind] in *.
    + pose proof (wf_n1 Hwf).
      rewrite wr_ok by nia. cbn [bind].
      rewrite IH.
      * f_equal. f_equal. lia.
      * intros; apply Hin; now right.
      * lia.
      * rewrite length_upd. lia.
    + apply IH; auto. intros; apply Hin; now right.
Qed.

End Thread.

Lemma ILP_neighbor_thread_closed (n1 : Z) (st : nl_state) :
  wf_atom n1 -> wf_nl st ->
  (Z.of_nat (List.length (filter (keptb n1) (general_neighbors n1)))
   <= MAX_ILP_NEIGHBOR)%Z ->
  ILP_neighbor_thread apply_mic sys n1 st = Ok (after_thread n1 st).
Proof.
  intros Hwf [HlenNN HlenNL] Hcap.
  pose proof Hwf as []. unfold BuilderSpec.after_thread.
  set (kept := filter (keptb n1) (general_neighbors n1)) in *.
  assert (Hloop := @ILP_neighbor_loop n1 Hwf
            (zrange 0 (at_Z (g_neighbor_number sys) n1)) 0
            (ilp_neighbor_list st)).
  cbv zeta in Hloop. fold (general_neighbors n1) in Hloop. fold kept in Hloop.
  unfold MAX_ILP_NEIGHBOR in *.
  specialize (Hloop (fun i H => proj1 (zrange_in _ _ _) H) ltac:(lia)
                    ltac:(nia)).
  unfold ILP_neighbor_thread.
  rewrite (rd_ok _ _ 0%Z) by lia. simpl.
  rewrite (rd_ok _ _ 0%Z) by lia. simpl.
  rewrite (rd_ok _ _ 0%R) by lia. simpl.
  rewrite (rd_ok _ _ 0%R) by lia. simpl.
  rewrite (rd_ok _ _ 0%R) by lia. simpl.
  unfold at_Z, at_R in Hloop. unfold at_Z. rewrite Hloop. simpl.
  rewrite wr_ok by lia. simpl.
  unfold MAX_ILP_NEIGHBOR.
  destruct (Z.gtb_spec (Z.of_nat (List.length kept)) 3) as [Hgt | _];
    [lia | reflexivity].
Qed.

Lemma secondary_after_thread (n1 : Z) (st : nl_state) :
  wf_atom n1 -> wf_nl st ->
  (Z.of_nat (List.length (filter (keptb n1) (general_neighbors n1)))
   <= MAX_ILP_NEIGHBOR)%Z ->
  secondary_neighbors (after_thread n1 st) n1
  = filter (keptb n1) (general_neighbors n1).
Proof.
  intros Hwf [HlenNN HlenNL] Hcap. pose proof Hwf as [].
  unfold MAX_ILP_NEIGHBOR in *.
  unfold BuilderSpec.secondary_neighbors, BuilderSpec.after_thread, at_Z.
  simpl.
  rewrite nth_upd_same by lia.
  apply map_nth_zrange. intros j Hj.
  replace (Z.of_nat j * N + n1)%Z with ((0 + Z.of_nat j) * N + n1)%Z
    by lia.
  apply put_nth; try lia. nia.
Qed.

(** C7 (as amended): provided no more than [MAX_ILP_NEIGHBOR] entries
    qualify, the builder thread of atom [n1] finishes, and the secondary
    list it leaves for [n1] consists, in order, of exactly those
    general-neighbor entries [n2] of [n1] for which group(n1) = group(n2),
    the squared minimum-image distance is strictly below
    rcutsq_ilp[type(n1)][type(n2)], and that squared distance is not zero.
    The atom itself is excluded through the last condition, which also
    drops a distinct atom at a coinciding position. *)
Theorem ILP_neighbor_keeps (n1 : Z) (st : nl_state) :
  wf_atom n1 -> wf_nl st ->
  (Z.of_nat (List.length (filter (keptb n1) (general_neighbors n1)))
   <= MAX_ILP_NEIGHBOR)%Z ->
  exists st',
    ILP_neighbor_thread apply_mic sys n1 st = Ok st'
    /\ secondary_neighbors st' n1 = filter (keptb n1) (general_neighbors n1)
    /\ (forall n2, In n2 (secondary_neighbors st' n1)
                   <-> In n2 (general_neighbors n1) /\ kept_spec n1 n2)
    /\ printed st' = printed st.
Proof.
  intros Hwf Hnl Hcap. exists (after_thread n1 st).
  split; [now apply ILP_neighbor_thread_closed |].
  pose proof (secondary_after_thread Hwf Hnl Hcap) as Hsec.
  split; [exact Hsec |]. split; [| reflexivity].
  intros n2. rewrite Hsec, filter_In, keptb_spec. reflexivity.
Qed.

End Builder.

End BuilderFacts.

(** ** Examples: the secondary neighbor list builder *)

Module BuilderExamples.
Import Mem MemFacts Normal ILP Reads BuilderSpec Inputs BuilderFacts.

Lemma pair_wf p0 p1 n1 :
  (n1 = 0 \/ n1 = 1)%Z -> wf_atom (pair_same_group p0 p1) n1.
Proof.
  intros Hn. constructor; try reflexivity; simpl; [lia |].
  intros i1 Hi. destruct Hn as [-> | ->]; unfold at_Z in *; simpl in *;
    assert (i1 = 0%Z) as -> by lia; simpl; lia.
Qed.

Lemma pair_fresh_wf p0 p1 :
  wf_nl (pair_same_group p0 p1) (fresh_nl (pair_same_group p0 p1)).
Proof. split; reflexivity. Qed.

Lemma pair_cap p0 p1 n1 :
  (n1 = 0 \/ n1 = 1)%Z ->
  (Z.of_nat (List.length (filter (keptb no_mic (pair_same_group p0 p1) n1)
                            (general_neighbors (pair_same_group p0 p1) n1)))
   <= MAX_ILP_NEIGHBOR)%Z.
Proof.
  intros [-> | ->]; unfold general_neighbors, MAX_ILP_NEIGHBOR; simpl;
    match goal with |- context [if ?b then _ else _] => destruct b end;
    simpl; lia.
Qed.

Lemma ILP_neighbor_keeps_witness :
  exists st',
    ILP_neighbor_thread no_mic (pair_same_group 0 1) 0
                        (fresh_nl (pair_same_group 0 1)) = Ok st'
    /\ secondary_neighbors (pair_same_group 0 1) st' 0
       = filter (keptb no_mic (pair_same_group 0 1) 0)
                (general_neighbors (pair_same_group 0 1) 0).
Proof.
  destruct (@ILP_neighbor_keeps unit no_mic (pair_same_group 0 1) 0
              (fresh_nl (pair_same_group 0 1))
              (pair_wf 0 1 (or_introl eq_refl))
              (pair_fresh_wf 0 1)
              (pair_cap 0 1 (or_introl eq_refl)))
    as [st' [H1 [H2 _]]].
  exists st'. split; [exact H1 | exact H2].
Defined.

(** C7 (counterexample to the claim as stated): two distinct atoms of one
    group at the same position, each in the general neighbor list of the
    other.  Entry 1 of atom 0 satisfies the three stated conditions, and
    the builder does not keep it. *)
Lemma coinciding_atoms_dropped :
  In 1%Z (general_neighbors (pair_same_group 0 0) 0)
  /\ claimed_spec (pair_same_group 0 0) 0 1
  /\ exists st',
       ILP_neighbor_thread no_mic (pair_same_group 0 0) 0
         (fresh_nl (pair_same_group 0 0)) = Ok st'
       /\ secondary_neighbors (pair_same_group 0 0) st' 0 = []
       /\ ~ In 1%Z (secondary_neighbors (pair_same_group 0 0) st' 0).
Proof.
  assert (Hk : keptb no_mic (pair_same_group 0 0) 0 1 = false).
  { destruct (keptb no_mic (pair_same_group 0 0) 0 1) eqn:E;
      [| reflexivity].
    apply keptb_spec in E. destruct E as [_ [_ Hnz]]. exfalso. apply Hnz.
    unfold d12sq, no_mic, at_R. simpl. ring. }
  split; [left; reflexivity |]. split.
  - unfold claimed_spec. split; [reflexivity |]. split; [lia |].
    unfold d12sq, rcutsq, no_mic, at_R, at_Z. simpl. lra.
  - exists (after_thread no_mic (pair_same_group 0 0) 0
                         (fresh_nl (pair_same_group 0 0))).
    split.
    + apply ILP_neighbor_thread_closed.
      * apply pair_wf. now left.
      * apply pair_fresh_wf.
      * apply pair_cap. now left.
    + rewrite secondary_after_thread.
      * change (general_neighbors (pair_same_group 0 0) 0) with [1%Z].
        cbn [filter]. rewrite Hk. split; [reflexivity | intros []].
      * apply pair_wf. now left.
      * apply pair_fresh_wf.
      * apply pair_cap. now left.
Qed.

End BuilderExamples.
(** ** Lemmas: stores of the force kernel and of the reduction pass *)

Module ForceFacts.
Import Mem MemFacts Normal ILP ForceSpec.
Open Scope R_scope.

Lemma wr3_ok name a i v n :
  len3 a n -> (0 <= i < n)%Z -> wr3 name a i v = Ok (upd3 a i v).
Proof.
  intros H Hi. unfold wr3.
  rewrite !wr_ok by (rewrite H; lia). reflexivity.
Qed.

Lemma rd3_ok name a i n :
  len3 a n -> (0 <= i < n)%Z -> rd3 name a i = Ok (at3 a i).
Proof.
  intros H Hi. unfold rd3.
  rewrite !(rd_ok _ _ 0) by (rewrite H; lia). reflexivity.
Qed.

Lemma len3_upd3 a i v n : len3 a n -> len3 (upd3 a i v) n.
Proof. intros H []; simpl; rewrite length_upd; apply H. Qed.

Lemma add_at_ok name a i v :
  (0 <= i < Z.of_nat (List.length a))%Z ->
  add_at name a i v = Ok (add_upd a i v).
Proof.
  intros H. unfold add_at. rewrite (rd_ok _ _ 0) by lia. simpl.
  now apply wr_ok.
Qed.

Lemma length_add_upd a i v : List.length (add_upd a i v) = List.length a.
Proof. apply length_upd. Qed.

Lemma add3_ok name a i v n :
  len3 a n -> (0 <= i < n)%Z ->
  add3 name a i v = Ok (upd3 a i (fun c => at3 a i c + v c)).
Proof.
  intros H Hi. unfold add3.
  rewrite !add_at_ok by (rewrite H; lia). reflexivity.
Qed.

Lemma length_virial_saved N vir n1 s_s :
  List.length (virial_saved N vir n1 s_s) = List.length vir.
Proof. unfold virial_saved. cbv zeta. now rewrite !length_add_upd. Qed.

Lemma save_virial_ok Box (sys : system Box) vir n1 s_s :
  (0 <= n1 < number_of_particles sys)%Z ->
  Z.of_nat (List.length vir) = (9 * number_of_particles sys)%Z ->
  save_virial sys vir n1 s_s
  = Ok (virial_saved (number_of_particles sys) vir n1 s_s).
Proof.
  intros Hn Hlen. unfold save_virial, virial_saved. cbv zeta.
  repeat (rewrite add_at_ok by (rewrite ?length_add_upd; lia);
          cbn [bind]).
  reflexivity.
Qed.

Lemma at3_upd3_same a i v n c :
  len3 a n -> (0 <= i < n)%Z -> at3 (upd3 a i v) i c = v c.
Proof.
  intros H Hi. unfold at3, upd3.
  destruct c; simpl; apply nth_upd_same; specialize (H c0) as H0;
    specialize (H c1) as H1; specialize (H c2) as H2; lia.
Qed.

Lemma at3_upd3_other a i j v c :
  (0 <= i)%Z -> (0 <= j)%Z -> i <> j -> at3 (upd3 a i v) j c = at3 a j c.
Proof.
  intros Hi Hj Hne. unfold at3, upd3.
  destruct c; simpl; apply nth_upd_other; lia.
Qed.

(** Replace [number_of_particles sys] by its value for a given [sys]. *)
Ltac norm_N :=
  repeat match goal with
         | |- context [number_of_particles ?s] =>
             let n := eval cbv in (number_of_particles s) in
             progress change (number_of_particles s) with n
         end.

(** Resolve the next store or load of a kernel whose index is in range. *)
Ltac store :=
  first
    [ erewrite wr3_ok by (solve [repeat apply len3_upd3; eassumption | lia])
    | erewrite add3_ok by (solve [repeat apply len3_upd3; eassumption | lia])
    | erewrite rd3_ok by (solve [repeat apply len3_upd3; eassumption | lia])
    | rewrite save_virial_ok
        by (norm_N; rewrite ?length_virial_saved; lia)
    | rewrite add_at_ok by (rewrite ?length_add_upd; lia) ];
  cbn [bind s_f s_pe s_s fk_temp f12_buf
       g_f g_virial g_potential g_f12 g_f12_ilp_neigh].

End ForceFacts.

(** ** Theorems: the energy of two atoms in different groups *)

Module TwoAtomFacts.
Import Mem MemFacts Normal ILP ForceSpec TwoAtomSpec ForceFacts.
Open Scope R_scope.

Lemma half_eq : 0.5 = 1 / 2.
Proof. lra. Qed.

(** The energy terms of [calc_pair] for the default normal, in closed
    form. *)
Lemma calc_pair_energy p ta tb x12 y12 z12 :
  0 < dist x12 y12 z12 ->
  let q := calc_pair p ta tb default_normal x12 y12 z12 in
  q_p2_vdW q = vdW_closed p ta tb (dist x12 y12 z12)
  /\ q_Tap q * q_Vilp q = rep_closed p ta tb (dist x12 y12 z12) z12.
Proof.
  intros Hr. unfold dist in *.
  assert (Hsq : 0 <= x12 * x12 + y12 * y12 + z12 * z12) by nra.
  pose proof (sqrt_sqrt _ Hsq) as Hrr.
  unfold calc_pair, calc_vdW, vdW_closed, rep_closed, default_normal.
  cbn -[exp sqrt Taper.calc_Tap Taper.calc_dTap pow].
  set (rsq := x12 * x12 + y12 * y12 + z12 * z12) in *.
  set (r := sqrt rsq) in *. clearbody r. clearbody rsq. subst rsq.
  split.
  - pose proof (exp_pos (- d_Seff p ta tb * r + d p ta tb)).
    field. split; lra.
  - replace (r * r - (0 * - x12 + 0 * - y12 + 1 * - z12)
                     * (0 * - x12 + 0 * - y12 + 1 * - z12))
      with (r * r - z12 * z12) by ring.
    rewrite half_eq. field.
Qed.

Section TwoAtoms.
Variable Box : Type.
Variable apply_mic : Box -> R -> R -> R -> R * R * R.
Variables (b : Box) (p : ILP_Para) (t0 t1 g0 g1 : Z).
Variables (x0 y0 z0 x1 y1 z1 : R) (nl2 nl3 : Z).

Local Notation two_atoms :=
  (TwoAtomSpec.two_atoms b p t0 t1 g0 g1 x0 y0 z0 x1 y1 z1 nl2 nl3).
Local Notation atom_energy := (TwoAtomSpec.atom_energy p).

Hypothesis Hg : g0 <> g1.

Lemma two_atoms_nl :
  ILP_neighbor apply_mic two_atoms (fresh_nl two_atoms) = Ok empty_nl.
Proof.
  unfold ILP_neighbor, ILP_neighbor_thread, ILP_neighbor_step, bond. simpl.
  destruct (apply_mic _ _ _ _) as [[? ?] ?].
  destruct (apply_mic _ _ _ _) as [[? ?] ?]. simpl.
  rewrite (proj2 (Z.eqb_neq g0 g1) Hg). simpl.
  rewrite (proj2 (Z.eqb_neq g1 g0)) by congruence. reflexivity.
Qed.

Local Opaque calc_pair wr3 rd3 add3 add_at save_virial.

Lemma two_atoms_offset_0 : find_offset two_atoms 1 0 0 1 0 = Ok 0%Z.
Proof. reflexivity. Qed.

Lemma two_atoms_offset_1 : find_offset two_atoms 0 1 0 1 0 = Ok 0%Z.
Proof. reflexivity. Qed.

(** One force evaluation of the two atoms, as far as the potential array
    is concerned. *)
Lemma two_atoms_compute fs (x01 y01 z01 x10 y10 z10 : R) :
  wf_force 2 2 fs ->
  apply_mic b (x1 - x0) (y1 - y0) (z1 - z0) = (x01, y01, z01) ->
  apply_mic b (x0 - x1) (y0 - y1) (z0 - z1) = (x10, y10, z10) ->
  dist x01 y01 z01 < rcut_global p t0 t1 ->
  dist x10 y10 z10 < rcut_global p t1 t0 ->
  exists fs',
    compute apply_mic two_atoms fs = Ok (empty_nl, fs')
    /\ g_potential fs'
       = add_upd (add_upd (g_potential fs) 0 (atom_energy t0 t1 x01 y01 z01))
                 1 (atom_energy t1 t0 x10 y10 z10).
Proof.
  intros [Hf Hv Hp H12 Hm] E01 E10 Hr01 Hr10.
  unfold MAX_ILP_NEIGHBOR in Hm.
  unfold compute. rewrite two_atoms_nl. cbn [bind].
  unfold init_ILP_temp_data, init_ILP_temp_data_thread. simpl.
  repeat store.
  unfold gpu_find_force, gpu_find_force_thread. simpl.
  unfold force_step, bond. simpl. rewrite E01, E10. simpl.
  fold (dist x01 y01 z01). fold (dist x10 y10 z10).
  rewrite !Rgeb_false by assumption.
  rewrite (proj2 (Z.eqb_neq g0 g1) Hg).
  rewrite (proj2 (Z.eqb_neq g1 g0)) by congruence.
  repeat store.
  unfold reduce_force_many_body, reduce_force_many_body_thread.
  cbn [for_each zrange N1 N2 TwoAtomSpec.two_atoms]. simpl.
  unfold reduce_step, bond. simpl. rewrite E01, E10. simpl.
  rewrite two_atoms_offset_0. cbn [bind]. simpl.
  repeat store.
  rewrite two_atoms_offset_1. cbn [bind]. simpl.
  repeat store.
  eexists. split; [reflexivity |]. reflexivity.
Qed.

Lemma nth_add_upd_2 (l : list R) (e0 e1 : R) :
  Z.of_nat (List.length l) = 2%Z ->
  nth 0 (add_upd (add_upd l 0 e0) 1 e1) 0 = nth 0 l 0 + e0
  /\ nth 1 (add_upd (add_upd l 0 e0) 1 e1) 0 = nth 1 l 0 + e1.
Proof.
  destruct l as [| a [| c [| ? ?]]]; simpl; try lia. intros _.
  unfold add_upd. simpl. split; reflexivity.
Qed.

End TwoAtoms.

(** C4 (as amended): two atoms in different groups, each the only general
    neighbor of the other, at a distance [0 < r < rcut_global], with the
    same parameters for both orders of the type pair and a minimum-image
    fold that is odd on their separation.  One force evaluation finishes
    and raises the total potential energy by the closed-form van der Waals
    expression [Tap(r) * (-C6 / r^6) / (1 + exp (-d_Seff * r + d))] plus,
    for each of the two atoms, the repulsive energy
    [Tap(r) * exp (-lambda * (r - z0)) * (epsilon / 2 + C * exp (-rho2 *
    delta2inv))] taken with the default normal (0,0,1), where
    [rho2 = r^2 - z12^2]. *)
Theorem two_atom_energy (Box : Type)
    (apply_mic : Box -> R -> R -> R -> R * R * R) (b : Box) (p : ILP_Para)
    (t0 t1 g0 g1 : Z) (x0 y0 z0 x1 y1 z1 : R) (nl2 nl3 : Z)
    (fs : force_state) (x12 y12 z12 : R) :
  let sys := two_atoms b p t0 t1 g0 g1 x0 y0 z0 x1 y1 z1 nl2 nl3 in
  let r := dist x12 y12 z12 in
  g0 <> g1 ->
  wf_force 2 2 fs ->
  apply_mic b (x1 - x0) (y1 - y0) (z1 - z0) = (x12, y12, z12) ->
  apply_mic b (x0 - x1) (y0 - y1) (z0 - z1) = (- x12, - y12, - z12) ->
  sym_para p t0 t1 ->
  0 < r < rcut_global p t0 t1 ->
  exists nl fs',
    compute apply_mic sys fs = Ok (nl, fs')
    /\ (nth 0 (g_potential fs') 0 + nth 1 (g_potential fs') 0)
       - (nth 0 (g_potential fs) 0 + nth 1 (g_potential fs) 0)
       = Taper.calc_Tap r (1 / rcut_global p t0 t1)
         * (- C_6 p t0 t1 / r ^ 6)
         / (1 + exp (- d_Seff p t0 t1 * r + d p t0 t1))
         + 2 * (Taper.calc_Tap r (1 / rcut_global p t0 t1)
                * exp (- lambda p t0 t1 * (r - ILP.z0 p t0 t1))
                * (epsilon p t0 t1 / 2
                   + C p t0 t1
                     * exp (- ((r * r - z12 * z12) * delta2inv p t0 t1)))).
Proof.
  intros sys r Hg Hwf E01 E10 Hsym [Hr0 Hr].
  assert (Hd : dist (- x12) (- y12) (- z12) = r).
  { unfold r, dist. f_equal. ring. }
  destruct Hsym as (S1 & S2 & S3 & S4 & S5 & S6 & S7 & S8 & S9).
  destruct (@two_atoms_compute Box apply_mic b p t0 t1 g0 g1
              x0 y0 z0 x1 y1 z1 nl2 nl3 Hg fs _ _ _ _ _ _ Hwf E01 E10)
    as [fs' [Hc Hp]].
  { exact Hr. }
  { rewrite Hd, S1. exact Hr. }
  exists (empty_nl), fs'. split; [exact Hc |].
  rewrite Hp.
  destruct (nth_add_upd_2 (g_potential fs)
              (atom_energy p t0 t1 x12 y12 z12)
              (atom_energy p t1 t0 (- x12) (- y12) (- z12))
              (wf_g_potential Hwf)) as [-> ->].
  unfold atom_energy.
  destruct (calc_pair_energy p t0 t1 x12 y12 z12 Hr0) as [-> ->].
  assert (Hr0' : 0 < dist (- x12) (- y12) (- z12)) by (rewrite Hd; exact Hr0).
  destruct (calc_pair_energy p t1 t0 (- x12) (- y12) (- z12) Hr0')
    as [-> ->].
  rewrite Hd. fold r.
  unfold vdW_closed, rep_closed.
  rewrite S1, S2, S3, S4, S5, S6, S7, S8, S9.
  replace (r * r - - z12 * - z12) with (r * r - z12 * z12) by ring.
  rewrite half_eq.
  pose proof (exp_pos (- d_Seff p t0 t1 * r + d p t0 t1)).
  field. repeat split; lra.
Qed.



(** The taper value is positive inside the cutoff:
    [Tap(x) = (1 - x)^4 (1 + 4 x + 10 x^2 + 20 x^3)]. *)
Lemma calc_Tap_pos (r Rcut : R) :
  0 <= r < Rcut -> 0 < Taper.calc_Tap r (1 / Rcut).
Proof.
  intros [Hr0 Hr]. unfold Taper.calc_Tap.
  assert (Hx : 0 <= r * (1 / Rcut) < 1).
  { split.
    - apply Rmult_le_pos; [exact Hr0 |].
      unfold Rdiv. rewrite Rmult_1_l. left. apply Rinv_0_lt_compat. lra.
    - apply Rmult_lt_reg_r with Rcut; [lra |].
      replace (r * (1 / Rcut) * Rcut) with r by (field; lra). lra. }
  set (x := r * (1 / Rcut)) in *.
  destruct (Rge_dec x 1) as [Hge | _]; [lra |].
  unfold Taper.coeff. simpl.
  replace (((((((20 * x + -70) * x + 84) * x + -35) * x + 0) * x + 0) * x
            + 0) * x + 1)
    with ((1 - x) ^ 4 * (1 + 4 * x + 10 * x ^ 2 + 20 * x ^ 3)) by ring.
  apply Rmult_lt_0_compat.
  - apply pow_lt. lra.
  - assert (0 <= x ^ 2) by (apply pow_le; lra).
    assert (0 <= x ^ 3) by (apply pow_le; lra). lra.
Qed.

Lemma rep_closed_pos p ta tb r z12 :
  0 < Taper.calc_Tap r (1 / rcut_global p ta tb) ->
  0 < epsilon p ta tb -> 0 <= C p ta tb ->
  0 < rep_closed p ta tb r z12.
Proof.
  intros HT He HC. unfold rep_closed.
  pose proof (exp_pos (- lambda p ta tb * (r - z0 p ta tb))).
  pose proof (exp_pos (- ((r * r - z12 * z12) * delta2inv p ta tb))).
  apply Rmult_lt_0_compat; [apply Rmult_lt_0_compat; assumption |].
  assert (0 <= C p ta tb
               * exp (- ((r * r - z12 * z12) * delta2inv p ta tb)))
    by (apply Rmult_le_pos; lra).
  lra.
Qed.

End TwoAtomFacts.

(** ** Examples: two atoms in different groups *)

Module TwoAtomExamples.
Import Mem MemFacts Normal ILP ForceSpec TwoAtomSpec Inputs ForceFacts
  TwoAtomFacts.
Open Scope R_scope.

Lemma zero_fs_wf : wf_force 2 2 (zero_fs 2 2).
Proof. constructor; try intros c; reflexivity. Qed.

Lemma dist_003 : dist (0 - 0) (0 - 0) (3 - 0) = 3.
Proof.
  unfold dist.
  replace ((0 - 0) * (0 - 0) + (0 - 0) * (0 - 0) + (3 - 0) * (3 - 0))
    with (3 * 3) by ring.
  apply sqrt_square. lra.
Qed.

Lemma dist_00m3 : dist (0 - 0) (0 - 0) (0 - 3) = 3.
Proof.
  unfold dist.
  replace ((0 - 0) * (0 - 0) + (0 - 0) * (0 - 0) + (0 - 3) * (0 - 3))
    with (3 * 3) by ring.
  apply sqrt_square. lra.
Qed.

Lemma two_atom_energy_witness :
  exists nl fs',
    compute no_mic stacked (zero_fs 2 2) = Ok (nl, fs')
    /\ nth 0 (g_potential fs') 0 + nth 1 (g_potential fs') 0
       = vdW_closed (para1 2 6) 0 0 3
         + 2 * rep_closed (para1 2 6) 0 0 3 (3 - 0).
Proof.
  destruct (@two_atom_energy unit no_mic tt (para1 2 6) 0 0 0 1
              0 0 0 0 0 3 0 0 (zero_fs 2 2) (0 - 0) (0 - 0) (3 - 0))
    as [nl [fs' [Hc He]]].
  - lia.
  - exact zero_fs_wf.
  - reflexivity.
  - unfold no_mic. f_equal; [f_equal |]; lra.
  - repeat split.
  - rewrite dist_003. simpl. lra.
  - exists nl, fs'. split; [exact Hc |].
    rewrite dist_003 in He. simpl in He.
    unfold vdW_closed, rep_closed. simpl. lra.
Defined.

(** C4 (counterexample to the claim as stated): for the two stacked atoms
    neither atom has a secondary neighbor, their distance 3 is below
    [rcut_global = 6], and the total potential energy of one evaluation
    exceeds the closed-form van der Waals expression (by the two repulsive
    energies). *)
Lemma stacked_energy_not_vdW :
  exists nl fs',
    compute no_mic stacked (zero_fs 2 2) = Ok (nl, fs')
    /\ ilp_neighbor_number nl = [0; 0]%Z
    /\ nth 0 (g_potential fs') 0 + nth 1 (g_potential fs') 0
       > vdW_closed (para1 2 6) 0 0 3
    /\ nth 0 (g_potential fs') 0 + nth 1 (g_potential fs') 0
       <> vdW_closed (para1 2 6) 0 0 3.
Proof.
  destruct (@two_atoms_compute unit no_mic tt (para1 2 6) 0 0 0 1
              0 0 0 0 0 3 0 0 ltac:(lia) (zero_fs 2 2)
              (0 - 0) (0 - 0) (3 - 0) (0 - 0) (0 - 0) (0 - 3)
              zero_fs_wf eq_refl eq_refl)
    as [fs' [Hc Hp]].
  { rewrite dist_003. simpl. lra. }
  { rewrite dist_00m3. simpl. lra. }
  exists (empty_nl), fs'. split; [exact Hc |]. split; [reflexivity |].
  rewrite Hp.
  destruct (nth_add_upd_2 (g_potential (zero_fs 2 2))
              (atom_energy (para1 2 6) 0 0 (0 - 0) (0 - 0) (3 - 0))
              (atom_energy (para1 2 6) 0 0 (0 - 0) (0 - 0) (0 - 3))
              eq_refl) as [-> ->].
  unfold atom_energy.
  destruct (calc_pair_energy (para1 2 6) 0 0 (0 - 0) (0 - 0) (3 - 0))
    as [-> ->]; [rewrite dist_003; lra |].
  destruct (calc_pair_energy (para1 2 6) 0 0 (0 - 0) (0 - 0) (0 - 3))
    as [-> ->]; [rewrite dist_00m3; lra |].
  rewrite dist_003, dist_00m3.
  assert (HT : 0 < Taper.calc_Tap 3 (1 / rcut_global (para1 2 6) 0 0))
    by (apply calc_Tap_pos; simpl; lra).
  pose proof (@rep_closed_pos (para1 2 6) 0 0 3 (3 - 0) HT
                ltac:(simpl; lra) ltac:(simpl; lra)).
  pose proof (@rep_closed_pos (para1 2 6) 0 0 3 (0 - 3) HT
                ltac:(simpl; lra) ltac:(simpl; lra)).
  simpl (nth _ (g_potential (zero_fs 2 2)) 0).
  assert (forall a b c : R, 0 < b -> 0 < c ->
            0 + (0 + a * 0.5 + b) + (0 + (0 + a * 0.5 + c)) > a) as Hgt
    by (intros; lra).
  split; [apply Hgt; assumption |].
  apply Rgt_not_eq. apply Hgt; assumption.
Qed.

End TwoAtomExamples.

(** ** Theorems: the temporary buffers across one force evaluation *)

Module BufferFacts.
Import Mem MemFacts Normal ILP ForceSpec TwoAtomSpec Inputs ForceFacts
  TwoAtomFacts.
Open Scope R_scope.

Local Opaque calc_pair wr3 rd3 add3 add_at save_virial.

Lemma same_layer_nl :
  ILP_neighbor no_mic same_layer_pair (fresh_nl same_layer_pair)
  = Ok (empty_nl).
Proof.
  unfold ILP_neighbor, ILP_neighbor_thread, ILP_neighbor_step, bond. simpl.
  unfold no_mic. simpl.
  rewrite !Rltb_false by lra. reflexivity.
Qed.

Lemma same_layer_offset_0 : find_offset same_layer_pair 1 0 0 1 0 = Ok 0%Z.
Proof. reflexivity. Qed.

Lemma same_layer_offset_1 : find_offset same_layer_pair 0 1 0 1 0 = Ok 0%Z.
Proof. reflexivity. Qed.

(** C6 (evaluation at the failing input): for two atoms of one group that
    are general neighbors, one force evaluation writes no slot of the
    pairwise buffer (the initialization stage does not touch it and the
    force kernel skips same-group neighbors before its store), and the
    reduction pass reads slot 1 of it for atom 0: the force on atom 0 after
    the evaluation is its force before minus the content that [g_f12x[1]]
    had before the evaluation. *)
Theorem stale_pairwise_slot_read (fs : force_state) :
  wf_force 2 2 fs ->
  exists nl fs',
    compute no_mic same_layer_pair fs = Ok (nl, fs')
    /\ g_f12 fs' = g_f12 fs
    /\ nth 0 (g_f fs' c0) 0 = nth 0 (g_f fs c0) 0 - nth 1 (g_f12 fs c0) 0.
Proof.
  intros [Hf Hv Hp H12 Hm]. unfold MAX_ILP_NEIGHBOR in Hm.
  unfold compute. rewrite same_layer_nl. cbn [bind].
  unfold init_ILP_temp_data, init_ILP_temp_data_thread. simpl.
  repeat store.
  unfold gpu_find_force, gpu_find_force_thread. simpl.
  unfold force_step, bond. simpl.
  repeat match goal with
         | |- context [Rgeb ?a ?b] => destruct (Rgeb a b)
         end; cbn [bind]; repeat store.
  all: unfold reduce_force_many_body, reduce_force_many_body_thread;
    cbn [for_each zrange N1 N2 same_layer_pair pair_same_group]; simpl;
    unfold reduce_step, bond; simpl;
    rewrite same_layer_offset_0; cbn [bind]; simpl; repeat store;
    rewrite same_layer_offset_1; cbn [bind]; simpl; repeat store.
  all: do 2 eexists; split; [reflexivity |]; split; [reflexivity |].
  all: cbn [g_f].
  all: match goal with
       | |- nth 0 (?a c0) 0 = _ => change (nth 0 (a c0) 0) with (at3 a 0 c0)
       end.
  all: repeat first
         [ rewrite at3_upd3_other by lia
         | erewrite at3_upd3_same
             by (solve [repeat apply len3_upd3; eassumption | lia]) ].
  all: unfold at3, vsub, vec; simpl; change (Pos.to_nat 1) with 1%nat; lra.
Qed.

Lemma stale_pairwise_slot_read_witness :
  exists nl fs',
    compute no_mic same_layer_pair stale_fs = Ok (nl, fs')
    /\ nth 0 (g_f fs' c0) 0 = -1.
Proof.
  destruct (stale_pairwise_slot_read (fs := stale_fs)) as [nl [fs' [Hc [_ Hf]]]].
  - constructor; try intros c; reflexivity.
  - exists nl, fs'. split; [exact Hc |]. rewrite Hf. simpl. lra.
Defined.

End BufferFacts.

(** ** Theorems: the reciprocal-slot search and Newton's third law *)

Module ReductionFacts.
Import Mem MemFacts Normal ILP ForceSpec TwoAtomSpec Inputs ForceFacts
  TwoAtomFacts.
Open Scope R_scope.

(** C3 (evaluation at the failing input): the neighbor list of atom 2 is
    [0; 1], sorted by index, and contains atom 0 at position 0; the search
    for [n1 = 0] in it returns offset 1, where the list holds atom 1. *)
Theorem find_offset_misses_first_of_two :
  rd "g_neighbor_number" (g_neighbor_number tri_sys) 2 = Ok 2%Z
  /\ tri_entry 2 0 = Ok 0%Z /\ tri_entry 2 1 = Ok 1%Z
  /\ find_offset tri_sys 2 0 0 2 0 = Ok 1%Z.
Proof. repeat split. Qed.

Lemma tri_offset_0 : find_offset tri_sys 2 0 0 2 0 = Ok 1%Z.
Proof. reflexivity. Qed.

Lemma tri_offset_1 : find_offset tri_sys 2 1 0 2 0 = Ok 1%Z.
Proof. reflexivity. Qed.

Lemma tri_offset_2a : find_offset tri_sys 0 2 0 1 0 = Ok 0%Z.
Proof. reflexivity. Qed.

Lemma tri_offset_2b : find_offset tri_sys 1 2 0 1 0 = Ok 0%Z.
Proof. reflexivity. Qed.

Lemma tri_nl_ok : ILP_neighbor no_mic tri_sys (fresh_nl tri_sys) = Ok tri_nl.
Proof. reflexivity. Qed.

Lemma sqrt_25 s : s = 25 -> sqrt s = 5.
Proof.
  intros ->. replace 25 with (5 * 5) by ring. apply sqrt_square. lra.
Qed.

Lemma calc_dTap_5_6 : Taper.calc_dTap 5 6 (1 / 6) < 0.
Proof.
  unfold Taper.calc_dTap.
  destruct (Rge_dec (5 * (1 / 6)) 6) as [H | _]; [lra |].
  unfold Taper.coeff. simpl. lra.
Qed.

(** The x components of the two pair forces that the thread of atom 2
    stores are opposite and not zero. *)
Lemma q20_q21_differ :
  q_fkc q21 c0 = - q_fkc q20 c0 /\ 0 < q_fkc q20 c0.
Proof.
  unfold q20, q21, calc_pair, calc_vdW, default_normal.
  cbn -[exp sqrt Taper.calc_Tap Taper.calc_dTap].
  rewrite !(@sqrt_25 ((-4 - 0) * (-4 - 0) + (0 - 0) * (0 - 0)
                      + (0 - 3) * (0 - 3))) by ring.
  rewrite !(@sqrt_25 ((4 - 0) * (4 - 0) + (0 - 0) * (0 - 0)
                      + (0 - 3) * (0 - 3))) by ring.
  repeat match goal with
         | |- context [exp (- (?a * 1))] =>
             lazymatch a with
             | 16 => fail
             | _ => replace a with 16 by ring
             end
         end.
  set (E0 := exp (- (1) * (5 - 3))).
  set (E1 := exp (- (16 * 1))).
  pose proof (exp_pos (- (1) * (5 - 3))) as HE0. fold E0 in HE0.
  assert (HE1 : 0 < E1) by apply exp_pos.
  assert (HT : 0 < Taper.calc_Tap 5 (1 / 6)) by (apply calc_Tap_pos; lra).
  pose proof calc_dTap_5_6 as HD.
  set (T := Taper.calc_Tap 5 (1 / 6)) in *.
  set (D := Taper.calc_dTap 5 6 (1 / 6)) in *.
  clearbody E0 E1 T D.
  split; [rewrite half_eq; field |].
  rewrite half_eq.
  assert (HV : 0 < E0 * (1 / 2 * 1 + E1 * 1)) by nra.
  assert (HF : 0 < 1 * E0 * (1 / 5) * (1 / 2 * 1 + E1 * 1)
                   + 2 * E0 * (E1 * 1) * 1) by nra.
  set (V := E0 * (1 / 2 * 1 + E1 * 1)) in *.
  set (F := 1 * E0 * (1 / 5) * (1 / 2 * 1 + E1 * 1)
            + 2 * E0 * (E1 * 1) * 1) in *.
  clearbody V F.
  assert (0 < F * T) by nra.
  assert (0 < V * - D) by nra.
  nra.
Qed.

Local Opaque calc_pair wr3 rd3 add3 add_at save_virial.

(** The initialization stage and the force kernel on [tri_sys]. *)
Lemma tri_kernel (fs : force_state) :
  wf_force 3 3 fs ->
  exists fs1,
    bind (init_ILP_temp_data tri_sys fs) (gpu_find_force no_mic tri_sys tri_nl)
    = Ok fs1
    /\ wf_force 3 3 fs1
    /\ (forall c, at3 (g_f12 fs1) 2 c = q_fkc q20 c)
    /\ (forall c, at3 (g_f12 fs1) 5 c = q_fkc q21 c).
Proof.
  intros [Hf Hv Hp H12 Hm]. unfold MAX_ILP_NEIGHBOR in Hm.
  unfold init_ILP_temp_data, init_ILP_temp_data_thread. simpl.
  repeat store.
  unfold gpu_find_force, gpu_find_force_thread. simpl.
  unfold force_step, bond. simpl. unfold no_mic. simpl.
  rewrite !Rgeb_false by (rewrite (@sqrt_25 _) by ring; lra).
  repeat store.
  eexists. split; [reflexivity |].
  split; [| split].
  - constructor; cbn [g_f g_virial g_potential g_f12 g_f12_ilp_neigh];
      unfold MAX_ILP_NEIGHBOR;
      rewrite ?length_virial_saved, ?length_add_upd;
      try (repeat apply len3_upd3); assumption.
  - intros c. cbn [g_f12].
    rewrite at3_upd3_other by lia.
    erewrite at3_upd3_same
      by (solve [repeat apply len3_upd3; eassumption | lia]).
    reflexivity.
  - intros c. cbn [g_f12].
    erewrite at3_upd3_same
      by (solve [repeat apply len3_upd3; eassumption | lia]).
    reflexivity.
Qed.

(** The reduction pass on [tri_sys]: what the thread of atom 0 does to the
    force on atom 0. *)
Lemma tri_reduce (fs1 : force_state) :
  wf_force 3 3 fs1 ->
  exists fs2,
    reduce_force_many_body no_mic tri_sys tri_nl fs1 = Ok fs2
    /\ forall c, at3 (g_f fs2) 0 c
                 = at3 (g_f fs1) 0 c - at3 (g_f12 fs1) 5 c.
Proof.
  intros [Hf Hv Hp H12 Hm]. unfold MAX_ILP_NEIGHBOR in Hm.
  unfold reduce_force_many_body, reduce_force_many_body_thread.
  cbn [for_each zrange N1 N2 tri_sys]. simpl.
  unfold reduce_step, bond. simpl.
  rewrite tri_offset_0.
  cbn [bind]. simpl. repeat store.
  rewrite tri_offset_1. cbn [bind]. simpl. repeat store.
  rewrite tri_offset_2a. cbn [bind]. simpl. repeat store.
  rewrite tri_offset_2b. cbn [bind]. simpl. repeat store.
  eexists. split; [reflexivity |].
  intros c. cbn [g_f].
  repeat first
    [ rewrite at3_upd3_other by lia
    | erewrite at3_upd3_same
        by (solve [repeat apply len3_upd3; eassumption | lia]) ].
  unfold vsub, vec. destruct c; simpl; lra.
Qed.

(** C1 (evaluation at the failing input): in one force evaluation of
    [tri_sys] the thread of atom 2 adds to its own force, on account of its
    neighbor atom 0, the pair force [q_fkc q20] and stores it in slot 2 of
    the pairwise buffer.  The reduction pass subtracts from the force on
    atom 0, on account of atom 2, the content of slot 5, which is the pair
    force [q_fkc q21] that atom 2 stored for atom 1.  In the x component
    the two are opposite and not zero, so the force on atom 0 due to atom 2
    is not the negative of the force on atom 2 due to atom 0. *)
Theorem third_law_broken (fs : force_state) :
  wf_force 3 3 fs ->
  exists nl fs1 fs2,
    ILP_neighbor no_mic tri_sys (fresh_nl tri_sys) = Ok nl
    /\ bind (init_ILP_temp_data tri_sys fs) (gpu_find_force no_mic tri_sys nl)
       = Ok fs1
    /\ reduce_force_many_body no_mic tri_sys nl fs1 = Ok fs2
    /\ compute no_mic tri_sys fs = Ok (nl, fs2)
    /\ at3 (g_f12 fs1) 2 c0 = q_fkc q20 c0
    /\ at3 (g_f fs2) 0 c0 = at3 (g_f fs1) 0 c0 - q_fkc q21 c0
    /\ q_fkc q21 c0 = - q_fkc q20 c0
    /\ 0 < q_fkc q20 c0.
Proof.
  intros Hwf.
  destruct (tri_kernel Hwf) as [fs1 [Hk [Hwf1 [H2 H5]]]].
  destruct (tri_reduce Hwf1) as [fs2 [Hr Hf0]].
  exists tri_nl, fs1, fs2.
  split; [exact tri_nl_ok |]. split; [exact Hk |]. split; [exact Hr |].
  split.
  - unfold compute. rewrite tri_nl_ok. cbn [bind].
    destruct (init_ILP_temp_data tri_sys fs) as [fs0 | f];
      cbn [bind] in *; [| discriminate].
    rewrite Hk. cbn [bind]. rewrite Hr. reflexivity.
  - split; [apply H2 |]. split; [rewrite Hf0, H5; reflexivity |].
    exact q20_q21_differ.
Qed.

Lemma third_law_broken_witness :
  exists nl fs2,
    compute no_mic tri_sys (zero_fs 3 3) = Ok (nl, fs2).
Proof.
  destruct (third_law_broken (fs := zero_fs 3 3))
    as [nl [fs1 [fs2 [_ [_ [_ [Hc _]]]]]]].
  - constructor; try intros c; reflexivity.
  - exists nl, fs2. exact Hc.
Defined.

End ReductionFacts.

(** ** Theorems: the capacity of the secondary neighbor list *)

Module CapacityFacts.
Import Mem MemFacts Normal ILP Reads BuilderSpec ForceSpec Inputs ForceFacts
  BuilderFacts.
Open Scope R_scope.

Ltac decide_kept :=
  repeat (first [ rewrite Rltb_true by lra
                | rewrite Rneb_true by (apply Rgt_not_eq; lra) ];
          simpl).

(** C2 (evaluation at the failing input): atom 0 of [star_sys] has four
    qualifying neighbors.  The builder thread of atom 0 stores the fourth
    at index [3 * 5 + 0 = 15] of the secondary list, which has 15 entries:
    a store outside the array, before any diagnostic.  Given one more row
    the thread stores the count 4 and prints the diagnostic with the atom
    index and the four neighbor indices.  The bond-vector loop of the force
    kernel runs up to the stored count: with the count 4 it loads the entry
    at index 15, outside the array. *)
Theorem ILP_neighbor_overflows :
  List.length (filter (keptb no_mic star_sys 0)
                      (general_neighbors star_sys 0)) = 4%nat
  /\ List.length (ilp_neighbor_list (fresh_nl star_sys)) = 15%nat
  /\ ILP_neighbor_thread no_mic star_sys 0 (fresh_nl star_sys)
     = Fault (OobWrite "ilp_neighbor_list" 15)
  /\ ILP_neighbor no_mic star_sys (fresh_nl star_sys)
     = Fault (OobWrite "ilp_neighbor_list" 15)
  /\ (exists st,
        ILP_neighbor_thread no_mic star_sys 0 roomy_nl = Ok st
        /\ nth 0 (ilp_neighbor_number st) 0%Z = 4%Z
        /\ printed st = [TooMany 4; FirstNeighbors 0 1 2 3 4])
  /\ (forall fs,
        gpu_find_force_thread no_mic star_sys over_nl 0 fs
        = Fault (OobRead "g_ilp_neighbor_list" 15)).
Proof.
  assert (Hthread :
            ILP_neighbor_thread no_mic star_sys 0 (fresh_nl star_sys)
            = Fault (OobWrite "ilp_neighbor_list" 15)).
  { unfold ILP_neighbor_thread, ILP_neighbor_step, bond. simpl.
    unfold no_mic. simpl. decide_kept. reflexivity. }
  split; [| split; [reflexivity | split; [exact Hthread | split; [| split]]]].
  - unfold general_neighbors. simpl.
    unfold keptb, d12sq, rcutsq, at_R, at_Z, no_mic. simpl.
    decide_kept. reflexivity.
  - unfold ILP_neighbor.
    change (zrange (N1 star_sys) (N2 star_sys)) with [0; 1; 2; 3; 4]%Z.
    cbn [for_each]. rewrite Hthread. reflexivity.
  - unfold ILP_neighbor_thread, ILP_neighbor_step, bond. simpl.
    unfold no_mic. simpl. decide_kept.
    eexists. split; [reflexivity |]. split; reflexivity.
  - intros fs. unfold gpu_find_force_thread, bond_step, bond. simpl.
    reflexivity.
Qed.

End CapacityFacts.

(** ** Lemmas: sums *)

Unset Implicit Arguments.

Module SumFacts.
Import SumSpec.
Open Scope R_scope.

Lemma sumn_ext (f g : nat -> R) n :
  (forall k, (k < n)%nat -> f k = g k) -> sumn f n = sumn g n.
Proof.
  induction n as [| n IH]; intros H; simpl; [reflexivity |].
  rewrite IH by (intros; apply H; lia). rewrite H by lia. reflexivity.
Qed.

Lemma sumn_plus (f g : nat -> R) n :
  sumn (fun k => f k + g k) n = sumn f n + sumn g n.
Proof. induction n as [| n IH]; simpl; [lra | rewrite IH; lra]. Qed.

Lemma sumn_app (f : nat -> R) a b :
  sumn f (a + b) = sumn f a + sumn (fun k => f (a + k)%nat) b.
Proof.
  induction b as [| b IH]; simpl.
  - rewrite Nat.add_0_r. lra.
  - rewrite Nat.add_succ_r. simpl. rewrite IH. lra.
Qed.

Lemma sumn_zero (f : nat -> R) n :
  (forall k, (k < n)%nat -> f k = 0) -> sumn f n = 0.
Proof.
  induction n as [| n IH]; intros H; simpl; [reflexivity |].
  rewrite IH by (intros; apply H; lia). rewrite H by lia. lra.
Qed.

Lemma sumn_shift (f : nat -> R) n :
  sumn f (S n) = f O + sumn (fun k => f (S k)) n.
Proof.
  induction n as [| n IH]; [simpl; lra |].
  change (sumn f (S (S n))) with (sumn f (S n) + f (S n)).
  rewrite IH. simpl. lra.
Qed.

(** A strided double sum covers a block of [w * P] terms. *)
Lemma sumn_strided (f : nat -> R) (w P : nat) :
  sumn (fun t => sumn (fun q => f (t + w * q)%nat) P) w = sumn f (w * P).
Proof.
  induction P as [| P IH].
  - rewrite Nat.mul_0_r. simpl. apply sumn_zero. reflexivity.
  - simpl sumn at 2. rewrite sumn_plus, IH.
    replace (w * S P)%nat with (w * P + w)%nat by lia.
    rewrite sumn_app. f_equal. apply sumn_ext. intros k _. f_equal. lia.
Qed.

Lemma sum_list_map_seq (h : nat -> R) (a n : nat) :
  sum_list (map h (seq a n)) = sumn (fun k => h (a + k)%nat) n.
Proof.
  revert a. induction n as [| n IH]; intros a; [reflexivity |].
  rewrite sumn_shift. simpl. rewrite IH, Nat.add_0_r. f_equal.
  apply sumn_ext. intros k _. f_equal. lia.
Qed.

End SumFacts.

(** ** Theorems: the heat sampler *)

Module HeatFacts.
Import Mem MemFacts Heat Reads SumSpec HeatSpec SumFacts.
Open Scope R_scope.

Lemma length_par_add n k s : List.length (par_add n k s) = List.length s.
Proof. unfold par_add. now rewrite length_map, length_seq. Qed.

Lemma nth_par_add n k s t :
  (t < List.length s)%nat ->
  nth0 (par_add n k s) t
  = if (t <? n)%nat then nth0 s t + nth0 s (t + k) else nth0 s t.
Proof.
  intros H. unfold nth0, par_add.
  set (g := fun t0 : nat =>
              if (t0 <? n)%nat then nth t0 s 0 + nth (t0 + k) s 0
              else nth t0 s 0).
  rewrite (nth_indep _ 0 (g 0%nat)) by (now rewrite length_map, length_seq).
  rewrite map_nth, seq_nth by exact H. reflexivity.
Qed.

(** One halving step of the tree reduction keeps the sum. *)
Lemma par_add_sum n k s :
  (k <= n)%nat -> (k <= List.length s)%nat ->
  sumn (nth0 (par_add n k s)) k = sumn (nth0 s) (k + k).
Proof.
  intros Hn Hlen.
  rewrite (sumn_ext (nth0 (par_add n k s))
                    (fun t => nth0 s t + nth0 s (k + t)) k).
  - rewrite sumn_plus, sumn_app. reflexivity.
  - intros t Ht. rewrite nth_par_add by lia.
    destruct (Nat.ltb_spec t n); [| lia].
    now rewrite (Nat.add_comm t k).
Qed.

Lemma sumn_one (l : list R) : nth 0 l 0 = sumn (nth0 l) 1.
Proof. unfold nth0. simpl. lra. Qed.

(** The tree reduction of [find_group_temp] leaves the sum of the 256
    partial sums in [s_ke[0]]. *)
Lemma tree_reduction s :
  List.length s = 256%nat ->
  nth 0 (warp_reduce (par_add 64 64 (par_add 128 128 s))) 0
  = sumn (nth0 s) 256.
Proof.
  intros Hlen. unfold warp_reduce.
  set (s1 := par_add 128 128 s).
  set (s2 := par_add 64 64 s1).
  set (s3 := par_add 32 32 s2).
  set (s4 := par_add 32 16 s3).
  set (s5 := par_add 32 8 s4).
  set (s6 := par_add 32 4 s5).
  set (s7 := par_add 32 2 s6).
  set (s8 := par_add 32 1 s7).
  assert (L1 : List.length s1 = 256%nat)
    by (unfold s1; now rewrite length_par_add).
  assert (L2 : List.length s2 = 256%nat)
    by (unfold s2; now rewrite length_par_add).
  assert (L3 : List.length s3 = 256%nat)
    by (unfold s3; now rewrite length_par_add).
  assert (L4 : List.length s4 = 256%nat)
    by (unfold s4; now rewrite length_par_add).
  assert (L5 : List.length s5 = 256%nat)
    by (unfold s5; now rewrite length_par_add).
  assert (L6 : List.length s6 = 256%nat)
    by (unfold s6; now rewrite length_par_add).
  assert (L7 : List.length s7 = 256%nat)
    by (unfold s7; now rewrite length_par_add).
  rewrite (sumn_one s8).
  unfold s8. rewrite par_add_sum by lia.
  unfold s7. rewrite (par_add_sum 32 2) by lia.
  unfold s6. rewrite (par_add_sum 32 4) by lia.
  unfold s5. rewrite (par_add_sum 32 8) by lia.
  unfold s4. rewrite (par_add_sum 32 16) by lia.
  unfold s3. rewrite (par_add_sum 32 32) by lia.
  unfold s2. rewrite (par_add_sum 64 64) by lia.
  unfold s1. rewrite (par_add_sum 128 128) by lia.
  reflexivity.
Qed.

Lemma map_res_ok {A B} (f : A -> res B) (g : A -> B) (l : list A) :
  (forall a, In a l -> f a = Ok (g a)) -> map_res f l = Ok (map g l).
Proof.
  induction l as [| a l IH]; intros H; simpl; [reflexivity |].
  rewrite H by (now left). simpl.
  rewrite IH by (intros; apply H; now right). reflexivity.
Qed.

Section Group.
Variable atom : Atom.
Variable bid : Z.
Hypothesis Hwf : wf_group atom bid.

Let gs := at_Z (group_size atom) bid.
Let off := at_Z (group_size_sum atom) bid.

Local Notation padded := (HeatSpec.padded atom bid).

Lemma patch_step_eq tid patch s :
  (0 <= tid)%Z -> (0 <= patch)%Z ->
  patch_step atom gs off tid patch s
  = Ok (s + padded (tid + patch * 256)).
Proof.
  intros Ht Hp. unfold patch_step, HeatSpec.padded. fold gs off.
  destruct (Z.ltb_spec (tid + patch * 256) gs) as [Hlt | Hge].
  - destruct (wf_contents atom bid Hwf (tid + patch * 256)%Z) as [H1 H2];
      [fold gs; lia |].
    pose proof (wf_vx atom bid Hwf). pose proof (wf_vy atom bid Hwf). pose proof (wf_vz atom bid Hwf).
    fold off in H1, H2.
    rewrite (rd_ok _ _ 0%Z) by lia. simpl.
    fold (at_Z (group_contents atom) (off + (tid + patch * 256))).
    rewrite (rd_ok _ _ 0) by lia. simpl.
    rewrite (rd_ok _ _ 0) by lia. simpl.
    rewrite (rd_ok _ _ 0) by lia. simpl.
    rewrite (rd_ok _ _ 0) by lia. simpl.
    reflexivity.
  - f_equal. lra.
Qed.

Lemma lane_eq tid (a n : nat) s :
  (0 <= tid)%Z ->
  for_each (map (fun k => (0 + Z.of_nat k)%Z) (seq a n))
           (patch_step atom gs off tid) s
  = Ok (s + sumn (fun q => padded (tid + Z.of_nat (a + q) * 256)) n).
Proof.
  intros Ht. revert a s. induction n as [| n IH]; intros a s.
  - simpl. f_equal. lra.
  - cbn [seq map for_each]. rewrite patch_step_eq by lia. cbn [bind].
    rewrite IH, sumn_shift. f_equal.
    rewrite Nat.add_0_r.
    replace (0 + Z.of_nat a)%Z with (Z.of_nat a) by lia.
    rewrite (sumn_ext (fun q => padded (tid + Z.of_nat (S a + q) * 256))
                      (fun k => padded (tid + Z.of_nat (a + S k) * 256)))
      by (intros; do 3 f_equal; lia).
    lra.
Qed.

(** The sum of all padded terms of the patches is the sum over the
    group. *)
Lemma padded_sum (m : nat) :
  (Z.to_nat gs <= m)%nat ->
  sumn (fun k => padded (Z.of_nat k)) m
  = sum_list (map (ke_term atom) (group_atoms atom bid)).
Proof.
  intros Hm. pose proof (wf_size atom bid Hwf) as Hgs. fold gs in Hgs.
  replace m with (Z.to_nat gs + (m - Z.to_nat gs))%nat by lia.
  rewrite sumn_app, (sumn_zero _ (m - Z.to_nat gs)).
  - unfold group_atoms, zrange. fold gs. fold off.
    rewrite !map_map, sum_list_map_seq.
    replace (Z.to_nat (gs - 0)) with (Z.to_nat gs) by lia.
    rewrite Rplus_0_r. apply sumn_ext. intros k Hk. unfold HeatSpec.padded. fold gs off.
    destruct (Z.ltb_spec (Z.of_nat k) gs); [| lia].
    replace (0 + Z.of_nat (0 + k))%Z with (Z.of_nat k) by lia.
    reflexivity.
  - intros k _. unfold HeatSpec.padded. fold gs off.
    destruct (Z.ltb_spec (Z.of_nat (Z.to_nat gs + k)) gs); [lia |].
    reflexivity.
Qed.

(** The block [bid] of [find_group_temp] computes the temperature of the
    group. *)
Lemma find_group_temp_ok :
  find_group_temp atom bid = Ok (group_temperature atom bid).
Proof.
  pose proof (wf_g atom bid Hwf) as Hg. pose proof (wf_g_sum atom bid Hwf) as Hg'.
  pose proof (wf_size atom bid Hwf) as Hgs. fold gs in Hgs.
  unfold find_group_temp.
  rewrite (rd_ok _ _ 0%Z) by lia. cbn [bind].
  rewrite (rd_ok _ _ 0%Z) by lia. cbn [bind].
  fold (at_Z (group_size atom) bid). fold gs.
  fold (at_Z (group_size_sum atom) bid). fold off.
  set (nP := Z.to_nat ((gs - 1) ÷ 256 + 1 - 0)).
  set (lane := fun tid : Z =>
         0 + sumn (fun q => padded (tid + Z.of_nat (0 + q) * 256)) nP).
  rewrite (map_res_ok _ lane).
  2:{ intros tid Hin. apply zrange_in in Hin. unfold zrange. fold nP.
      apply lane_eq. lia. }
  cbn [bind].
  rewrite tree_reduction
    by (now rewrite length_map, zrange_length).
  unfold group_temperature. fold gs. unfold DIM. f_equal. f_equal.
  rewrite (sumn_ext _ (fun t => sumn (fun q => padded (Z.of_nat (t + 256 * q)))
                                     nP) 256).
  - rewrite (sumn_strided (fun k => padded (Z.of_nat k)) 256 nP).
    apply padded_sum.
    assert (Hq : (0 <= (gs - 1) ÷ 256)%Z /\ (gs - 1 < 256 * ((gs - 1) ÷ 256 + 1))%Z).
    { destruct (Z.eq_dec gs 0) as [-> | Hne].
      - change ((0 - 1) ÷ 256)%Z with 0%Z. lia.
      - rewrite Z.quot_div_nonneg by lia.
        pose proof (Z.div_mod (gs - 1) 256 ltac:(lia)).
        pose proof (Z.mod_pos_bound (gs - 1) 256 ltac:(lia)).
        pose proof (Z.div_pos (gs - 1) 256 ltac:(lia) ltac:(lia)). lia. }
    unfold nP. lia.
  - intros t Ht. unfold nth0, zrange.
    set (g := fun k : nat => lane (0 + Z.of_nat k)%Z).
    rewrite map_map.
    rewrite (nth_indep _ 0 (g 0%nat))
      by (rewrite length_map, length_seq; lia).
    rewrite map_nth, seq_nth by lia. unfold g, lane.
    rewrite Rplus_0_l. apply sumn_ext. intros q _. f_equal. lia.
Qed.

End Group.









Section Sampler.
Variable junk : nat -> R.
Variable fprintf_15_6e : R -> string.
Variable input_dir : string.
Variable para : Parameters.
Variable interval : Z.

Let Ng := number_of_groups para.

Hypothesis Hint : (0 < interval)%Z.
Hypothesis HNg : (0 <= Ng)%Z.
Hypothesis Hsteps : (0 <= number_of_steps para)%Z.

Local Notation sampling := (HeatSpec.sampling para interval).











End Sampler.


Lemma atom_ex_wf (g : Z) : (0 <= g < 1)%Z -> wf_group atom_ex g.
Proof.
  intros Hg. assert (g = 0%Z) as -> by lia.
  constructor; try reflexivity; unfold at_Z; simpl; try lia.
  intros k Hk. assert (k = 0%Z) as -> by lia. simpl. lia.
Qed.


End HeatFacts.

(** * Further properties of the code *)

(** ** Lemmas: derivatives of real functions *)

Module Calculus.
Open Scope R_scope.

Lemma derivable_pt_lim_eq (f : R -> R) (x l l' : R) :
  derivable_pt_lim f x l -> l = l' -> derivable_pt_lim f x l'.
Proof. intros H <-. exact H. Qed.

Lemma derivable_pt_lim_inv_fct (f : R -> R) (x l : R) :
  derivable_pt_lim f x l -> f x <> 0 ->
  derivable_pt_lim (fun y => / f y) x (- l / (f x * f x)).
Proof.
  intros H Hne.
  apply derivable_pt_lim_ext with (f := (fct_cte 1 / f)%F).
  - intros z. unfold div_fct, fct_cte, Rdiv. apply Rmult_1_l.
  - eapply derivable_pt_lim_eq.
    + apply derivable_pt_lim_div;
        [apply derivable_pt_lim_const | exact H | exact Hne].
    + unfold fct_cte, Rsqr. field. exact Hne.
Qed.

(** The derivative of an expression built from the variable, constants,
    sums, differences, products, inverses, powers, [exp] and [sqrt]; the
    conditions of inverses and square roots, and the derivatives of other
    functions (of the variable, or of an expression and a constant), are
    left as goals. *)
Ltac deriv :=
  lazymatch goal with
  | |- derivable_pt_lim (fun _ => ?c) _ _ =>
      apply (derivable_pt_lim_const c)
  | |- derivable_pt_lim (fun x => x) _ _ =>
      apply derivable_pt_lim_id
  | |- derivable_pt_lim (fun x => @?f x + @?g x) _ _ =>
      apply (derivable_pt_lim_plus f g); deriv
  | |- derivable_pt_lim (fun x => @?f x - @?g x) _ _ =>
      apply (derivable_pt_lim_minus f g); deriv
  | |- derivable_pt_lim (fun x => @?f x * @?g x) _ _ =>
      apply (derivable_pt_lim_mult f g); deriv
  | |- derivable_pt_lim (fun x => - @?f x) _ _ =>
      apply (derivable_pt_lim_opp f); deriv
  | |- derivable_pt_lim (fun x => @?f x / @?g x) _ _ =>
      unfold Rdiv; deriv
  | |- derivable_pt_lim (fun x => / @?f x) _ _ =>
      apply (derivable_pt_lim_inv_fct f); [deriv | cbv beta]
  | |- derivable_pt_lim (fun x => (@?f x) ^ ?n) _ _ =>
      apply (derivable_pt_lim_comp f (fun y => y ^ n));
      [deriv | apply derivable_pt_lim_pow]
  | |- derivable_pt_lim (fun x => exp (@?f x)) _ _ =>
      apply (derivable_pt_lim_comp f exp);
      [deriv | apply derivable_pt_lim_exp]
  | |- derivable_pt_lim (fun x => sqrt (@?f x)) _ _ =>
      apply (derivable_pt_lim_comp f sqrt);
      [deriv | apply derivable_pt_lim_sqrt; cbv beta]
  | |- derivable_pt_lim (fun x => ?g x) ?a ?l =>
      change (derivable_pt_lim g a l)
  | |- derivable_pt_lim (fun x => ?g (@?f x) ?c) _ _ =>
      apply (derivable_pt_lim_comp f (fun y => g y c)); [deriv | cbv beta]
  | |- derivable_pt_lim ?f _ _ => fail "no rule for" f
  end.

End Calculus.

Module TaperMore.
Import Taper Calculus.
Open Scope R_scope.

(** Inside the cutoff the value evaluator is the polynomial
    [20 x^7 - 70 x^6 + 84 x^5 - 35 x^4 + 1] of the reduced distance. *)
Lemma calc_Tap_inside (r_ij Rcutinv : R) :
  r_ij * Rcutinv < 1 ->
  calc_Tap r_ij Rcutinv
  = (fun x => 20 * x ^ 7 - 70 * x ^ 6 + 84 * x ^ 5 - 35 * x ^ 4 + 1)
      (r_ij * Rcutinv).
Proof.
  intros H. unfold calc_Tap.
  destruct (Rge_dec (r_ij * Rcutinv) 1) as [Hge | _]; [lra |].
  unfold coeff; simpl. ring.
Qed.

Lemma calc_Tap_outside (r_ij Rcutinv : R) :
  1 <= r_ij * Rcutinv -> calc_Tap r_ij Rcutinv = 0.
Proof.
  intros H. unfold calc_Tap.
  destruct (Rge_dec (r_ij * Rcutinv) 1) as [_ | Hn]; [reflexivity | lra].
Qed.

Lemma calc_dTap_inside (r_ij Rcut Rcutinv : R) :
  r_ij * Rcutinv < Rcut ->
  calc_dTap r_ij Rcut Rcutinv
  = (fun x => 140 * x ^ 6 - 420 * x ^ 5 + 420 * x ^ 4 - 140 * x ^ 3)
      (r_ij * Rcutinv) * Rcutinv.
Proof.
  intros H. unfold calc_dTap.
  destruct (Rge_dec (r_ij * Rcutinv) Rcut) as [Hge | _]; [lra |].
  unfold coeff; simpl. ring.
Qed.

Lemma reduced_bounds (r Rcut : R) :
  0 < Rcut -> (0 <= r -> 0 <= r * (1 / Rcut))
  /\ (r < Rcut -> r * (1 / Rcut) < 1)
  /\ (Rcut <= r -> 1 <= r * (1 / Rcut)).
Proof.
  intros Hpos.
  assert (Hinv : 0 < 1 / Rcut) by (apply Rdiv_lt_0_compat; lra).
  assert (E : Rcut * (1 / Rcut) = 1) by (field; lra).
  repeat split; intros H.
  - apply Rmult_le_pos; lra.
  - assert (0 < (Rcut - r) * (1 / Rcut)) by (apply Rmult_lt_0_compat; lra).
    lra.
  - assert (0 <= (r - Rcut) * (1 / Rcut)) by (apply Rmult_le_pos; lra).
    lra.
Qed.

Lemma Tap_poly_range (x : R) :
  0 <= x <= 1 ->
  0 <= 20 * x ^ 7 - 70 * x ^ 6 + 84 * x ^ 5 - 35 * x ^ 4 + 1 <= 1.
Proof.
  intros [H0 H1].
  assert (H2 : 0 <= x * x) by (apply Rmult_le_pos; lra).
  assert (H3 : 0 <= x * x * x) by (apply Rmult_le_pos; lra).
  assert (H4 : 0 <= x * x * (x * x)) by (apply Rmult_le_pos; lra).
  assert (Hy : 0 <= (1 - x) * (1 - x)) by (apply Rmult_le_pos; lra).
  assert (Hp : 0 <= (1 - x) * (1 - x) * ((1 - x) * (1 - x)))
    by (apply Rmult_le_pos; lra).
  assert (Hq : 0 <= 1 + 4 * x + 10 * (x * x) + 20 * (x * x * x)) by lra.
  assert (Hs : 0 <= 34 - 50 * x + 20 * (x * x)) by nra.
  assert (Hg : 0 <= 1 + (1 - x) * (34 - 50 * x + 20 * (x * x))).
  { assert (0 <= (1 - x) * (34 - 50 * x + 20 * (x * x)))
      by (apply Rmult_le_pos; lra).
    lra. }
  split.
  - replace (20 * x ^ 7 - 70 * x ^ 6 + 84 * x ^ 5 - 35 * x ^ 4 + 1)
      with ((1 - x) * (1 - x) * ((1 - x) * (1 - x))
            * (1 + 4 * x + 10 * (x * x) + 20 * (x * x * x))) by ring.
    apply Rmult_le_pos; assumption.
  - replace (20 * x ^ 7 - 70 * x ^ 6 + 84 * x ^ 5 - 35 * x ^ 4 + 1)
      with (1 - x * x * (x * x)
                * (1 + (1 - x) * (34 - 50 * x + 20 * (x * x)))) by ring.
    assert (0 <= x * x * (x * x)
                 * (1 + (1 - x) * (34 - 50 * x + 20 * (x * x))))
      by (apply Rmult_le_pos; assumption).
    lra.
Qed.

(** X1: the value evaluator is 1 at distance 0 and 0 at the cutoff, and for
    every distance [r_ij >= 0] its value lies between 0 and 1. *)
Theorem calc_Tap_range (r_ij Rcut : R) :
  0 < Rcut -> 0 <= r_ij ->
  calc_Tap 0 (1 / Rcut) = 1
  /\ calc_Tap Rcut (1 / Rcut) = 0
  /\ 0 <= calc_Tap r_ij (1 / Rcut) <= 1.
Proof.
  intros Hpos Hr.
  destruct (reduced_bounds r_ij Rcut Hpos) as [B0 [B1 B2]].
  split; [| split].
  - rewrite calc_Tap_inside by lra. cbv beta. ring.
  - apply calc_Tap_outside.
    destruct (reduced_bounds Rcut Rcut Hpos) as [_ [_ B]]. apply B. lra.
  - destruct (Rlt_le_dec r_ij Rcut) as [Hin | Hout].
    + rewrite calc_Tap_inside by auto. cbv beta.
      apply Tap_poly_range. split; [auto | ]. left. auto.
    + rewrite calc_Tap_outside by auto. lra.
Qed.

Lemma calc_Tap_range_witness :
  calc_Tap 0 (1 / 2) = 1 /\ calc_Tap 2 (1 / 2) = 0
  /\ 0 <= calc_Tap 1 (1 / 2) <= 1.
Proof. apply (calc_Tap_range 1 2); lra. Defined.


(** The polynomial of the value evaluator and its derivative. *)
Lemma Tap_poly_deriv (x : R) :
  derivable_pt_lim
    (fun x => 20 * x ^ 7 - 70 * x ^ 6 + 84 * x ^ 5 - 35 * x ^ 4 + 1) x
    (140 * x ^ 6 - 420 * x ^ 5 + 420 * x ^ 4 - 140 * x ^ 3).
Proof.
  eapply derivable_pt_lim_eq; [deriv |].
  cbv beta. simpl. ring.
Qed.

Lemma Tap_poly_deriv_sign (x : R) :
  0 <= x <= 1 -> 140 * x ^ 6 - 420 * x ^ 5 + 420 * x ^ 4 - 140 * x ^ 3 <= 0.
Proof.
  intros [H0 H1].
  replace (140 * x ^ 6 - 420 * x ^ 5 + 420 * x ^ 4 - 140 * x ^ 3)
    with (- (140 * (x * x * x) * ((1 - x) * (1 - x) * (1 - x)))) by ring.
  assert (0 <= x * x * x) by (repeat apply Rmult_le_pos; lra).
  assert (0 <= (1 - x) * (1 - x) * (1 - x))
    by (repeat apply Rmult_le_pos; lra).
  assert (0 <= 140 * (x * x * x) * ((1 - x) * (1 - x) * (1 - x)))
    by (repeat apply Rmult_le_pos; lra).
  lra.
Qed.

Lemma Tap_poly_decreasing (x y : R) :
  0 <= x -> x <= y -> y <= 1 ->
  20 * y ^ 7 - 70 * y ^ 6 + 84 * y ^ 5 - 35 * y ^ 4 + 1
  <= 20 * x ^ 7 - 70 * x ^ 6 + 84 * x ^ 5 - 35 * x ^ 4 + 1.
Proof.
  intros H0 Hxy H1.
  destruct (Req_dec x y) as [-> | Hne]; [lra |].
  destruct (MVT_cor2
              (fun x => 20 * x ^ 7 - 70 * x ^ 6 + 84 * x ^ 5 - 35 * x ^ 4 + 1)
              (fun x => 140 * x ^ 6 - 420 * x ^ 5 + 420 * x ^ 4 - 140 * x ^ 3)
              x y ltac:(lra) (fun c _ => Tap_poly_deriv c))
    as [c [E Hc]].
  cbv beta in E.
  assert (Hs := Tap_poly_deriv_sign c ltac:(lra)).
  assert (0 <= - (140 * c ^ 6 - 420 * c ^ 5 + 420 * c ^ 4 - 140 * c ^ 3)
               * (y - x)) by (apply Rmult_le_pos; lra).
  lra.
Qed.

(** X2: the value evaluator does not increase with the distance. *)
Theorem calc_Tap_decreasing (r r' Rcut : R) :
  0 < Rcut -> 0 <= r -> r <= r' ->
  calc_Tap r' (1 / Rcut) <= calc_Tap r (1 / Rcut).
Proof.
  intros Hpos H0 Hle.
  destruct (reduced_bounds r Rcut Hpos) as [A0 [A1 A2]].
  destruct (reduced_bounds r' Rcut Hpos) as [B0 [B1 B2]].
  destruct (Rlt_le_dec r' Rcut) as [Hin | Hout].
  - rewrite !calc_Tap_inside by (auto; apply A1; lra). cbv beta.
    assert (Hi : 0 < 1 / Rcut) by (apply Rdiv_lt_0_compat; lra).
    apply Tap_poly_decreasing.
    + apply A0; lra.
    + apply Rmult_le_compat_r; lra.
    + left. auto.
  - rewrite (calc_Tap_outside r') by auto.
    destruct (Rlt_le_dec r Rcut) as [Hin | Hout'].
    + rewrite calc_Tap_inside by auto. cbv beta.
      apply Tap_poly_range. split; [auto | left; auto].
    + rewrite calc_Tap_outside by auto. lra.
Qed.

Lemma calc_Tap_decreasing_witness :
  calc_Tap 2 (1 / 3) <= calc_Tap 1 (1 / 3).
Proof. apply calc_Tap_decreasing; lra. Defined.


Lemma calc_Tap_deriv_inside (r_ij Rcut : R) :
  0 < Rcut -> r_ij < Rcut ->
  derivable_pt_lim (fun r => calc_Tap r (1 / Rcut)) r_ij
    ((fun x => 140 * x ^ 6 - 420 * x ^ 5 + 420 * x ^ 4 - 140 * x ^ 3)
       (r_ij * (1 / Rcut)) * (1 / Rcut)).
Proof.
  intros Hpos Hin.
  apply derivable_pt_lim_locally_ext
    with (f := fun r => 20 * (r * (1 / Rcut)) ^ 7 - 70 * (r * (1 / Rcut)) ^ 6
                        + 84 * (r * (1 / Rcut)) ^ 5
                        - 35 * (r * (1 / Rcut)) ^ 4 + 1)
         (a := r_ij - 1) (b := Rcut).
  - lra.
  - intros z Hz. rewrite calc_Tap_inside; [reflexivity |].
    apply (reduced_bounds z Rcut Hpos). lra.
  - eapply derivable_pt_lim_eq; [deriv |].
    cbv beta. simpl. ring.
Qed.

Lemma calc_Tap_deriv_outside (r_ij Rcut : R) :
  0 < Rcut -> Rcut < r_ij ->
  derivable_pt_lim (fun r => calc_Tap r (1 / Rcut)) r_ij 0.
Proof.
  intros Hpos Hout.
  apply derivable_pt_lim_locally_ext
    with (f := fun _ : R => 0) (a := Rcut) (b := r_ij + 1).
  - lra.
  - intros z Hz. rewrite calc_Tap_outside; [reflexivity |].
    apply (reduced_bounds z Rcut Hpos). lra.
  - apply (derivable_pt_lim_const 0).
Qed.

Lemma calc_Tap_deriv_cutoff (Rcut : R) :
  0 < Rcut ->
  derivable_pt_lim (fun r => calc_Tap r (1 / Rcut)) Rcut 0.
Proof.
  intros Hpos eps Heps.
  assert (Hd : 0 < Rmin Rcut (eps * (Rcut * Rcut) / 35)).
  { apply Rmin_pos; [lra |]. apply Rdiv_lt_0_compat; [| lra].
    apply Rmult_lt_0_compat; [lra | apply Rmult_lt_0_compat; lra]. }
  exists (mkposreal _ Hd). intros h Hh Hlt. simpl in Hlt.
  assert (Hh1 : Rabs h < Rcut)
    by (eapply Rlt_le_trans; [exact Hlt | apply Rmin_l]).
  assert (Hh2 : Rabs h < eps * (Rcut * Rcut) / 35)
    by (eapply Rlt_le_trans; [exact Hlt | apply Rmin_r]).
  rewrite (calc_Tap_outside Rcut)
    by (apply (reduced_bounds Rcut Rcut Hpos); lra).
  destruct (Rlt_le_dec h 0) as [Hneg | Hnn].
  - rewrite Rabs_left in Hh1, Hh2 by exact Hneg.
    rewrite calc_Tap_inside
      by (apply (reduced_bounds (Rcut + h) Rcut Hpos); lra).
    cbv beta.
    set (t := - h / Rcut).
    assert (Ht0 : 0 < t) by (apply Rdiv_lt_0_compat; lra).
    assert (Ht1 : t < 1).
    { unfold t. apply Rmult_lt_reg_r with Rcut; [lra |].
      replace (- h / Rcut * Rcut) with (- h) by (field; lra). lra. }
    assert (Ht2 : t < eps * Rcut / 35).
    { unfold t. apply Rmult_lt_reg_r with Rcut; [lra |].
      replace (- h / Rcut * Rcut) with (- h) by (field; lra).
      replace (eps * Rcut / 35 * Rcut) with (eps * (Rcut * Rcut) / 35)
        by (field; lra).
      lra. }
    replace ((20 * ((Rcut + h) * (1 / Rcut)) ^ 7
              - 70 * ((Rcut + h) * (1 / Rcut)) ^ 6
              + 84 * ((Rcut + h) * (1 / Rcut)) ^ 5
              - 35 * ((Rcut + h) * (1 / Rcut)) ^ 4 + 1 - 0) / h - 0)
      with (- (t * t * t
               * (1 + 4 * (1 - t) + 10 * ((1 - t) * (1 - t))
                  + 20 * ((1 - t) * (1 - t) * (1 - t))) / Rcut))
      by (unfold t; field; lra).
    rewrite Rabs_Ropp. clearbody t.
    assert (Hq0 : 0 <= 1 + 4 * (1 - t) + 10 * ((1 - t) * (1 - t))
                       + 20 * ((1 - t) * (1 - t) * (1 - t))).
    { assert (0 <= (1 - t) * (1 - t)) by (apply Rmult_le_pos; lra).
      assert (0 <= (1 - t) * (1 - t) * (1 - t))
        by (apply Rmult_le_pos; lra).
      lra. }
    assert (Hq1 : 1 + 4 * (1 - t) + 10 * ((1 - t) * (1 - t))
                  + 20 * ((1 - t) * (1 - t) * (1 - t)) <= 35).
    { assert ((1 - t) * (1 - t) <= 1) by nra.
      assert (0 <= (1 - t) * (1 - t)) by (apply Rmult_le_pos; lra).
      assert ((1 - t) * (1 - t) * (1 - t) <= 1) by nra.
      lra. }
    assert (Ht3 : 0 <= t * t * t) by (repeat apply Rmult_le_pos; lra).
    assert (Ht4 : t * t * t <= t).
    { assert (t * t <= 1) by nra. nra. }
    set (q := 1 + 4 * (1 - t) + 10 * ((1 - t) * (1 - t))
              + 20 * ((1 - t) * (1 - t) * (1 - t))) in *.
    assert (Hprod : 0 <= t * t * t * q) by (apply Rmult_le_pos; lra).
    assert (Hprod2 : t * t * t * q <= t * 35).
    { apply Rmult_le_compat; lra. }
    rewrite Rabs_right.
    + apply Rmult_lt_reg_r with Rcut; [lra |].
      replace (t * t * t * q / Rcut * Rcut) with (t * t * t * q)
        by (field; lra).
      assert (t * 35 < eps * Rcut) by lra.
      lra.
    + apply Rle_ge. apply Rmult_le_pos; [exact Hprod |].
      left. apply Rinv_0_lt_compat. lra.
  - rewrite calc_Tap_outside
      by (apply (reduced_bounds (Rcut + h) Rcut Hpos); lra).
    replace ((0 - 0) / h - 0) with 0 by (field; exact Hh).
    rewrite Rabs_R0. exact Heps.
Qed.

(** X3: as a function of the distance the value evaluator is continuous,
    also across the cutoff. *)
Theorem calc_Tap_continuous (Rcut : R) :
  0 < Rcut -> continuity (fun r => calc_Tap r (1 / Rcut)).
Proof.
  intros Hpos r. apply derivable_continuous_pt.
  destruct (total_order_T r Rcut) as [[Hin | ->] | Hout].
  - eexists. apply calc_Tap_deriv_inside; assumption.
  - exists 0. apply calc_Tap_deriv_cutoff; assumption.
  - exists 0. apply calc_Tap_deriv_outside; assumption.
Qed.

Lemma calc_Tap_continuous_witness :
  continuity (fun r => calc_Tap r (1 / 2)).
Proof. apply calc_Tap_continuous. lra. Defined.

Lemma calc_Tap_has_derivative (r_ij Rcut : R) :
  0 < Rcut -> r_ij <= Rcut -> r_ij * (1 / Rcut) < Rcut ->
  derivable_pt_lim (fun r => calc_Tap r (1 / Rcut)) r_ij
                   (calc_dTap r_ij Rcut (1 / Rcut)).
Proof.
  intros Hpos Hle Hlt.
  rewrite calc_dTap_inside by exact Hlt.
  destruct Hle as [Hin | ->].
  - apply calc_Tap_deriv_inside; assumption.
  - eapply derivable_pt_lim_eq; [apply calc_Tap_deriv_cutoff; exact Hpos |].
    cbv beta. replace (Rcut * (1 / Rcut)) with 1 by (field; lra). ring.
Qed.

(** X4: up to the cutoff (and while the reduced distance is below [Rcut],
    the bound that the derivative evaluator tests) the derivative evaluator
    returns the derivative of the value evaluator with respect to the
    distance; at the cutoff itself that derivative is 0. *)
Theorem calc_dTap_is_derivative (r_ij Rcut : R) :
  0 < Rcut -> r_ij <= Rcut -> r_ij * (1 / Rcut) < Rcut ->
  derivable_pt_lim (fun r => calc_Tap r (1 / Rcut)) r_ij
                   (calc_dTap r_ij Rcut (1 / Rcut))
  /\ (r_ij = Rcut -> calc_dTap r_ij Rcut (1 / Rcut) = 0).
Proof.
  intros Hpos Hle Hlt. split.
  - apply calc_Tap_has_derivative; assumption.
  - intros ->. rewrite calc_dTap_inside by exact Hlt. cbv beta.
    replace (Rcut * (1 / Rcut)) with 1 by (field; lra). ring.
Qed.

Lemma calc_dTap_is_derivative_witness :
  derivable_pt_lim (fun r => calc_Tap r (1 / 2)) 1 (calc_dTap 1 2 (1 / 2)).
Proof. apply (calc_dTap_is_derivative 1 2); lra. Defined.

End TaperMore.

Module VdWMore.
Import Mem Normal ILP Calculus.
Open Scope R_scope.

Lemma one_plus_exp_pos (a : R) : 0 < 1 + exp a.
Proof. pose proof (exp_pos a). lra. Qed.

(** X5: the force output of [calc_vdW] is minus the derivative of its energy
    output with respect to the distance, divided by the distance: with a
    taper [T] that has the derivative [dT] at [r], the energy
    [p2_vdW = T * Vilp] as a function of the distance has the derivative
    [- r * f2_vdW] at [r]. *)
Theorem calc_vdW_force_is_gradient (T : R -> R) (dT r d d_Seff C_6 : R) :
  0 < r ->
  derivable_pt_lim T r dT ->
  derivable_pt_lim
    (fun s => fst (calc_vdW s (1 / s) (s * s) d d_Seff C_6 (T s) dT)) r
    (- r * snd (calc_vdW r (1 / r) (r * r) d d_Seff C_6 (T r) dT)).
Proof.
  intros Hr HT. unfold calc_vdW. cbn [fst snd].
  eapply derivable_pt_lim_eq.
  - deriv; try exact HT.
    all: cbv beta.
    all: try (apply Rgt_not_eq; apply one_plus_exp_pos).
    all: try (apply Rgt_not_eq; apply Rmult_lt_0_compat; exact Hr).
  - cbv beta. 
    pose proof (one_plus_exp_pos (- d_Seff * r + d)) as Hp.
    set (e := exp (- d_Seff * r + d)) in *.
    field. lra.
Qed.

Lemma calc_vdW_force_is_gradient_witness :
  derivable_pt_lim
    (fun s => fst (calc_vdW s (1 / s) (s * s) 3 1 1 (fct_cte 1 s) 0)) 2
    (- 2 * snd (calc_vdW 2 (1 / 2) (2 * 2) 3 1 1 (fct_cte 1 2) 0)).
Proof.
  apply (calc_vdW_force_is_gradient (fct_cte 1) 0 2 3 1 1);
    [lra | apply derivable_pt_lim_const].
Defined.

End VdWMore.

(** ** Theorems: geometry and derivatives of the normal *)

Module NormalMore.
Import Normal ILP NormalSpec JacobianSpec NormalFacts Calculus.
Open Scope R_scope.




Lemma magnitude_pos (a : arr1) :
  magnitude a <> 0 -> 0 < a c0 * a c0 + a c1 * a c1 + a c2 * a c2.
Proof.
  intros H.
  destruct (Rle_lt_dec (a c0 * a c0 + a c1 * a c1 + a c2 * a c2) 0)
    as [Hle | Hlt]; [| exact Hlt].
  exfalso. apply H. unfold magnitude.
  assert (E : a c0 * a c0 + a c1 * a c1 + a c2 * a c2 = 0) by nra.
  rewrite E. apply sqrt_0.
Qed.

(** The normalization of a vector that moves on a line: the derivative of
    [(a + s b) / |a + s b|] at [s = 0]. *)
Lemma unit_affine_deriv (a b : arr1) (id : ix) :
  magnitude a <> 0 ->
  derivable_pt_lim (fun s => unit_of (fun k => a k + s * b k) id) 0
    (b id * (1 / magnitude a)
     - a id * ((a c0 * b c0 + a c1 * b c1 + a c2 * b c2) * (1 / magnitude a))
       * (1 / magnitude a) * (1 / magnitude a)).
Proof.
  intros Hm. pose proof (magnitude_pos a Hm) as Hp.
  assert (E0 : forall k, a k + 0 * b k = a k) by (intros; ring).
  unfold unit_of, magnitude in *.
  destruct id; cbn [vec].
  all: eapply derivable_pt_lim_eq;
    [ deriv; rewrite ?E0; solve [exact Hm | exact Hp]
    | cbv beta; rewrite ?E0;
      set (sg := sqrt (a c0 * a c0 + a c1 * a c1 + a c2 * a c2)) in *;
      field; exact Hm ].
Qed.

Lemma n1_two_bump (vet : arr2) (m ip : ix) (s : R) (id : ix) :
  n1_two (bump vet m ip s) id = n1_two vet id + s * dpv12 vet id ip m.
Proof.
  destruct id, ip, m; unfold n1_two, pv12, dpv12, bump, by_atom, tab, zero2,
    vec; simpl; ring.
Qed.

Lemma n1_three_bump (vet : arr2) (m ip : ix) (s : R) (id : ix) :
  n1_three (bump vet m ip s) id
  = n1_three vet id
    + s * ((dpv12 vet id ip m + dpv23 vet id ip m + dpv31 vet id ip m)
           * (1 / 3)).
Proof.
  destruct id, ip, m; unfold n1_three, pv12, pv31, pv23, dpv12, dpv31,
    dpv23, bump, by_atom, tab, zero2, vec; simpl; field.
Qed.

Lemma n1_two_shift (vet : arr2) (ip : ix) (s : R) (id : ix) :
  n1_two (shift vet ip s) id = n1_two vet id + s * dpvdri vet id ip.
Proof.
  destruct id, ip; unfold n1_two, pv12, dpvdri, shift, tab, vec; simpl; ring.
Qed.

Lemma n1_three_shift (vet : arr2) (ip : ix) (s : R) (id : ix) :
  n1_three (shift vet ip s) id = n1_three vet id + s * 0.
Proof.
  destruct id, ip; unfold n1_three, pv12, pv31, pv23, shift, vec; simpl;
    field.
Qed.

(** The derivative of the normalization along a family of vectors that
    moves on a line. *)
Lemma normal_deriv_along (f : R -> arr1) (a b : arr1) (id : ix) :
  (forall s k, f s k = a k + s * b k) ->
  magnitude a <> 0 ->
  derivable_pt_lim (fun s => unit_of (f s) id) 0
    (b id * (1 / magnitude a)
     - a id * ((a c0 * b c0 + a c1 * b c1 + a c2 * b c2) * (1 / magnitude a))
       * (1 / magnitude a) * (1 / magnitude a)).
Proof.
  intros Hline Hm.
  apply derivable_pt_lim_ext
    with (f := fun s => unit_of (fun k => a k + s * b k) id).
  - intros s. apply unit_of_ext. intros k. symmetry. apply Hline.
  - apply unit_affine_deriv. exact Hm.
Qed.

Lemma calc_normal_cases (vet : arr2) (cont : Z) :
  ((cont <= 1)%Z
   /\ calc_normal vet cont zero_out
      = {| normal := vec 0 0 1; dnormdri := fun _ _ => 0;
           dnormal := fun _ _ _ => 0 |})
  \/ (cont = 2%Z /\ calc_normal vet cont zero_out = normal_two vet)
  \/ (cont = 3%Z /\ calc_normal vet cont zero_out = normal_three vet)
  \/ ((3 < cont)%Z /\ calc_normal vet cont zero_out = zero_out).
Proof.
  unfold calc_normal.
  destruct (Z.leb_spec cont 1); [left; split; [lia | reflexivity] |].
  destruct (Z.eqb_spec cont 2); [right; left; split; auto |].
  destruct (Z.eqb_spec cont 3); [right; right; left; split; auto |].
  right; right; right. split; [lia | reflexivity].
Qed.

(** The derivative of the normal with respect to the coordinate [ip] of
    neighbor [m], for every bond count. *)
Lemma normal_bump_deriv (vet : arr2) (cont : Z) (id ip m : ix) :
  nondegenerate vet cont ->
  derivable_pt_lim
    (fun s => normal (calc_normal (bump vet m ip s) cont zero_out) id) 0
    (dnormal (calc_normal vet cont zero_out) id ip m).
Proof.
  intros [H2 H3].
  destruct (calc_normal_cases vet cont) as [[Hc E] | [[Hc E] | [[Hc E] | [Hc E]]]].
  - rewrite E. cbn [dnormal].
    apply derivable_pt_lim_ext with (f := fun _ : R => vec 0 0 1 id);
      [| apply (derivable_pt_lim_const (vec 0 0 1 id))].
    intros s. unfold calc_normal.
    destruct (Z.leb_spec cont 1); [reflexivity | lia].
  - subst cont. eapply derivable_pt_lim_eq.
    + apply (normal_deriv_along (fun s => n1_two (bump vet m ip s))
               (n1_two vet) (fun k => dpv12 vet k ip m) id);
        [intros s k; apply n1_two_bump | exact (H2 eq_refl)].
    + reflexivity.
  - subst cont. eapply derivable_pt_lim_eq.
    + apply (normal_deriv_along (fun s => n1_three (bump vet m ip s))
               (n1_three vet)
               (fun k => (dpv12 vet k ip m + dpv23 vet k ip m
                          + dpv31 vet k ip m) * (1 / 3)) id);
        [intros s k; apply n1_three_bump | exact (H3 eq_refl)].
    + reflexivity.
  - rewrite E. cbn [dnormal zero_out].
    apply derivable_pt_lim_ext with (f := fun _ : R => 0);
      [| apply (derivable_pt_lim_const 0)].
    intros s. unfold calc_normal.
    destruct (Z.leb_spec cont 1); [lia |].
    destruct (Z.eqb_spec cont 2); [lia |].
    destruct (Z.eqb_spec cont 3); [lia | reflexivity].
Qed.

(** The derivative of the normal with respect to the coordinate [ip] of
    the central atom, for every bond count. *)
Lemma normal_shift_deriv (vet : arr2) (cont : Z) (id ip : ix) :
  nondegenerate vet cont ->
  derivable_pt_lim
    (fun s => normal (calc_normal (shift vet ip s) cont zero_out) id) 0
    (dnormdri (calc_normal vet cont zero_out) id ip).
Proof.
  intros [H2 H3].
  destruct (calc_normal_cases vet cont) as [[Hc E] | [[Hc E] | [[Hc E] | [Hc E]]]].
  - rewrite E. cbn [dnormdri].
    apply derivable_pt_lim_ext with (f := fun _ : R => vec 0 0 1 id);
      [| apply (derivable_pt_lim_const (vec 0 0 1 id))].
    intros s. unfold calc_normal.
    destruct (Z.leb_spec cont 1); [reflexivity | lia].
  - subst cont. eapply derivable_pt_lim_eq.
    + apply (normal_deriv_along (fun s => n1_two (shift vet ip s))
               (n1_two vet) (fun k => dpvdri vet k ip) id);
        [intros s k; apply n1_two_shift | exact (H2 eq_refl)].
    + reflexivity.
  - subst cont. eapply derivable_pt_lim_eq.
    + apply (normal_deriv_along (fun s => n1_three (shift vet ip s))
               (n1_three vet) (fun _ => 0) id);
        [intros s k; apply n1_three_shift | exact (H3 eq_refl)].
    + cbn [calc_normal Z.leb Z.eqb Z.compare Pos.compare Pos.compare_cont
           Pos.eqb normal_three dnormdri].
      ring.
  - rewrite E. cbn [dnormdri zero_out].
    apply derivable_pt_lim_ext with (f := fun _ : R => 0);
      [| apply (derivable_pt_lim_const 0)].
    intros s. unfold calc_normal.
    destruct (Z.leb_spec cont 1); [lia |].
    destruct (Z.eqb_spec cont 2); [lia |].
    destruct (Z.eqb_spec cont 3); [lia | reflexivity].
Qed.



(** X8: for every bond count, when the non-normalized normal is not zero,
    [dnormal[id][ip][m]] is the derivative of [normal[id]] with respect to
    the coordinate [ip] of neighbor [m] (the arrays are handed over zeroed,
    as the force kernel does). *)
Theorem dnormal_is_jacobian (vet : arr2) (cont : Z) (id ip m : ix) :
  nondegenerate vet cont ->
  derivable_pt_lim
    (fun s => normal (calc_normal (bump vet m ip s) cont zero_out) id) 0
    (dnormal (calc_normal vet cont zero_out) id ip m).
Proof. apply normal_bump_deriv. Qed.

(** X9: for every bond count, when the non-normalized normal is not zero,
    [dnormdri[id][ip]] is the derivative of [normal[id]] with respect to
    the coordinate [ip] of the central atom; in the three-bond branch the
    normal does not depend on the position of the central atom at all. *)
Theorem dnormdri_is_jacobian (vet : arr2) (cont : Z) (id ip : ix) :
  nondegenerate vet cont ->
  derivable_pt_lim
    (fun s => normal (calc_normal (shift vet ip s) cont zero_out) id) 0
    (dnormdri (calc_normal vet cont zero_out) id ip)
  /\ (forall s out, normal (calc_normal (shift vet ip s) 3 out) id
                    = normal (calc_normal vet 3 out) id).
Proof.
  intros Hn. split; [apply normal_shift_deriv; exact Hn |].
  intros s out. simpl. apply unit_of_ext. intros k.
  rewrite n1_three_shift. ring.
Qed.

(** X10: when the non-normalized normal is not zero, the derivatives of the
    normal are perpendicular to the normal, as those of a vector of
    constant length are. *)
Theorem normal_derivatives_tangent (vet : arr2) (out : normal_out)
    (ip m : ix) :
  (magnitude (n1_two vet) <> 0 ->
   dot (normal (calc_normal vet 2 out))
       (fun id => dnormal (calc_normal vet 2 out) id ip m) = 0
   /\ dot (normal (calc_normal vet 2 out))
          (fun id => dnormdri (calc_normal vet 2 out) id ip) = 0)
  /\ (magnitude (n1_three vet) <> 0 ->
      dot (normal (calc_normal vet 3 out))
          (fun id => dnormal (calc_normal vet 3 out) id ip m) = 0
      /\ dot (normal (calc_normal vet 3 out))
             (fun id => dnormdri (calc_normal vet 3 out) id ip) = 0).
Proof.
  assert (Hgen : forall (a b : arr1), magnitude a <> 0 ->
            dot (unit_of a)
                (fun id => b id * (1 / magnitude a)
                   - a id * ((a c0 * b c0 + a c1 * b c1 + a c2 * b c2)
                             * (1 / magnitude a))
                     * (1 / magnitude a) * (1 / magnitude a)) = 0).
  { intros a b Hm. pose proof (magnitude_sqr a) as Hs.
    unfold norm2 in Hs. unfold dot, unit_of, vec.
    set (sg := magnitude a) in *.
    assert (E : a c0 * a c0 + a c1 * a c1 + a c2 * a c2 = sg * sg)
      by (symmetry; exact Hs).
    apply Rmult_eq_reg_l with (sg * sg * sg * sg);
      [| repeat apply Rmult_integral_contrapositive_currified; exact Hm].
    rewrite Rmult_0_r.
    transitivity
      ((a c0 * b c0 + a c1 * b c1 + a c2 * b c2)
       * (sg * sg - (a c0 * a c0 + a c1 * a c1 + a c2 * a c2)));
      [field; exact Hm | rewrite E; ring]. }
  split; intros Hm; split.
  - exact (Hgen (n1_two vet) (fun k => dpv12 vet k ip m) Hm).
  - exact (Hgen (n1_two vet) (fun k => dpvdri vet k ip) Hm).
  - exact (Hgen (n1_three vet)
             (fun k => (dpv12 vet k ip m + dpv23 vet k ip m
                        + dpv31 vet k ip m) * (1 / 3)) Hm).
  - unfold dot.
    cbn [calc_normal Z.leb Z.eqb Z.compare Pos.compare Pos.compare_cont
         Pos.eqb normal_three dnormdri].
    ring.
Qed.

Lemma n1_two_xy : forall id, n1_two vet_xy id = vec 0 0 1 id.
Proof. intros []; unfold n1_two, pv12, vet_xy, tab, vec; ring. Qed.

Lemma magnitude_two_xy : magnitude (n1_two vet_xy) <> 0.
Proof. rewrite (magnitude_001 _ n1_two_xy). lra. Qed.

Lemma magnitude_three_tri : magnitude (n1_three vet_tri) <> 0.
Proof. rewrite (magnitude_001 _ n1_three_tri). lra. Qed.

Lemma nondegenerate_xy : nondegenerate vet_xy 2.
Proof.
  split; [intros _; exact magnitude_two_xy | intros H; discriminate H].
Qed.

Lemma nondegenerate_tri : nondegenerate vet_tri 3.
Proof.
  split; [intros H; discriminate H | intros _; exact magnitude_three_tri].
Qed.

Lemma dnormal_is_jacobian_witness :
  derivable_pt_lim
    (fun s => normal (calc_normal (bump vet_xy c0 c2 s) 2 zero_out) c0) 0
    (dnormal (calc_normal vet_xy 2 zero_out) c0 c2 c0).
Proof.
  apply (dnormal_is_jacobian vet_xy 2 c0 c2 c0). exact nondegenerate_xy.
Defined.

Lemma dnormdri_is_jacobian_witness :
  derivable_pt_lim
    (fun s => normal (calc_normal (shift vet_tri c2 s) 3 zero_out) c0) 0
    (dnormdri (calc_normal vet_tri 3 zero_out) c0 c2).
Proof.
  apply (dnormdri_is_jacobian vet_tri 3 c0 c2). exact nondegenerate_tri.
Defined.

Lemma normal_derivatives_tangent_witness :
  dot (normal (calc_normal vet_xy 2 zero_out))
      (fun id => dnormal (calc_normal vet_xy 2 zero_out) id c0 c0) = 0
  /\ dot (normal (calc_normal vet_tri 3 zero_out))
         (fun id => dnormal (calc_normal vet_tri 3 zero_out) id c0 c0) = 0.
Proof.
  split.
  - apply (normal_derivatives_tangent vet_xy zero_out c0 c0).
    exact magnitude_two_xy.
  - apply (normal_derivatives_tangent vet_tri zero_out c0 c0).
    exact magnitude_three_tri.
Defined.

End NormalMore.

(** ** Theorems: the pair forces are gradients of the pair energies *)

Module PairMore.
Import Mem Normal ILP JacobianSpec PairSpec Calculus TaperMore VdWMore NormalMore.
Open Scope R_scope.












End PairMore.

(** ** Theorems: the two searches of the reduction pass *)

Module SearchMore.
Import Mem MemFacts Normal ILP Reads.

Section Search.
Variable Box : Type.
Variable sys : system Box.

Local Notation N := (number_of_particles sys).

Lemma shiftr1_bounds (l r : Z) :
  (l < r)%Z -> (l <= Z.shiftr (l + r) 1 < r)%Z.
Proof.
  intros H. rewrite Z.shiftr_div_pow2 by lia. change (2 ^ 1)%Z with 2%Z.
  pose proof (Z.div_mod (l + r) 2 ltac:(lia)).
  pose proof (Z.mod_pos_bound (l + r) 2 ltac:(lia)). lia.
Qed.

(** The result of the binary search is the probe that it starts with or a
    probe inside the interval; it needs the probed entries to be
    readable. *)
Lemma find_offset_result (n2 n1 l r m : Z) :
  (forall i, (l <= i < r)%Z ->
     (0 <= n2 + N * i < Z.of_nat (List.length (g_neighbor_list sys)))%Z) ->
  exists k, find_offset sys n2 n1 l r m = Ok k
            /\ (k = m \/ (l <= k < r)%Z).
Proof.
  funelim (find_offset sys n2 n1 l r m); intros Hrd.
  - exists m. split; [reflexivity | left; reflexivity].
  - exfalso.
    match goal with
    | Hf : rd _ _ _ = Fault _ |- _ =>
        rewrite (rd_ok _ _ 0%Z) in Hf;
          [discriminate Hf | apply Hrd; apply shiftr1_bounds; assumption]
    end.
  - pose proof (shiftr1_bounds l r ltac:(assumption)) as Hb.
    match goal with
    | IH : _ -> exists k, find_offset _ _ _ _ _ _ = _ /\ _ |- _ =>
        destruct IH as [k [Ek Hk]]; [intros i Hi; apply Hrd; lia |]
    end.
    exists k. split; [exact Ek |]. right. lia.
  - pose proof (shiftr1_bounds l r ltac:(assumption)) as Hb.
    match goal with
    | IH : _ -> exists k, find_offset _ _ _ _ _ _ = _ /\ _ |- _ =>
        destruct IH as [k [Ek Hk]]; [intros i Hi; apply Hrd; lia |]
    end.
    exists k. split; [exact Ek |]. right. lia.
  - pose proof (shiftr1_bounds l r ltac:(assumption)) as Hb.
    eexists. split; [reflexivity |]. right. lia.
Qed.

(** X14: the binary search of the first loop of the reduction pass always
    ends, and the offset it returns is 0 or lies below the neighbor count of
    [n2]: the slot of the pairwise buffer that the pass then reads is in a
    row of [n2] that is in use, or in row 0. *)
Theorem find_offset_in_range (n2 n1 neighor_number_2 : Z) :
  (forall i, (0 <= i < neighor_number_2)%Z ->
     (0 <= n2 + N * i < Z.of_nat (List.length (g_neighbor_list sys)))%Z) ->
  exists offset,
    find_offset sys n2 n1 0 neighor_number_2 0 = Ok offset
    /\ (0 <= offset)%Z
    /\ (offset = 0 \/ offset < neighor_number_2)%Z.
Proof.
  intros Hrd.
  destruct (find_offset_result n2 n1 0 neighor_number_2 0 Hrd)
    as [k [Ek Hk]].
  exists k. split; [exact Ek |]. lia.
Qed.


End Search.

End SearchMore.

(** ** Theorems: the builder kernel as a whole *)

Module BuilderMore.
Import Mem MemFacts Normal ILP Reads BuilderSpec BuilderFacts.

Lemma zrange_NoDup (lo hi : Z) : NoDup (zrange lo hi).
Proof.
  remember (Z.to_nat (hi - lo)) as n eqn:En. revert lo En.
  induction n as [| n IH]; intros lo En.
  - rewrite zrange_nil by lia. constructor.
  - rewrite zrange_cons by lia. constructor.
    + rewrite zrange_in. lia.
    + apply IH. lia.
Qed.

Section Builder.
Variable Box : Type.
Variable apply_mic : Box -> R -> R -> R -> R * R * R.
Variable sys : system Box.

Local Notation N := (number_of_particles sys).
Local Notation keptb := (BuilderSpec.keptb apply_mic sys).
Local Notation general_neighbors := (BuilderSpec.general_neighbors sys).
Local Notation secondary_neighbors := (BuilderSpec.secondary_neighbors sys).
Local Notation wf_atom := (BuilderSpec.wf_atom sys).
Local Notation wf_nl := (BuilderSpec.wf_nl sys).
Local Notation after_thread := (BuilderSpec.after_thread apply_mic sys).

(** Atom [n1] has no more qualifying neighbors than the list has rows. *)
Local Notation fits n1 :=
  (Z.of_nat (List.length (filter (keptb n1) (general_neighbors n1)))
   <= MAX_ILP_NEIGHBOR)%Z.

Lemma column_distinct (n n1 k j : Z) :
  (0 <= n < N)%Z -> (0 <= n1 < N)%Z -> n <> n1 -> (0 <= k)%Z -> (0 <= j)%Z ->
  Z.to_nat (k * N + n) <> Z.to_nat (j * N + n1).
Proof.
  intros Hn Hn1 Hne Hk Hj E.
  assert (E' : (k * N + n = j * N + n1)%Z) by nia.
  destruct (Z.lt_trichotomy k j) as [H | [H | H]]; nia.
Qed.

Lemma after_thread_wf (n1 : Z) (st : nl_state) :
  wf_nl st -> wf_nl (after_thread n1 st).
Proof.
  intros [H1 H2]. split; unfold BuilderSpec.after_thread; cbn.
  - now rewrite length_upd.
  - now rewrite put_length.
Qed.

Lemma after_thread_other (n1 n : Z) (st : nl_state) :
  (0 <= n1 < N)%Z -> (0 <= n < N)%Z -> n <> n1 ->
  at_Z (ilp_neighbor_number (after_thread n1 st)) n
  = at_Z (ilp_neighbor_number st) n
  /\ forall k, (0 <= k)%Z ->
       at_Z (ilp_neighbor_list (after_thread n1 st)) (k * N + n)
       = at_Z (ilp_neighbor_list st) (k * N + n).
Proof.
  intros Hn1 Hn Hne. unfold BuilderSpec.after_thread, at_Z; cbn. split.
  - apply nth_upd_other. lia.
  - intros k Hk. apply put_other; try lia.
    intros j Hj. apply column_distinct; auto; lia.
Qed.

Lemma secondary_congr (st st' : nl_state) (n : Z) :
  at_Z (ilp_neighbor_number st') n = at_Z (ilp_neighbor_number st) n ->
  (forall k, (0 <= k)%Z ->
     at_Z (ilp_neighbor_list st') (k * N + n)
     = at_Z (ilp_neighbor_list st) (k * N + n)) ->
  secondary_neighbors st' n = secondary_neighbors st n.
Proof.
  intros Hc He. unfold BuilderSpec.secondary_neighbors. rewrite Hc.
  apply map_ext_in. intros k Hk. apply zrange_in in Hk. apply He. lia.
Qed.

(** The threads of a set of atoms, in any order: each leaves the list of
    its atom and touches neither the count nor the column of another
    atom. *)
Lemma ILP_neighbor_threads (l : list Z) : forall st : nl_state,
  NoDup l ->
  (forall n, In n l -> wf_atom n /\ fits n) ->
  wf_nl st ->
  exists st',
    for_each l (ILP_neighbor_thread apply_mic sys) st = Ok st'
    /\ wf_nl st'
    /\ printed st' = printed st
    /\ (forall n, In n l ->
          secondary_neighbors st' n = filter (keptb n) (general_neighbors n))
    /\ (forall n, (0 <= n < N)%Z -> ~ In n l ->
          at_Z (ilp_neighbor_number st') n = at_Z (ilp_neighbor_number st) n
          /\ forall k, (0 <= k)%Z ->
               at_Z (ilp_neighbor_list st') (k * N + n)
               = at_Z (ilp_neighbor_list st) (k * N + n)).
Proof.
  induction l as [| a l IH]; intros st Hnd Hl Hst.
  - exists st. cbn [for_each].
    split; [reflexivity |]. split; [exact Hst |]. split; [reflexivity |].
    split; [intros n [] | intros n _ _; split; auto].
  - inversion Hnd as [| ? ? Hnotin Hnd']; subst.
    destruct (Hl a (or_introl eq_refl)) as [Hwa Hfa].
    cbn [for_each].
    rewrite (ILP_neighbor_thread_closed apply_mic Hwa Hst Hfa). cbn [bind].
    destruct (IH (after_thread a st) Hnd' (fun n H => Hl n (or_intror H))
                 (after_thread_wf a st Hst))
      as [st' [Hrun [Hwf' [Hpr [Hin Hout]]]]].
    pose proof (wf_n1 Hwa) as Ha.
    exists st'. split; [exact Hrun |]. split; [exact Hwf' |].
    split; [rewrite Hpr; reflexivity |]. split.
    + intros n [<- | Hn]; [| apply Hin; exact Hn].
      destruct (Hout a Ha Hnotin) as [Hc He].
      rewrite (secondary_congr _ _ _ Hc He).
      apply (secondary_after_thread apply_mic Hwa Hst Hfa).
    + intros n Hn Hnot.
      assert (Hna : n <> a) by (intros ->; apply Hnot; left; reflexivity).
      destruct (Hout n Hn (fun H => Hnot (or_intror H))) as [Hc He].
      destruct (after_thread_other a n st Ha Hn Hna) as [Hc' He'].
      split; [congruence |].
      intros k Hk. rewrite He by exact Hk. apply He'. exact Hk.
Qed.

Lemma fresh_nl_wf : (0 <= N)%Z -> wf_nl (fresh_nl sys).
Proof.
  intros HN. unfold BuilderSpec.wf_nl, fresh_nl, MAX_ILP_NEIGHBOR; cbn.
  rewrite !repeat_length. lia.
Qed.

(** X16: the builder kernel as a whole.  When every atom of the range has
    well-formed input and at most [MAX_ILP_NEIGHBOR] qualifying neighbors,
    the kernel finishes without a diagnostic; the secondary list of every
    atom of the range holds, in order, the general-neighbor entries that
    pass the test, and every other atom has an empty list: no thread writes
    into the count or the column of another atom. *)
Theorem ILP_neighbor_builds :
  (0 <= N)%Z ->
  (forall n1, (N1 sys <= n1 < N2 sys)%Z -> wf_atom n1 /\ fits n1) ->
  exists st',
    ILP_neighbor apply_mic sys (fresh_nl sys) = Ok st'
    /\ printed st' = []
    /\ (forall n1, (N1 sys <= n1 < N2 sys)%Z ->
          secondary_neighbors st' n1
          = filter (keptb n1) (general_neighbors n1))
    /\ (forall n, (0 <= n < N)%Z -> ~ (N1 sys <= n < N2 sys)%Z ->
          secondary_neighbors st' n = []).
Proof.
  intros HN Hall. unfold ILP_neighbor.
  destruct (ILP_neighbor_threads (zrange (N1 sys) (N2 sys)) (fresh_nl sys)
              (zrange_NoDup _ _)
              (fun n H => Hall n (proj1 (zrange_in _ _ _) H))
              (fresh_nl_wf HN))
    as [st' [Hrun [_ [Hpr [Hin Hout]]]]].
  exists st'. split; [exact Hrun |]. split; [exact Hpr |]. split.
  - intros n1 Hn1. apply Hin. apply zrange_in. exact Hn1.
  - intros n Hn Hnot.
    destruct (Hout n Hn (fun H => Hnot (proj1 (zrange_in _ _ _) H)))
      as [Hc _].
    unfold BuilderSpec.secondary_neighbors. rewrite Hc.
    unfold fresh_nl, at_Z; cbn.
    rewrite nth_repeat. reflexivity.
Qed.

End Builder.

End BuilderMore.

(** ** Theorems: the slots that a thread of a kernel writes *)

Module OwnershipFacts.
Import Mem MemFacts Normal ILP Reads ForceSpec ForceFacts.
Open Scope R_scope.

Lemma wr_inv {A} name (a a' : list A) (i : Z) (v : A) :
  wr name a i v = Ok a' ->
  (0 <= i < Z.of_nat (List.length a))%Z /\ a' = upd a (Z.to_nat i) v.
Proof.
  unfold wr. intros H.
  destruct (Z.leb_spec 0 i); destruct (Z.ltb_spec i (Z.of_nat (List.length a)));
    cbn in H; try discriminate H.
  split; [lia | congruence].
Qed.

Lemma add_at_inv name (a a' : list R) (i : Z) (v : R) :
  add_at name a i v = Ok a' ->
  (0 <= i < Z.of_nat (List.length a))%Z /\ a' = add_upd a i v.
Proof.
  intros H. unfold add_at in H.
  destruct (rd name a i) as [old | f] eqn:E; cbn [bind] in H;
    [| discriminate H].
  apply rd_inv in E. destruct E as [Hi E].
  apply wr_inv in H. destruct H as [_ ->].
  split; [exact Hi |]. unfold add_upd.
  rewrite (nth_error_nth _ _ 0 E). reflexivity.
Qed.

Lemma wr3_inv name (a a' : ix -> list R) (i : Z) (v : arr1) :
  wr3 name a i v = Ok a' -> (0 <= i)%Z /\ a' = upd3 a i v.
Proof.
  intros H. unfold wr3 in H.
  destruct (wr name (a c0) i (v c0)) eqn:E0; cbn [bind] in H;
    [| discriminate H].
  destruct (wr name (a c1) i (v c1)) eqn:E1; cbn [bind] in H;
    [| discriminate H].
  destruct (wr name (a c2) i (v c2)) eqn:E2; cbn [bind] in H;
    [| discriminate H].
  apply wr_inv in E0, E1, E2.
  destruct E0 as [Hi ->], E1 as [_ ->], E2 as [_ ->].
  split; [lia |]. injection H as <-. reflexivity.
Qed.

Lemma add3_inv name (a a' : ix -> list R) (i : Z) (v : arr1) :
  add3 name a i v = Ok a' ->
  (0 <= i)%Z /\ a' = upd3 a i (fun c => at3 a i c + v c).
Proof.
  intros H. unfold add3 in H.
  destruct (add_at name (a c0) i (v c0)) eqn:E0; cbn [bind] in H;
    [| discriminate H].
  destruct (add_at name (a c1) i (v c1)) eqn:E1; cbn [bind] in H;
    [| discriminate H].
  destruct (add_at name (a c2) i (v c2)) eqn:E2; cbn [bind] in H;
    [| discriminate H].
  apply add_at_inv in E0, E1, E2.
  destruct E0 as [Hi ->], E1 as [_ ->], E2 as [_ ->].
  split; [lia |]. injection H as <-. reflexivity.
Qed.

Lemma nth_add_upd_other (a : list R) (i : Z) (v : R) (j : nat) :
  j <> Z.to_nat i -> nth j (add_upd a i v) 0 = nth j a 0.
Proof. intros H. apply nth_upd_other. congruence. Qed.

Lemma nth_upd3_other (a : ix -> list R) (i : Z) (v : arr1) (j : nat)
    (c : ix) :
  j <> Z.to_nat i -> nth j (upd3 a i v c) 0 = nth j (a c) 0.
Proof.
  intros H. destruct c; cbn [upd3 fam]; apply nth_upd_other; congruence.
Qed.

(** Slot [k] of atom [j] and slot [i1] of atom [n1] of an array with
    stride [N] are not the same entry. *)
Lemma slot_distinct (N j n1 k i1 : Z) :
  (0 <= j < N)%Z -> (0 <= n1 < N)%Z -> j <> n1 -> (0 <= k)%Z -> (0 <= i1)%Z ->
  Z.to_nat (j + N * k) <> Z.to_nat (n1 + N * i1).
Proof.
  intros Hj Hn Hne Hk Hi E.
  assert (E' : (j + N * k = n1 + N * i1)%Z) by nia.
  destruct (Z.lt_trichotomy k i1) as [H | [H | H]]; nia.
Qed.


(** Take apart a run of loads, tests and stores that ended well. *)
Ltac inv_run H :=
  repeat
    match type of H with
    | bind ?m _ = Ok _ =>
        let E := fresh "E" in
        destruct m eqn:E; cbn [bind] in H; [| discriminate H]
    | (if ?b then _ else _) = Ok _ => destruct b
    | (match ?p with pair _ _ => _ end) = Ok _ => destruct p
    end.

Section Frame.
Variable Box : Type.
Variable apply_mic : Box -> R -> R -> R -> R * R * R.
Variable sys : system Box.

Local Notation N := (number_of_particles sys).

Lemma save_virial_frame (vir vir' : list R) (n1 : Z) (s_s : arr2)
    (idx : nat) :
  save_virial sys vir n1 s_s = Ok vir' ->
  (forall k, (0 <= k < 9)%Z -> idx <> Z.to_nat (n1 + k * N)) ->
  nth idx vir' 0 = nth idx vir 0.
Proof.
  intros H Hidx. unfold save_virial in H. cbv zeta in H.
  inv_run H.
  apply add_at_inv in H. destruct H as [_ ->].
  repeat match goal with
         | E : add_at _ _ _ _ = Ok _ |- _ =>
             apply add_at_inv in E; destruct E as [_ ->]
         end.
  rewrite !nth_add_upd_other by (apply Hidx; lia).
  reflexivity.
Qed.

Lemma force_step_frame (nl_count : Z) (nrm : normal_out) (dkh : arr2)
    (n1 type1 : Z) (x1 y1 z1 : R) (i1 : Z) (a a' : sums) (idx : nat)
    (c : ix) :
  force_step apply_mic sys nl_count nrm dkh n1 type1 x1 y1 z1 i1 a = Ok a' ->
  idx <> Z.to_nat (n1 + N * i1) ->
  nth idx (f12_buf a' c) 0 = nth idx (f12_buf a c) 0.
Proof.
  intros H Hidx. unfold force_step in H. cbv zeta in H.
  inv_run H; try (injection H as <-; reflexivity).
  injection H as <-. cbn [f12_buf].
  match goal with
  | E : wr3 _ _ _ _ = Ok _ |- _ => apply wr3_inv in E; destruct E as [_ ->]
  end.
  apply nth_upd3_other. exact Hidx.
Qed.

Lemma force_loop_frame (nl_count : Z) (nrm : normal_out) (dkh : arr2)
    (n1 type1 : Z) (x1 y1 z1 : R) (l : list Z) : forall (a a' : sums)
    (idx : nat) (c : ix),
  for_each l (force_step apply_mic sys nl_count nrm dkh n1 type1 x1 y1 z1) a
  = Ok a' ->
  (forall i1, In i1 l -> idx <> Z.to_nat (n1 + N * i1)) ->
  nth idx (f12_buf a' c) 0 = nth idx (f12_buf a c) 0.
Proof.
  induction l as [| i1 l IH]; intros a a' idx c H Hidx; cbn [for_each] in H.
  - injection H as <-. reflexivity.
  - inv_run H.
    rewrite (IH _ _ idx c H) by (intros; apply Hidx; now right).
    eapply force_step_frame; [eassumption |]. apply Hidx. now left.
Qed.

Lemma at3_nth (a b : ix -> list R) (i : Z) :
  (forall c, nth (Z.to_nat i) (a c) 0 = nth (Z.to_nat i) (b c) 0) ->
  forall c, at3 a i c = at3 b i c.
Proof. intros H []; unfold at3; cbn [vec]; apply H. Qed.

(** X17: a thread of the force kernel writes only entries of its own atom.
    When the thread of [n1] finishes, every entry that belongs to another
    atom [j] is as before: its force, its potential energy, its nine virial
    components, and every slot of its column in the pairwise and in the
    many-body buffer. *)
Theorem gpu_find_force_thread_owns (nl : nl_state) (n1 : Z)
    (fs fs' : force_state) (j : Z) :
  (0 <= n1 < N)%Z -> (0 <= j < N)%Z -> j <> n1 ->
  gpu_find_force_thread apply_mic sys nl n1 fs = Ok fs' ->
  (forall c, at3 (g_f fs') j c = at3 (g_f fs) j c)
  /\ at_R (g_potential fs') j = at_R (g_potential fs) j
  /\ (forall k, (0 <= k)%Z ->
        at_R (g_virial fs') (j + k * N) = at_R (g_virial fs) (j + k * N)
        /\ (forall c, at3 (g_f12 fs') (j + N * k) c
                      = at3 (g_f12 fs) (j + N * k) c)
        /\ (forall c, at3 (g_f12_ilp_neigh fs') (j + N * k) c
                      = at3 (g_f12_ilp_neigh fs) (j + N * k) c)).
Proof.
  intros Hn1 Hj Hne H.
  unfold gpu_find_force_thread in H. cbv zeta in H.
  inv_run H. injection H as <-.
  cbn [g_f g_virial g_potential g_f12 g_f12_ilp_neigh].
  repeat match goal with
         | E : add3 _ _ _ _ = Ok _ |- _ =>
             apply add3_inv in E; destruct E as [_ ->]
         | E : wr3 _ _ _ _ = Ok _ |- _ =>
             apply wr3_inv in E; destruct E as [_ ->]
         | E : add_at _ _ _ _ = Ok _ |- _ =>
             apply add_at_inv in E; destruct E as [_ ->]
         end.
  assert (Hshift : Z.shiftl N 1 = (N * 2)%Z)
    by (rewrite Z.shiftl_mul_pow2 by lia; reflexivity).
  split; [| split].
  - apply at3_nth. intros c. apply nth_upd3_other. lia.
  - unfold at_R. apply nth_add_upd_other. lia.
  - intros k Hk. split; [| split].
    + unfold at_R. eapply save_virial_frame; [eassumption |].
      intros k' Hk'.
      replace (j + k * N)%Z with (j + N * k)%Z by lia.
      replace (n1 + k' * N)%Z with (n1 + N * k')%Z by lia.
      apply slot_distinct; lia.
    + apply at3_nth. intros c.
      match goal with
      | E : for_each _ (force_step _ _ _ _ _ _ _ _ _ _) ?a0 = Ok _ |- _ =>
          change (g_f12 fs c) with (f12_buf a0 c);
          apply (force_loop_frame _ _ _ _ _ _ _ _ _ _ _ _ _ E)
      end.
      intros i1 Hi1. apply zrange_in in Hi1.
      apply slot_distinct; lia.
    + apply at3_nth. intros c. cbn [vec3z]. rewrite Hshift.
      assert (D : forall i1, (0 <= i1)%Z ->
                    Z.to_nat (j + N * k) <> Z.to_nat (n1 + N * i1))
        by (intros; apply slot_distinct; lia).
      pose proof (D 0%Z ltac:(lia)) as D0.
      pose proof (D 1%Z ltac:(lia)) as D1.
      pose proof (D 2%Z ltac:(lia)) as D2.
      replace (n1 + N * 0)%Z with n1 in D0 by lia.
      replace (n1 + N * 1)%Z with (n1 + N)%Z in D1 by lia.
      rewrite !nth_upd3_other by assumption. reflexivity.
Qed.

(** X18: a thread of the reduction pass only reads the two temporary
    buffers and the potential array, and it writes only entries of its own
    atom: when the thread of [n1] finishes, the potential array and both
    buffers are as before, and so are the force and the nine virial
    components of every other atom [j]. *)
Theorem reduce_thread_owns (nl : nl_state) (n1 : Z)
    (fs fs' : force_state) (j : Z) :
  (0 <= n1 < N)%Z -> (0 <= j < N)%Z -> j <> n1 ->
  reduce_force_many_body_thread apply_mic sys nl n1 fs = Ok fs' ->
  g_potential fs' = g_potential fs
  /\ g_f12 fs' = g_f12 fs
  /\ g_f12_ilp_neigh fs' = g_f12_ilp_neigh fs
  /\ (forall c, at3 (g_f fs') j c = at3 (g_f fs) j c)
  /\ (forall k, (0 <= k)%Z ->
        at_R (g_virial fs') (j + k * N) = at_R (g_virial fs) (j + k * N)).
Proof.
  intros Hn1 Hj Hne H.
  unfold reduce_force_many_body_thread in H.
  inv_run H. injection H as <-.
  cbn [g_f g_virial g_potential g_f12 g_f12_ilp_neigh].
  match goal with
  | E : add3 _ _ _ _ = Ok _ |- _ =>
      apply add3_inv in E; destruct E as [_ ->]
  end.
  repeat (split; [reflexivity |]). split.
  - apply at3_nth. intros c. apply nth_upd3_other. lia.
  - intros k Hk. unfold at_R. eapply save_virial_frame; [eassumption |].
    intros k' Hk'.
    replace (j + k * N)%Z with (j + N * k)%Z by lia.
    replace (n1 + k' * N)%Z with (n1 + N * k')%Z by lia.
    apply slot_distinct; lia.
Qed.

End Frame.

End OwnershipFacts.

(** ** Theorems: the buffer initialization and atoms without neighbors *)

Module LonelyFacts.
Import Mem MemFacts Normal ILP Reads BuilderSpec ForceSpec LonelySpec.
Import BuilderFacts ForceFacts BuilderMore OwnershipFacts.
Open Scope R_scope.

Lemma upd_nth_same {A} (l : list A) (n : nat) (d : A) :
  upd l n (nth n l d) = l.
Proof.
  revert n. induction l as [| a l IH]; intros [| n]; cbn; try reflexivity.
  now rewrite IH.
Qed.

Lemma add_upd_zero (a : list R) (i : Z) : add_upd a i 0 = a.
Proof. unfold add_upd. rewrite Rplus_0_r. apply upd_nth_same. Qed.

Lemma upd3_add_zero (a : ix -> list R) (i : Z) :
  same3 (upd3 a i (fun c => at3 a i c + vec 0 0 0 c)) a.
Proof.
  intros []; cbn [upd3 fam at3 vec]; rewrite Rplus_0_r; apply upd_nth_same.
Qed.

Lemma virial_saved_zero (N : Z) (vir : list R) (n1 : Z) :
  virial_saved N vir n1 zero2 = vir.
Proof. unfold virial_saved, zero2. cbv zeta. now rewrite !add_upd_zero. Qed.

Lemma len3_same3 (a b : ix -> list R) (n : Z) :
  same3 a b -> len3 b n -> len3 a n.
Proof. intros H Hb c. rewrite H. apply Hb. Qed.

Section Kernels.
Variable Box : Type.
Variable apply_mic : Box -> R -> R -> R -> R * R * R.
Variable sys : system Box.

Local Notation N := (number_of_particles sys).

(** The thread of [init_ILP_temp_data] in closed form. *)
Lemma init_thread_ok (n1 : Z) (fs : force_state) :
  (0 <= n1 < N)%Z ->
  len3 (g_f12_ilp_neigh fs) (N * MAX_ILP_NEIGHBOR) ->
  init_ILP_temp_data_thread sys n1 fs
  = Ok {| g_f := g_f fs; g_virial := g_virial fs;
          g_potential := g_potential fs; g_f12 := g_f12 fs;
          g_f12_ilp_neigh :=
            upd3 (upd3 (upd3 (g_f12_ilp_neigh fs) n1 (vec 0 0 0))
                       (n1 + N) (vec 0 0 0))
                 (n1 + N + N) (vec 0 0 0) |}.
Proof.
  intros Hn Hlen. unfold MAX_ILP_NEIGHBOR in Hlen.
  unfold init_ILP_temp_data_thread. cbv zeta.
  repeat store. reflexivity.
Qed.

(** The threads of a set of atoms: the slots of these atoms are cleared,
    the other slots and the other arrays stay. *)
Lemma init_threads (l : list Z) : forall fs : force_state,
  (forall n, In n l -> (0 <= n < N)%Z) ->
  len3 (g_f12_ilp_neigh fs) (N * MAX_ILP_NEIGHBOR) ->
  exists fs',
    for_each l (init_ILP_temp_data_thread sys) fs = Ok fs'
    /\ g_f fs' = g_f fs /\ g_virial fs' = g_virial fs
    /\ g_potential fs' = g_potential fs /\ g_f12 fs' = g_f12 fs
    /\ len3 (g_f12_ilp_neigh fs') (N * MAX_ILP_NEIGHBOR)
    /\ forall n k c, (0 <= n < N)%Z -> (0 <= k < MAX_ILP_NEIGHBOR)%Z ->
         at3 (g_f12_ilp_neigh fs') (n + N * k) c
         = if in_dec Z.eq_dec n l then 0
           else at3 (g_f12_ilp_neigh fs) (n + N * k) c.
Proof.
  induction l as [| a l IH]; intros fs Hl Hlen.
  - exists fs. cbn [for_each]. repeat split; auto.
  - cbn [for_each].
    pose proof (Hl a (or_introl eq_refl)) as Ha.
    rewrite (init_thread_ok a fs Ha Hlen). cbn [bind].
    match goal with
    | |- context [for_each l _ ?s] => set (fs1 := s)
    end.
    assert (Hlen1 : len3 (g_f12_ilp_neigh fs1) (N * MAX_ILP_NEIGHBOR))
      by (unfold fs1; cbn [g_f12_ilp_neigh]; repeat apply len3_upd3;
          exact Hlen).
    destruct (IH fs1 (fun n H => Hl n (or_intror H)) Hlen1)
      as [fs' [Hrun [Hf [Hv [Hp [H12 [Hlen' Hslots]]]]]]].
    exists fs'. split; [exact Hrun |].
    repeat (split; [assumption |]).
    intros n k c Hn Hk. rewrite (Hslots n k c Hn Hk).
    unfold MAX_ILP_NEIGHBOR in *.
    destruct (in_dec Z.eq_dec n l) as [Hin | Hnin];
      destruct (in_dec Z.eq_dec n (a :: l)) as [Hin' | Hnin'];
      try reflexivity.
    + exfalso. apply Hnin'. now right.
    + destruct Hin' as [<- | Hin']; [| contradiction].
      unfold fs1. cbn [g_f12_ilp_neigh].
      assert (Hk3 : k = 0%Z \/ k = 1%Z \/ k = 2%Z) by lia.
      destruct Hk3 as [-> | [-> | ->]].
      * replace (a + N * 0)%Z with a by lia.
        rewrite !at3_upd3_other by lia.
        rewrite (at3_upd3_same _ _ Hlen) by lia.
        destruct c; reflexivity.
      * replace (a + N * 1)%Z with (a + N)%Z by lia.
        rewrite at3_upd3_other by lia.
        rewrite (at3_upd3_same _ _ (len3_upd3 _ _ Hlen)) by lia.
        destruct c; reflexivity.
      * replace (a + N * 2)%Z with (a + N + N)%Z by lia.
        rewrite (at3_upd3_same _ _
                   (len3_upd3 _ _ (len3_upd3 _ _ Hlen))) by lia.
        destruct c; reflexivity.
    + unfold fs1. cbn [g_f12_ilp_neigh].
      assert (Hna : n <> a) by (intros ->; apply Hnin'; now left).
      assert (D : forall i1, (0 <= i1)%Z ->
                    (n + N * k <> a + N * i1)%Z).
      { intros i1 Hi1 E.
        apply (slot_distinct N n a k i1 Hn Ha Hna ltac:(lia) Hi1).
        now rewrite E. }
      pose proof (D 0%Z ltac:(lia)). pose proof (D 1%Z ltac:(lia)).
      pose proof (D 2%Z ltac:(lia)).
      rewrite !at3_upd3_other by nia. reflexivity.
Qed.

(** X19: the initialization kernel clears, in the three many-body buffers,
    the [MAX_ILP_NEIGHBOR] slots of every atom of the range; it leaves the
    slots of the other atoms, the pairwise buffers and the force, virial and
    potential arrays as they are. *)
Theorem init_ILP_temp_data_clears (fs : force_state) :
  (0 <= N1 sys)%Z -> (N2 sys <= N)%Z ->
  len3 (g_f12_ilp_neigh fs) (N * MAX_ILP_NEIGHBOR) ->
  exists fs',
    init_ILP_temp_data sys fs = Ok fs'
    /\ g_f fs' = g_f fs /\ g_virial fs' = g_virial fs
    /\ g_potential fs' = g_potential fs /\ g_f12 fs' = g_f12 fs
    /\ len3 (g_f12_ilp_neigh fs') (N * MAX_ILP_NEIGHBOR)
    /\ forall n k c, (0 <= n < N)%Z -> (0 <= k < MAX_ILP_NEIGHBOR)%Z ->
         at3 (g_f12_ilp_neigh fs') (n + N * k) c
         = if ((N1 sys <=? n) && (n <? N2 sys))%Z then 0
           else at3 (g_f12_ilp_neigh fs) (n + N * k) c.
Proof.
  intros H1 H2 Hlen. unfold init_ILP_temp_data.
  destruct (init_threads (zrange (N1 sys) (N2 sys)) fs) as
    [fs' [Hrun [Hf [Hv [Hp [H12 [Hlen' Hslots]]]]]]].
  - intros n Hn. apply zrange_in in Hn. lia.
  - exact Hlen.
  - exists fs'. split; [exact Hrun |].
    repeat (split; [assumption |]).
    intros n k c Hn Hk. rewrite (Hslots n k c Hn Hk).
    destruct (in_dec Z.eq_dec n (zrange (N1 sys) (N2 sys))) as [Hin | Hnin].
    + apply zrange_in in Hin.
      destruct (Z.leb_spec (N1 sys) n); destruct (Z.ltb_spec n (N2 sys));
        try lia. reflexivity.
    + rewrite zrange_in in Hnin.
      destruct (Z.leb_spec (N1 sys) n); destruct (Z.ltb_spec n (N2 sys));
        try lia; reflexivity.
Qed.

(** An atom of the range: well-formed input and no general neighbor. *)
Local Notation alone n1 :=
  (BuilderSpec.wf_atom sys n1 /\ at_Z (g_neighbor_number sys) n1 = 0%Z).

Lemma alone_general (n1 : Z) :
  alone n1 -> BuilderSpec.general_neighbors sys n1 = [].
Proof.
  intros [_ H]. unfold BuilderSpec.general_neighbors. rewrite H.
  reflexivity.
Qed.

(** The secondary list of a system in which no atom of the range has a
    general neighbor. *)
Lemma lonely_nl :
  (0 <= N)%Z ->
  (forall n1, (N1 sys <= n1 < N2 sys)%Z -> alone n1) ->
  exists nl,
    ILP_neighbor apply_mic sys (fresh_nl sys) = Ok nl
    /\ BuilderSpec.wf_nl sys nl
    /\ forall n1, (N1 sys <= n1 < N2 sys)%Z ->
         (at_Z (ilp_neighbor_number nl) n1 <= 0)%Z.
Proof.
  intros HN Hall. unfold ILP_neighbor.
  destruct (ILP_neighbor_threads Box apply_mic sys
              (zrange (N1 sys) (N2 sys)) (fresh_nl sys) (zrange_NoDup _ _))
    as [nl [Hrun [Hwf [_ [Hin _]]]]].
  - intros n Hn. apply zrange_in in Hn. split; [apply Hall; exact Hn |].
    rewrite (alone_general n (Hall n Hn)). cbn. unfold MAX_ILP_NEIGHBOR. lia.
  - apply fresh_nl_wf. exact HN.
  - exists nl. split; [exact Hrun |]. split; [exact Hwf |].
    intros n1 Hn1.
    pose proof (Hin n1 (proj2 (zrange_in _ _ _) Hn1)) as E.
    rewrite (alone_general n1 (Hall n1 Hn1)) in E. cbn in E.
    unfold BuilderSpec.secondary_neighbors in E.
    apply map_eq_nil in E.
    pose proof (zrange_length 0 (at_Z (ilp_neighbor_number nl) n1)) as L.
    rewrite E in L. cbn in L. lia.
Qed.

(** The thread of the force kernel for an atom without neighbors. *)
Lemma lonely_force_thread (nl : nl_state) (M : Z) (n1 : Z)
    (fs : force_state) :
  alone n1 -> BuilderSpec.wf_nl sys nl ->
  (at_Z (ilp_neighbor_number nl) n1 <= 0)%Z ->
  wf_force N M fs ->
  exists fs',
    gpu_find_force_thread apply_mic sys nl n1 fs = Ok fs'
    /\ wf_force N M fs'
    /\ same3 (g_f fs') (g_f fs) /\ g_virial fs' = g_virial fs
    /\ g_potential fs' = g_potential fs /\ g_f12 fs' = g_f12 fs.
Proof.
  intros [Hwf Hnn] [HlenNN HlenNL] Hc [Hf Hv Hp H12 Hm].
  pose proof Hwf as []. unfold MAX_ILP_NEIGHBOR in *.
  unfold gpu_find_force_thread. cbv zeta.
  rewrite (rd_ok _ _ 0%Z) by lia. cbn [bind].
  fold (at_Z (g_neighbor_number sys) n1). rewrite Hnn.
  rewrite (rd_ok _ _ 0%Z) by lia. cbn [bind].
  rewrite (rd_ok _ _ 0) by lia. cbn [bind].
  rewrite (rd_ok _ _ 0) by lia. cbn [bind].
  rewrite (rd_ok _ _ 0) by lia. cbn [bind].
  rewrite (rd_ok _ _ 0%Z) by lia. cbn [bind].
  fold (at_Z (ilp_neighbor_number nl) n1).
  rewrite (@zrange_nil 0 (at_Z (ilp_neighbor_number nl) n1)) by lia.
  rewrite (@zrange_nil 0 0) by lia.
  cbn [for_each bind cont vet delki_half s_f s_pe s_s fk_temp f12_buf vec3z].
  assert (Hshift : Z.shiftl N 1 = (N * 2)%Z)
    by (rewrite Z.shiftl_mul_pow2 by lia; reflexivity).
  rewrite Hshift.
  repeat store.
  rewrite save_virial_ok by lia. cbn [bind].
  eexists. split; [reflexivity |].
  cbn [g_f g_virial g_potential g_f12 g_f12_ilp_neigh].
  rewrite virial_saved_zero, add_upd_zero.
  split; [| split; [apply upd3_add_zero | auto]].
  constructor; cbn [g_f g_virial g_potential g_f12 g_f12_ilp_neigh];
    unfold MAX_ILP_NEIGHBOR; auto.
  - eapply len3_same3; [apply upd3_add_zero | exact Hf].
  - repeat apply len3_upd3. exact Hm.
Qed.

(** The thread of the reduction pass for an atom without neighbors. *)
Lemma lonely_reduce_thread (nl : nl_state) (M : Z) (n1 : Z)
    (fs : force_state) :
  alone n1 -> BuilderSpec.wf_nl sys nl ->
  (at_Z (ilp_neighbor_number nl) n1 <= 0)%Z ->
  wf_force N M fs ->
  exists fs',
    reduce_force_many_body_thread apply_mic sys nl n1 fs = Ok fs'
    /\ wf_force N M fs'
    /\ same3 (g_f fs') (g_f fs) /\ g_virial fs' = g_virial fs
    /\ g_potential fs' = g_potential fs /\ g_f12 fs' = g_f12 fs.
Proof.
  intros [Hwf Hnn] [HlenNN HlenNL] Hc [Hf Hv Hp H12 Hm].
  pose proof Hwf as []. unfold MAX_ILP_NEIGHBOR in *.
  unfold reduce_force_many_body_thread.
  rewrite (rd_ok _ _ 0%Z) by lia. cbn [bind].
  fold (at_Z (g_neighbor_number sys) n1). rewrite Hnn.
  rewrite (rd_ok _ _ 0) by lia. cbn [bind].
  rewrite (rd_ok _ _ 0) by lia. cbn [bind].
  rewrite (rd_ok _ _ 0) by lia. cbn [bind].
  rewrite (@zrange_nil 0 0) by lia. cbn [for_each bind].
  rewrite (rd_ok _ _ 0%Z) by lia. cbn [bind].
  fold (at_Z (ilp_neighbor_number nl) n1).
  rewrite (@zrange_nil 0 (at_Z (ilp_neighbor_number nl) n1)) by lia.
  cbn [for_each bind].
  repeat store.
  rewrite save_virial_ok by lia. cbn [bind].
  eexists. split; [reflexivity |].
  cbn [g_f g_virial g_potential g_f12 g_f12_ilp_neigh].
  rewrite virial_saved_zero.
  split; [| split; [apply upd3_add_zero | auto]].
  constructor; cbn [g_f g_virial g_potential g_f12 g_f12_ilp_neigh];
    unfold MAX_ILP_NEIGHBOR; auto.
  eapply len3_same3; [apply upd3_add_zero | exact Hf].
Qed.

(** Threads that leave the force, virial, potential and pairwise arrays
    with the values they had. *)
Lemma quiet_threads (T : Z -> force_state -> res force_state) (M : Z)
    (l : list Z) :
  (forall n fs, In n l -> wf_force N M fs ->
     exists fs',
       T n fs = Ok fs' /\ wf_force N M fs'
       /\ same3 (g_f fs') (g_f fs) /\ g_virial fs' = g_virial fs
       /\ g_potential fs' = g_potential fs /\ g_f12 fs' = g_f12 fs) ->
  forall fs, wf_force N M fs ->
    exists fs',
      for_each l T fs = Ok fs' /\ wf_force N M fs'
      /\ same3 (g_f fs') (g_f fs) /\ g_virial fs' = g_virial fs
      /\ g_potential fs' = g_potential fs /\ g_f12 fs' = g_f12 fs.
Proof.
  induction l as [| a l IH]; intros HT fs Hfs.
  - exists fs. cbn [for_each].
    split; [reflexivity |]. split; [exact Hfs |].
    split; [intros c; reflexivity |]. auto.
  - cbn [for_each].
    destruct (HT a fs (or_introl eq_refl) Hfs)
      as [fs1 [E1 [W1 [F1 [V1 [P1 B1]]]]]].
    rewrite E1. cbn [bind].
    destruct (IH (fun n fs H => HT n fs (or_intror H)) fs1 W1)
      as [fs2 [E2 [W2 [F2 [V2 [P2 B2]]]]]].
    exists fs2. split; [exact E2 |]. split; [exact W2 |].
    split; [intros c; rewrite F2; apply F1 |].
    repeat split; congruence.
Qed.

(** X20: a system in which no atom of the range has a general neighbor.  One
    force evaluation finishes and adds nothing: the force, virial and
    potential arrays that the caller hands over, and the pairwise buffers,
    hold the same values afterwards. *)
Theorem compute_without_neighbors (M : Z) (fs : force_state) :
  (0 <= N)%Z ->
  (forall n1, (N1 sys <= n1 < N2 sys)%Z ->
     BuilderSpec.wf_atom sys n1 /\ at_Z (g_neighbor_number sys) n1 = 0%Z) ->
  wf_force N M fs ->
  exists nl fs',
    compute apply_mic sys fs = Ok (nl, fs')
    /\ same3 (g_f fs') (g_f fs) /\ g_virial fs' = g_virial fs
    /\ g_potential fs' = g_potential fs /\ same3 (g_f12 fs') (g_f12 fs).
Proof.
  intros HN Hall Hfs. unfold compute.
  destruct (lonely_nl HN Hall) as [nl [Enl [Wnl Hcount]]].
  rewrite Enl. cbn [bind].
  assert (Hin : forall n, In n (zrange (N1 sys) (N2 sys)) ->
                  (N1 sys <= n < N2 sys)%Z)
    by (intros n Hn; apply zrange_in in Hn; exact Hn).
  destruct (init_threads (zrange (N1 sys) (N2 sys)) fs) as
    [fs0 [E0 [F0 [V0 [P0 [B0 [L0 _]]]]]]].
  { intros n Hn. apply (wf_n1 (proj1 (Hall n (Hin n Hn)))). }
  { apply Hfs. }
  unfold init_ILP_temp_data. rewrite E0. cbn [bind].
  assert (W0 : wf_force N M fs0).
  { destruct Hfs as [Hf Hv Hp H12 Hm].
    constructor; [rewrite F0 | rewrite V0 | rewrite P0 | rewrite B0 |];
      assumption. }
  destruct (quiet_threads (gpu_find_force_thread apply_mic sys nl) M
              (zrange (N1 sys) (N2 sys))) with (fs := fs0)
    as [fs1 [E1 [W1 [F1 [V1 [P1 B1]]]]]].
  { intros n fs' Hn Hw. apply lonely_force_thread; auto. }
  { exact W0. }
  unfold gpu_find_force. rewrite E1. cbn [bind].
  destruct (quiet_threads (reduce_force_many_body_thread apply_mic sys nl) M
              (zrange (N1 sys) (N2 sys))) with (fs := fs1)
    as [fs2 [E2 [W2 [F2 [V2 [P2 B2]]]]]].
  { intros n fs' Hn Hw. apply lonely_reduce_thread; auto. }
  { exact W1. }
  unfold reduce_force_many_body. rewrite E2. cbn [bind].
  exists nl, fs2. split; [reflexivity |].
  split; [intros c; rewrite F2, F1, F0; reflexivity |].
  split; [congruence |]. split; [congruence |].
  intros c. rewrite B2, B1, B0. reflexivity.
Qed.

End Kernels.

End LonelyFacts.

(** ** Theorems: one force evaluation of a translated system *)

Module TranslateFacts.
Import Mem MemFacts Normal ILP TranslateSpec SearchMore.
Open Scope R_scope.

Lemma rd_map {A B} name (f : A -> B) (a : list A) (i : Z) :
  rd name (map f a) i = bind (rd name a i) (fun v => Ok (f v)).
Proof.
  unfold rd. destruct (i <? 0)%Z; [reflexivity |].
  rewrite nth_error_map. destruct (nth_error a (Z.to_nat i)); reflexivity.
Qed.

Lemma for_each_ext {S} (l : list Z) (f g : Z -> S -> res S) (s : S) :
  (forall i s, f i s = g i s) -> for_each l f s = for_each l g s.
Proof.
  intros H. revert s. induction l as [| i l IH]; intros s; cbn [for_each];
    [reflexivity |].
  rewrite H. destruct (g i s); cbn [bind]; [apply IH | reflexivity].
Qed.

(** The binary search, one step unfolded. *)
Lemma find_offset_unfold Box (sys : system Box) (n2 n1 l r m : Z) :
  find_offset sys n2 n1 l r m
  = if Z_lt_dec l r then
      bind (rd "g_neighbor_list" (g_neighbor_list sys)
              (n2 + number_of_particles sys * Z.shiftr (l + r) 1))
           (fun tmp_value =>
              if (tmp_value >? n1)%Z then
                find_offset sys n2 n1 l (Z.shiftr (l + r) 1 - 1)
                            (Z.shiftr (l + r) 1)
              else if (tmp_value <? n1)%Z then
                find_offset sys n2 n1 (Z.shiftr (l + r) 1 + 1) r
                            (Z.shiftr (l + r) 1)
              else Ok (Z.shiftr (l + r) 1))
    else Ok m.
Proof.
  funelim (find_offset sys n2 n1 l r m).
  all: repeat match goal with
              | H : Z_lt_dec _ _ = _ |- _ => rewrite H; clear H
              | H : rd _ _ _ = _ |- _ => rewrite H; clear H; cbn [bind]
              | H : (_ >? _)%Z = _ |- _ => rewrite H; clear H
              | H : (_ <? _)%Z = _ |- _ => rewrite H; clear H
              end; reflexivity.
Qed.

(** The binary search reads the general neighbor list and the number of
    particles, nothing else of the system. *)
Lemma find_offset_same Box (sys sys' : system Box) :
  g_neighbor_list sys' = g_neighbor_list sys ->
  number_of_particles sys' = number_of_particles sys ->
  forall (k : nat) (n2 n1 l r m : Z),
    (Z.to_nat (r - l) <= k)%nat ->
    find_offset sys' n2 n1 l r m = find_offset sys n2 n1 l r m.
Proof.
  intros HL HN. induction k as [| k IH]; intros n2 n1 l r m Hk.
  - rewrite (find_offset_unfold _ sys'), (find_offset_unfold _ sys).
    destruct (Z_lt_dec l r); [lia | reflexivity].
  - rewrite (find_offset_unfold _ sys'), (find_offset_unfold _ sys).
    destruct (Z_lt_dec l r) as [Hlt | _]; [| reflexivity].
    rewrite HL, HN.
    pose proof (shiftr1_bounds l r Hlt) as Hb.
    destruct (rd "g_neighbor_list" (g_neighbor_list sys) _) as [tmp | f];
      cbn [bind]; [| reflexivity].
    destruct (tmp >? n1)%Z; [apply IH; lia |].
    destruct (tmp <? n1)%Z; [apply IH; lia | reflexivity].
Qed.

Lemma find_offset_ilp_same Box (sys sys' : system Box) (nl : nl_state)
    (n2 n1 : Z) (ks : list Z) :
  number_of_particles sys' = number_of_particles sys ->
  find_offset_ilp sys' nl n2 n1 ks = find_offset_ilp sys nl n2 n1 ks.
Proof.
  intros HN. induction ks as [| k ks IH]; cbn [find_offset_ilp];
    [reflexivity |].
  rewrite HN. destruct (rd _ _ _); cbn [bind]; [| reflexivity].
  destruct (n1 =? a)%Z; [reflexivity | apply IH].
Qed.

Section Translate.
Variable Box : Type.
Variable apply_mic : Box -> R -> R -> R -> R * R * R.
Variable t : arr1.
Variable sys : system Box.

Local Notation sys' := (translate t sys).


(** Take the next load of both sides; the positions of the translated
    system are those of the system plus [t]. *)
Ltac load :=
  cbn [translate number_of_particles N1 N2 box g_neighbor_number
       g_neighbor_list g_type ilp_para g_x g_y g_z group_label];
  match goal with
  | |- bind (rd ?n (map ?f ?a) ?i) _ = _ =>
      rewrite (rd_map n f a i);
      destruct (rd n a i); cbn [bind]; [| reflexivity]
  | |- bind (rd ?n ?a ?i) _ = _ =>
      destruct (rd n a i); cbn [bind]; [| reflexivity]
  end.










End Translate.

Section Relabel.
Variable Box : Type.
Variable apply_mic : Box -> R -> R -> R -> R * R * R.
Variable f : Z -> Z.
Hypothesis f_inj : forall a b, f a = f b -> a = b.
Variable sys : system Box.

Local Notation sys' := (relabel f sys).

Lemma f_eqb (a b : Z) : (f a =? f b)%Z = (a =? b)%Z.
Proof.
  destruct (Z.eqb_spec a b) as [-> | Hne]; [apply Z.eqb_refl |].
  apply Z.eqb_neq. intros E. apply Hne. apply f_inj. exact E.
Qed.

Ltac load :=
  cbn [relabel number_of_particles N1 N2 box g_neighbor_number
       g_neighbor_list g_type ilp_para g_x g_y g_z group_label];
  match goal with
  | |- bind (rd ?n (map ?g ?a) ?i) _ = _ =>
      rewrite (rd_map n g a i);
      destruct (rd n a i); cbn [bind]; [| reflexivity]
  | |- bind (rd ?n ?a ?i) _ = _ =>
      destruct (rd n a i); cbn [bind]; [| reflexivity]
  end.

Lemma bond_relabel (x1 y1 z1 : R) (n2 : Z) :
  bond apply_mic sys' x1 y1 z1 n2 = bond apply_mic sys x1 y1 z1 n2.
Proof. reflexivity. Qed.

Lemma ILP_neighbor_step_relabel (n1 type1 : Z) (x1 y1 z1 : R) (i1 : Z)
    (st : Z * list Z) :
  ILP_neighbor_step apply_mic sys' n1 type1 x1 y1 z1 i1 st
  = ILP_neighbor_step apply_mic sys n1 type1 x1 y1 z1 i1 st.
Proof.
  unfold ILP_neighbor_step. destruct st as [count nl].
  load. load. rewrite bond_relabel.
  destruct (bond apply_mic sys x1 y1 z1 _) as [[[x12 y12] z12] |];
    cbn [bind]; [| reflexivity].
  load. load. rewrite f_eqb. reflexivity.
Qed.

Lemma ILP_neighbor_thread_relabel (n1 : Z) (st : nl_state) :
  ILP_neighbor_thread apply_mic sys' n1 st
  = ILP_neighbor_thread apply_mic sys n1 st.
Proof.
  unfold ILP_neighbor_thread. do 5 load.
  rewrite (for_each_ext _ _ _ _
             (ILP_neighbor_step_relabel n1 _ _ _ _)).
  reflexivity.
Qed.

Lemma force_step_relabel (nl_count : Z) (nrm : normal_out) (dkh : arr2)
    (n1 type1 : Z) (x1 y1 z1 : R) (i1 : Z) (a : sums) :
  force_step apply_mic sys' nl_count nrm dkh n1 type1 x1 y1 z1 i1 a
  = force_step apply_mic sys nl_count nrm dkh n1 type1 x1 y1 z1 i1 a.
Proof.
  unfold force_step. cbv zeta. load. load. rewrite bond_relabel.
  destruct (bond apply_mic sys x1 y1 z1 _) as [[[x12 y12] z12] |];
    cbn [bind]; [| reflexivity].
  destruct (Rgeb _ _); [reflexivity |].
  load. load. rewrite f_eqb. reflexivity.
Qed.

Lemma gpu_find_force_thread_relabel (nl : nl_state) (n1 : Z)
    (fs : force_state) :
  gpu_find_force_thread apply_mic sys' nl n1 fs
  = gpu_find_force_thread apply_mic sys nl n1 fs.
Proof.
  unfold gpu_find_force_thread. cbv zeta. do 6 load.
  change (bond_step apply_mic sys') with (bond_step apply_mic sys).
  destruct (for_each _ (bond_step apply_mic sys nl n1 _ _ _) _) as [b |];
    cbn [bind]; [| reflexivity].
  rewrite (for_each_ext _ _ _ _ (force_step_relabel _ _ _ n1 _ _ _ _)).
  reflexivity.
Qed.

Lemma reduce_step_relabel (fs : force_state) (n1 : Z) (x1 y1 z1 : R)
    (i1 : Z) (a : rsums) :
  reduce_step apply_mic sys' fs n1 x1 y1 z1 i1 a
  = reduce_step apply_mic sys fs n1 x1 y1 z1 i1 a.
Proof.
  unfold reduce_step. destruct a as [sf ss]. cbv zeta. load. load.
  rewrite bond_relabel.
  destruct (bond apply_mic sys x1 y1 z1 _) as [[[x12 y12] z12] |];
    cbn [bind]; [| reflexivity].
  rewrite (find_offset_same Box sys sys' eq_refl eq_refl _ _ _ _ _ _
             (Nat.le_refl _)).
  reflexivity.
Qed.

Lemma reduce_ilp_step_relabel (nl : nl_state) (fs : force_state)
    (n1 : Z) (x1 y1 z1 : R) (i1 : Z) (a : rsums) :
  reduce_ilp_step apply_mic sys' nl fs n1 x1 y1 z1 i1 a
  = reduce_ilp_step apply_mic sys nl fs n1 x1 y1 z1 i1 a.
Proof.
  unfold reduce_ilp_step. destruct a as [sf ss]. cbv zeta. load. load.
  rewrite bond_relabel.
  destruct (bond apply_mic sys x1 y1 z1 _) as [[[x12 y12] z12] |];
    cbn [bind]; [| reflexivity].
  rewrite (find_offset_ilp_same Box sys sys' nl _ _ _ eq_refl).
  reflexivity.
Qed.

Lemma reduce_thread_relabel (nl : nl_state) (n1 : Z) (fs : force_state) :
  reduce_force_many_body_thread apply_mic sys' nl n1 fs
  = reduce_force_many_body_thread apply_mic sys nl n1 fs.
Proof.
  unfold reduce_force_many_body_thread. do 4 load.
  rewrite (for_each_ext _ _ _ _ (reduce_step_relabel fs n1 _ _ _)).
  destruct (for_each _ (reduce_step apply_mic sys fs n1 _ _ _) _)
    as [acc |]; cbn [bind]; [| reflexivity].
  load.
  rewrite (for_each_ext _ _ _ _ (reduce_ilp_step_relabel nl fs n1 _ _ _)).
  reflexivity.
Qed.

(** X22: the group labels enter one force evaluation only through the test
    whether two atoms have the same label: for the system with the labels
    renamed by an injective function the evaluation gives the same result
    as for the system itself. *)
Theorem compute_relabel_invariant (fs : force_state) :
  compute apply_mic (relabel f sys) fs = compute apply_mic sys fs.
Proof.
  unfold compute, ILP_neighbor, init_ILP_temp_data, gpu_find_force,
    reduce_force_many_body.
  cbn [relabel N1 N2].
  rewrite (for_each_ext _ _ _ _ ILP_neighbor_thread_relabel).
  change (fresh_nl sys') with (fresh_nl sys).
  destruct (for_each _ (ILP_neighbor_thread apply_mic sys) _) as [nl |];
    cbn [bind]; [| reflexivity].
  change (init_ILP_temp_data_thread sys')
    with (init_ILP_temp_data_thread sys).
  destruct (for_each _ (init_ILP_temp_data_thread sys) _) as [fs0 |];
    cbn [bind]; [| reflexivity].
  rewrite (for_each_ext _ _ _ _ (gpu_find_force_thread_relabel nl)).
  destruct (for_each _ (gpu_find_force_thread apply_mic sys nl) _)
    as [fs1 |]; cbn [bind]; [| reflexivity].
  rewrite (for_each_ext _ _ _ _ (reduce_thread_relabel nl)).
  reflexivity.
Qed.

End Relabel.

End TranslateFacts.

(** ** Theorems: the forces on two atoms in different groups *)

Module TwoAtomMore.
Import Mem MemFacts Normal ILP ForceSpec TwoAtomSpec ForceFacts TwoAtomFacts.
Open Scope R_scope.



Section TwoAtoms.
Variable Box : Type.
Variable apply_mic : Box -> R -> R -> R -> R * R * R.
Variables (b : Box) (p : ILP_Para) (t0 t1 g0 g1 : Z).
Variables (x0 y0 z0 x1 y1 z1 : R) (nl2 nl3 : Z).

Local Notation two_atoms :=
  (TwoAtomSpec.two_atoms b p t0 t1 g0 g1 x0 y0 z0 x1 y1 z1 nl2 nl3).

Hypothesis Hg : g0 <> g1.

Local Opaque calc_pair wr3 rd3 add3 add_at save_virial.


End TwoAtoms.


End TwoAtomMore.

(** ** Examples for the kernels *)

Module KernelExamples.
Import Mem MemFacts Normal ILP Reads BuilderSpec ForceSpec TwoAtomSpec Inputs.
Import BuilderFacts BuilderExamples TwoAtomExamples.
Import LonelySpec TranslateSpec.
Open Scope R_scope.

Lemma find_offset_in_range_witness :
  exists offset,
    find_offset tri_sys 2 0 0 2 0 = Ok offset
    /\ (0 <= offset)%Z /\ (offset = 0 \/ offset < 2)%Z.
Proof.
  apply (SearchMore.find_offset_in_range unit tri_sys 2 0 2).
  intros i Hi. unfold tri_sys.
  cbn [number_of_particles g_neighbor_list List.length]. lia.
Defined.


Lemma pair_range n1 : (0 <= n1 < 2)%Z -> (n1 = 0 \/ n1 = 1)%Z.
Proof. lia. Qed.

Lemma ILP_neighbor_builds_witness :
  exists st',
    ILP_neighbor no_mic (pair_same_group 0 1)
      (fresh_nl (pair_same_group 0 1)) = Ok st'
    /\ printed st' = []
    /\ (forall n1, (0 <= n1 < 2)%Z ->
          secondary_neighbors (pair_same_group 0 1) st' n1
          = filter (keptb no_mic (pair_same_group 0 1) n1)
                   (general_neighbors (pair_same_group 0 1) n1))
    /\ (forall n, (0 <= n < 2)%Z -> ~ (0 <= n < 2)%Z ->
          secondary_neighbors (pair_same_group 0 1) st' n = []).
Proof.
  apply (BuilderMore.ILP_neighbor_builds unit no_mic (pair_same_group 0 1)).
  - unfold pair_same_group. cbn [number_of_particles]. lia.
  - intros n1 Hn1. apply pair_range in Hn1.
    split; [now apply pair_wf | now apply pair_cap].
Defined.


Lemma lonely_alone n1 :
  (0 <= n1 < 2)%Z ->
  wf_atom lonely n1 /\ at_Z (g_neighbor_number lonely) n1 = 0%Z.
Proof.
  intros Hn. apply pair_range in Hn.
  split.
  - constructor; try reflexivity.
    + unfold lonely. cbn [number_of_particles]. lia.
    + intros i1 Hi. exfalso.
      destruct Hn as [-> | ->]; unfold at_Z in Hi; simpl in Hi; lia.
  - destruct Hn as [-> | ->]; reflexivity.
Qed.

Lemma lonely_fresh :
  wf_nl lonely (fresh_nl lonely)
  /\ forall n1, (at_Z (ilp_neighbor_number (fresh_nl lonely)) n1 <= 0)%Z.
Proof.
  split; [split; reflexivity |].
  intros n1. unfold at_Z, fresh_nl, lonely. cbn [ilp_neighbor_number
    number_of_particles].
  destruct (nth_in_or_default (Z.to_nat n1) (repeat 0%Z (Z.to_nat 2)) 0%Z)
    as [Hin | ->]; [| lia].
  apply repeat_spec in Hin. lia.
Qed.

Lemma gpu_find_force_thread_owns_witness :
  exists fs',
    gpu_find_force_thread no_mic lonely (fresh_nl lonely) 0 (zero_fs 2 2)
    = Ok fs'
    /\ (forall c, at3 (g_f fs') 1 c = at3 (g_f (zero_fs 2 2)) 1 c)
    /\ at_R (g_potential fs') 1 = at_R (g_potential (zero_fs 2 2)) 1.
Proof.
  destruct (LonelyFacts.lonely_force_thread unit no_mic lonely
              (fresh_nl lonely) 2 0 (zero_fs 2 2)
              (lonely_alone 0 ltac:(lia)) (proj1 lonely_fresh)
              (proj2 lonely_fresh 0%Z) zero_fs_wf) as [fs' [E _]].
  exists fs'. split; [exact E |].
  destruct (OwnershipFacts.gpu_find_force_thread_owns unit no_mic lonely
              (fresh_nl lonely) 0 (zero_fs 2 2) fs' 1)
    as [Hf [Hp _]].
  - unfold lonely. cbn [number_of_particles]. lia.
  - unfold lonely. cbn [number_of_particles]. lia.
  - lia.
  - exact E.
  - split; [exact Hf | exact Hp].
Defined.

Lemma reduce_thread_owns_witness :
  exists fs',
    reduce_force_many_body_thread no_mic lonely (fresh_nl lonely) 0
      (zero_fs 2 2) = Ok fs'
    /\ g_potential fs' = g_potential (zero_fs 2 2)
    /\ (forall c, at3 (g_f fs') 1 c = at3 (g_f (zero_fs 2 2)) 1 c).
Proof.
  destruct (LonelyFacts.lonely_reduce_thread unit no_mic lonely
              (fresh_nl lonely) 2 0 (zero_fs 2 2)
              (lonely_alone 0 ltac:(lia)) (proj1 lonely_fresh)
              (proj2 lonely_fresh 0%Z) zero_fs_wf) as [fs' [E _]].
  exists fs'. split; [exact E |].
  destruct (OwnershipFacts.reduce_thread_owns unit no_mic lonely
              (fresh_nl lonely) 0 (zero_fs 2 2) fs' 1)
    as [Hp [_ [_ [Hf _]]]].
  - unfold lonely. cbn [number_of_particles]. lia.
  - unfold lonely. cbn [number_of_particles]. lia.
  - lia.
  - exact E.
  - split; [exact Hp | exact Hf].
Defined.

Lemma init_ILP_temp_data_clears_witness :
  exists fs',
    init_ILP_temp_data lonely stale_fs = Ok fs'
    /\ g_f12 fs' = g_f12 stale_fs
    /\ forall n k c, (0 <= n < 2)%Z -> (0 <= k < 3)%Z ->
         at3 (g_f12_ilp_neigh fs') (n + 2 * k) c = 0.
Proof.
  destruct (LonelyFacts.init_ILP_temp_data_clears unit lonely stale_fs)
    as [fs' [E [_ [_ [_ [H12 [_ Hz]]]]]]].
  - unfold lonely. cbn [N1]. lia.
  - unfold lonely. cbn [N2 number_of_particles]. lia.
  - intros c. reflexivity.
  - exists fs'. split; [exact E |]. split; [exact H12 |].
    intros n k c Hn Hk.
    pose proof (Hz n k c Hn Hk) as Hs.
    unfold lonely in Hs. cbn [N1 N2 number_of_particles] in Hs.
    destruct (Z.leb_spec 0 n); [| lia].
    destruct (Z.ltb_spec n 2); [| lia].
    exact Hs.
Defined.

Lemma compute_without_neighbors_witness :
  exists nl fs',
    compute no_mic lonely (zero_fs 2 2) = Ok (nl, fs')
    /\ same3 (g_f fs') (g_f (zero_fs 2 2))
    /\ g_virial fs' = g_virial (zero_fs 2 2)
    /\ g_potential fs' = g_potential (zero_fs 2 2)
    /\ same3 (g_f12 fs') (g_f12 (zero_fs 2 2)).
Proof.
  apply (LonelyFacts.compute_without_neighbors unit no_mic lonely 2
           (zero_fs 2 2)).
  - unfold lonely. cbn [number_of_particles]. lia.
  - exact lonely_alone.
  - exact zero_fs_wf.
Defined.

Lemma succ_inj (a b : Z) : (a + 1 = b + 1)%Z -> a = b.
Proof. lia. Qed.

Lemma compute_relabel_invariant_witness :
  compute no_mic (relabel (fun g => (g + 1)%Z) (pair_same_group 0 1))
    (zero_fs 2 2)
  = compute no_mic (pair_same_group 0 1) (zero_fs 2 2).
Proof.
  apply (TranslateFacts.compute_relabel_invariant unit no_mic
           (fun g => (g + 1)%Z) succ_inj).
Defined.


End KernelExamples.

(** ** The constructor *)

Module ConstructFacts.
Import Mem Normal ILP Construct ConstructSpec MemFacts BuilderMore.
Open Scope R_scope.

Lemma store_pair_at para n m f : entry_of (store_pair para n m f) n m f.
Proof.
  unfold entry_of, store_pair, set2; cbn.
  rewrite !Z.eqb_refl; cbn. repeat split; reflexivity.
Qed.

Lemma store_pair_other para n m f i j :
  i <> n \/ j <> m -> same_entry (store_pair para n m f) para i j.
Proof.
  intros H.
  assert (E : ((i =? n) && (j =? m))%Z = false).
  { apply andb_false_iff. destruct H; [left | right]; now apply Z.eqb_neq. }
  unfold same_entry, store_pair, set2; cbn. rewrite E.
  repeat split; reflexivity.
Qed.

Lemma same_entry_refl p i j : same_entry p p i j.
Proof. unfold same_entry. repeat split; reflexivity. Qed.

Lemma same_entry_trans p q r i j :
  same_entry p q i j -> same_entry q r i j -> same_entry p r i j.
Proof.
  unfold same_entry. intros H1 H2.
  repeat match goal with H : _ /\ _ |- _ => destruct H end.
  repeat split; congruence.
Qed.

Lemma entry_of_same p q n m f :
  same_entry p q n m -> entry_of q n m f -> entry_of p n m f.
Proof.
  unfold same_entry, entry_of. intros H1 H2.
  repeat match goal with H : _ /\ _ |- _ => destruct H end.
  repeat split; congruence.
Qed.

Lemma entry_of_rcut p n m f :
  entry_of p n m f -> rcut_global p n m = f_rcut_global f.
Proof. unfold entry_of. intros H. apply H. Qed.

Section Loops.
Variable stream : Type.
Variable fscanf_s : stream -> option (string * stream).
Variable fscanf_lf : stream -> option (R * stream).

Local Notation skip_symbols := (skip_symbols stream fscanf_s).
Local Notation skip_records := (skip_records stream fscanf_lf).
Local Notation record_at := (record_at stream fscanf_lf).
Local Notation read_symbol := (read_symbol stream fscanf_s).
Local Notation read_pair := (read_pair stream fscanf_lf).
Local Notation fscanf_12 := (fscanf_12 stream fscanf_lf).

Lemma skip_records_add a b fid fid1 :
  skip_records a fid = Some fid1 ->
  skip_records (a + b) fid = skip_records b fid1.
Proof.
  revert fid. induction a as [| a IH]; intros fid H; cbn in *.
  - now inversion H.
  - destruct (fscanf_12 fid) as [[f fid2] |]; [| discriminate]. now apply IH.
Qed.

Lemma skip_records_none a b fid :
  skip_records a fid = None -> skip_records (a + b) fid = None.
Proof.
  revert fid. induction a as [| a IH]; intros fid H; cbn in *.
  - discriminate.
  - destruct (fscanf_12 fid) as [[f fid2] |]; [| reflexivity]. now apply IH.
Qed.


Lemma record_at_add a k fid fid1 :
  skip_records a fid = Some fid1 ->
  record_at fid (a + k) = record_at fid1 k.
Proof.
  intros H. unfold ConstructSpec.record_at.
  now rewrite (skip_records_add a k fid fid1 H).
Qed.

(** *** The loop over the atom symbols *)

Lemma symbols_loop l : forall fid out fid1 out1,
  for_range l read_symbol (fid, out) = Done (fid1, out1) ->
  skip_symbols (List.length l) fid = Some fid1
  /\ List.length out1 = (List.length out + List.length l)%nat.
Proof.
  induction l as [| n l IH]; intros fid out fid1 out1 H;
    cbn [for_range] in H.
  - inversion H; subst. cbn. split; [reflexivity | lia].
  - unfold Construct.read_symbol in H at 1. cbn.
    destruct (fscanf_s fid) as [[s fid2] |]; [| discriminate].
    destruct (10 <=? String.length s)%nat; [discriminate |].
    cbn [and_then] in H. apply IH in H. destruct H as [H1 H2]. split; [exact H1 |].
    rewrite H2, length_app. cbn. lia.
Qed.

Lemma symbols_loop_exit l : forall fid out out1 text,
  for_range l read_symbol (fid, out) = Exit out1 text ->
  text = "Reading error for ILP potential."
  /\ skip_symbols (List.length l) fid = None.
Proof.
  induction l as [| n l IH]; intros fid out out1 text H;
    cbn [for_range] in H.
  - discriminate.
  - unfold Construct.read_symbol in H at 1. cbn.
    destruct (fscanf_s fid) as [[s fid2] |].
    + destruct (10 <=? String.length s)%nat; [discriminate |].
      cbn [and_then] in H. now apply IH in H.
    + inversion H. now split.
Qed.


(** *** The loop over the second type of a pair *)

Lemma row_loop l : NoDup l -> forall out n fid para rc fid' para' rc',
  for_range l (read_pair out n) (fid, para, rc) = Done (fid', para', rc') ->
  skip_records (List.length l) fid = Some fid'
  /\ rc <= rc'
  /\ (rc' = rc
      \/ exists j, (j < List.length l)%nat
                   /\ rc' = rcut_global para' n (nth j l 0%Z))
  /\ (forall j, (j < List.length l)%nat ->
        exists f, record_at fid j = Some f
                  /\ entry_of para' n (nth j l 0%Z) f
                  /\ f_rcut_global f <= rc')
  /\ (forall i j, i <> n \/ ~ In j l -> same_entry para' para i j).
Proof.
  induction 1 as [| m l Hm Hl IH]; intros out n fid para rc fid' para' rc' H;
    cbn [for_range] in H.
  - inversion H; subst. cbn.
    split; [reflexivity |]. split; [lra |]. split; [now left |].
    split; [intros j Hj; lia |]. intros; apply same_entry_refl.
  - unfold Construct.read_pair in H at 1.
    destruct (fscanf_12 fid) as [[f fid1] |] eqn:E; [| discriminate].
    cbn [and_then] in H. apply IH in H. destruct H as (H1 & H2 & H3 & H4 & H5).
    assert (Hm' : entry_of para' n m f).
    { eapply entry_of_same; [apply H5; now right | apply store_pair_at]. }
    assert (Hrc : rc <= rc' /\ f_rcut_global f <= rc').
    { destruct (Rlt_dec rc (f_rcut_global f)); lra. }
    cbn [List.length ConstructSpec.skip_records]. rewrite E.
    split; [exact H1 |]. split; [apply Hrc |]. split; [| split].
    + destruct H3 as [H3 | (j & Hj & H3)].
      * destruct (Rlt_dec rc (f_rcut_global f)).
        -- right. exists 0%nat. split; [lia |]. cbn.
           now rewrite (entry_of_rcut _ _ _ _ Hm').
        -- now left.
      * right. exists (S j). split; [lia | exact H3].
    + intros [| j] Hj.
      * exists f. unfold ConstructSpec.record_at. cbn. rewrite E. cbn.
        split; [reflexivity |]. split; [exact Hm' | apply Hrc].
      * destruct (H4 j ltac:(lia)) as (g & G1 & G2 & G3).
        exists g. split; [| split; assumption].
        unfold ConstructSpec.record_at in *. cbn. now rewrite E.
    + intros i j Hij.
      eapply same_entry_trans.
      * apply H5. destruct Hij as [Hij | Hij]; [now left | right].
        intros Hin. apply Hij. now right.
      * apply store_pair_other.
        destruct Hij as [Hij | Hij]; [now left | right].
        intros ->. apply Hij. now left.
Qed.

Lemma row_loop_exit l : forall out n fid para rc out1 text,
  for_range l (read_pair out n) (fid, para, rc) = Exit out1 text ->
  text = "Reading error for ILP potential."
  /\ skip_records (List.length l) fid = None.
Proof.
  induction l as [| m l IH]; intros out n fid para rc out1 text H;
    cbn [for_range] in H.
  - discriminate.
  - unfold Construct.read_pair in H at 1. cbn.
    destruct (fscanf_12 fid) as [[f fid1] |].
    + cbn [and_then] in H. now apply IH in H.
    + inversion H. now split.
Qed.

Lemma row_loop_no_crash l : forall out n st out1 f,
  for_range l (read_pair out n) st <> Crash out1 f.
Proof.
  induction l as [| m l IH]; intros out n [[fid para] rc] out1 f;
    cbn [for_range].
  - discriminate.
  - unfold Construct.read_pair at 1.
    destruct (fscanf_12 fid) as [[g fid1] |]; cbn [and_then];
      [apply IH | discriminate].
Qed.

Lemma row_loop_done l : forall out n fid para rc fid',
  skip_records (List.length l) fid = Some fid' ->
  exists para' rc',
    for_range l (read_pair out n) (fid, para, rc) = Done (fid', para', rc').
Proof.
  induction l as [| m l IH]; intros out n fid para rc fid' H;
    cbn [for_range List.length ConstructSpec.skip_records] in *.
  - inversion H. now do 2 eexists.
  - unfold Construct.read_pair at 1.
    destruct (fscanf_12 fid) as [[f fid1] |]; [| discriminate].
    cbn [and_then]. now apply IH.
Qed.

(** *** The loop over the first type of a pair *)

Lemma table_loop lc : NoDup lc -> forall ln, NoDup ln ->
  forall out fid para rc fid' para' rc',
  for_range ln (fun n => for_range lc (read_pair out n)) (fid, para, rc)
    = Done (fid', para', rc') ->
  skip_records (List.length ln * List.length lc) fid = Some fid'
  /\ rc <= rc'
  /\ (rc' = rc
      \/ exists a b, (a < List.length ln)%nat /\ (b < List.length lc)%nat
           /\ rc' = rcut_global para' (nth a ln 0%Z) (nth b lc 0%Z))
  /\ (forall a b, (a < List.length ln)%nat -> (b < List.length lc)%nat ->
        exists f, record_at fid (a * List.length lc + b) = Some f
                  /\ entry_of para' (nth a ln 0%Z) (nth b lc 0%Z) f
                  /\ f_rcut_global f <= rc')
  /\ (forall i j, ~ In i ln \/ ~ In j lc -> same_entry para' para i j).
Proof.
  intros Hc. induction 1 as [| n ln Hn Hl IH];
    intros out fid para rc fid' para' rc' H; cbn [for_range] in H.
  - inversion H; subst. cbn.
    split; [reflexivity |]. split; [lra |]. split; [now left |].
    split; [intros a b Ha; lia |]. intros; apply same_entry_refl.
  - destruct (for_range lc (read_pair out n) (fid, para, rc))
      as [[[fid1 para1] rc1] | |] eqn:E; try discriminate.
    cbn [and_then] in H. apply IH in H. destruct H as (H1 & H2 & H3 & H4 & H5).
    apply (row_loop lc Hc) in E. destruct E as (E1 & E2 & E3 & E4 & E5).
    assert (Keep : forall b, same_entry para' para1 n b).
    { intros b. apply H5. now left. }
    cbn [List.length Nat.mul].
    split; [now rewrite (skip_records_add _ _ _ _ E1) |].
    split; [lra |]. split; [| split].
    + destruct H3 as [H3 | (a & b & Ha & Hb & H3)].
      * destruct E3 as [E3 | (b & Hb & E3)]; [left; congruence |].
        right. exists 0%nat, b. split; [lia |]. split; [exact Hb |]. cbn.
        destruct (E4 b Hb) as (f & F1 & F2 & F3).
        rewrite (entry_of_rcut _ _ _ _
                   (entry_of_same _ _ _ _ _ (Keep _) F2)).
        rewrite H3, E3. apply (entry_of_rcut _ _ _ _ F2).
      * right. exists (S a), b. split; [lia |]. split; [exact Hb | exact H3].
    + intros [| a] b Ha Hb.
      * destruct (E4 b Hb) as (f & F1 & F2 & F3).
        exists f. cbn. split; [exact F1 |]. split; [| lra].
        eapply entry_of_same; [apply Keep | exact F2].
      * destruct (H4 a b ltac:(lia) Hb) as (f & F1 & F2 & F3).
        exists f. split; [| split; assumption].
        cbn [Nat.mul]. rewrite <- Nat.add_assoc.
        now rewrite (record_at_add _ _ _ _ E1).
    + intros i j Hij. eapply same_entry_trans.
      * apply H5. destruct Hij as [Hij | Hij]; [left | now right].
        intros Hin. apply Hij. now right.
      * apply E5. destruct Hij as [Hij | Hij]; [left | now right].
        intros ->. apply Hij. now left.
Qed.

Lemma table_loop_exit lc : forall ln out fid para rc out1 text,
  for_range ln (fun n => for_range lc (read_pair out n)) (fid, para, rc)
    = Exit out1 text ->
  text = "Reading error for ILP potential."
  /\ skip_records (List.length ln * List.length lc) fid = None.
Proof.
  induction ln as [| n ln IH]; intros out fid para rc out1 text H;
    cbn [for_range] in H.
  - discriminate.
  - cbn [List.length Nat.mul].
    destruct (for_range lc (read_pair out n) (fid, para, rc))
      as [[[fid1 para1] rc1] | |] eqn:E; try discriminate.
    + cbn [and_then] in H. apply IH in H. destruct H as [H1 H2].
      split; [exact H1 |].
      pose proof (row_loop_done lc out n fid para rc) as D.
      destruct (skip_records (List.length lc) fid) as [fid2 |] eqn:E2.
      * destruct (D fid2 eq_refl) as (p & r & D'). rewrite E in D'.
        inversion D'; subst.
        now rewrite (skip_records_add _ _ _ _ E2).
      * now apply skip_records_none.
    + cbn [and_then] in H. inversion H; subst. apply row_loop_exit in E.
      destruct E as [E1 E2]. split; [exact E1 |].
      now apply skip_records_none.
Qed.


End Loops.

Lemma zrange_0_length T : (0 <= T)%Z -> List.length (zrange 0 T) = Z.to_nat T.
Proof. intros H. rewrite zrange_length. f_equal. lia. Qed.

Lemma zrange_0_nth T k :
  (0 <= k < T)%Z -> nth (Z.to_nat k) (zrange 0 T) 0%Z = k.
Proof.
  intros H. unfold zrange.
  rewrite (nth_indep _ 0%Z ((fun k => (0 + Z.of_nat k)%Z) 0%nat))
    by (rewrite length_map, length_seq; lia).
  rewrite (map_nth (fun k => (0 + Z.of_nat k)%Z)), seq_nth by lia. lia.
Qed.


Section Constructor.
Variable stream : Type.
Variable fscanf_s : stream -> option (string * stream).
Variable fscanf_lf : stream -> option (R * stream).
Variable MAX_TYPE_ILP : Z.
Variable CUDA_MAX_NL : Z.

Local Notation skip_symbols := (skip_symbols stream fscanf_s).
Local Notation skip_records := (skip_records stream fscanf_lf).
Local Notation record_at := (record_at stream fscanf_lf).
Local Notation ILP_ctor :=
  (ILP_ctor stream fscanf_s fscanf_lf MAX_TYPE_ILP CUDA_MAX_NL).

(** What a finished run of the constructor has gone through. *)
Lemma ILP_ctor_done fid T N para0 obj out :
  ILP_ctor fid T N para0 = Done (obj, out) ->
  (1 <= T <= MAX_TYPE_ILP)%Z
  /\ exists fid1 out1 fid2,
       for_range (zrange 0 T) (read_symbol stream fscanf_s)
         (fid, [UseElements T]) = Done (fid1, out1)
       /\ for_range (zrange 0 T)
            (fun n => for_range (zrange 0 T)
                        (read_pair stream fscanf_lf (out1 ++ [EndOfLine]) n))
            (fid1, para0, 0) = Done (fid2, o_ilp_para obj, o_rc obj)
       /\ out = out1 ++ [EndOfLine].
Proof.
  unfold Construct.ILP_ctor. intros H.
  destruct ((T >=? 1) && (T <=? MAX_TYPE_ILP))%Z eqn:V;
    cbn [negb] in H; [| discriminate].
  apply andb_true_iff in V. destruct V as [V1 V2].
  split; [lia |].
  destruct (for_range (zrange 0 T) _ (fid, [UseElements T]))
    as [[fid1 out1] | |] eqn:E1; try discriminate.
  cbn [and_then] in H.
  destruct (for_range (zrange 0 T) _ (fid1, para0, 0))
    as [[[fid2 para] rc] | |] eqn:E2; try discriminate.
  cbn [and_then] in H. inversion H; subst. cbn.
  exists fid1, out1, fid2. split; [reflexivity |]. split; [exact E2 |].
  reflexivity.
Qed.

Lemma cell_index T n m :
  (0 <= n < T)%Z -> (0 <= m < T)%Z ->
  Z.to_nat (n * T + m) = (Z.to_nat n * Z.to_nat T + Z.to_nat m)%nat.
Proof. intros Hn Hm. nia. Qed.

(** X24: when the constructor returns, the file held one symbol per type and,
    after them, one record of twelve numbers per ordered pair of types, in
    row-major order: the entry [(n, m)] of every table comes from record
    [n * num_types + m], with [C], [C_6] and [epsilon] scaled by
    [1e-3 * S]; the entries outside the type range keep what they held. *)
Theorem ILP_ctor_table fid T N para0 obj out :
  ILP_ctor fid T N para0 = Done (obj, out) ->
  (1 <= T <= MAX_TYPE_ILP)%Z
  /\ exists fid1 fid2,
       skip_symbols (Z.to_nat T) fid = Some fid1
       /\ skip_records (Z.to_nat (T * T)) fid1 = Some fid2
       /\ (forall n m, (0 <= n < T)%Z -> (0 <= m < T)%Z ->
             exists f, record_at fid1 (Z.to_nat (n * T + m)) = Some f
                       /\ entry_of (o_ilp_para obj) n m f)
       /\ (forall n m, ~ ((0 <= n < T)%Z /\ (0 <= m < T)%Z) ->
             same_entry (o_ilp_para obj) para0 n m).
Proof.
  intros H. apply ILP_ctor_done in H.
  destruct H as (HT & fid1 & out1 & fid2 & E1 & E2 & _).
  split; [exact HT |].
  apply symbols_loop in E1. destruct E1 as [E1 _].
  rewrite zrange_0_length in E1 by lia.
  apply table_loop in E2; try apply zrange_NoDup.
  destruct E2 as (S1 & _ & _ & S4 & S5).
  rewrite zrange_0_length in S1, S4 by lia.
  exists fid1, fid2. split; [exact E1 |]. split; [| split].
  - replace (Z.to_nat (T * T)) with (Z.to_nat T * Z.to_nat T)%nat by nia.
    exact S1.
  - intros n m Hn Hm.
    destruct (S4 (Z.to_nat n) (Z.to_nat m) ltac:(lia) ltac:(lia))
      as (f & F1 & F2 & _).
    rewrite !zrange_0_nth in F2 by lia.
    exists f. split; [| exact F2]. now rewrite cell_index.
  - intros n m Hnm. apply S5. rewrite !zrange_in. lia.
Qed.

(** X25: when the constructor returns, the cutoff [rc] is the largest global
    cutoff of the pairs of the file, and 0 when none of them is positive:
    no pair has a global cutoff beyond [rc]. *)
Theorem ILP_ctor_rc fid T N para0 obj out :
  ILP_ctor fid T N para0 = Done (obj, out) ->
  0 <= o_rc obj
  /\ (forall n m, (0 <= n < T)%Z -> (0 <= m < T)%Z ->
        rcut_global (o_ilp_para obj) n m <= o_rc obj)
  /\ (o_rc obj = 0
      \/ exists n m, (0 <= n < T)%Z /\ (0 <= m < T)%Z
                     /\ o_rc obj = rcut_global (o_ilp_para obj) n m).
Proof.
  intros H. apply ILP_ctor_done in H.
  destruct H as (HT & fid1 & out1 & fid2 & _ & E2 & _).
  apply table_loop in E2; try apply zrange_NoDup.
  destruct E2 as (_ & S2 & S3 & S4 & _).
  rewrite zrange_0_length in S3, S4 by lia.
  split; [exact S2 |]. split.
  - intros n m Hn Hm.
    destruct (S4 (Z.to_nat n) (Z.to_nat m) ltac:(lia) ltac:(lia))
      as (f & _ & F2 & F3).
    rewrite !zrange_0_nth in F2 by lia.
    now rewrite (entry_of_rcut _ _ _ _ F2).
  - destruct S3 as [S3 | (a & b & Ha & Hb & S3)]; [now left | right].
    exists (Z.of_nat a), (Z.of_nat b).
    split; [lia |]. split; [lia |].
    pose proof (zrange_0_nth T (Z.of_nat a) ltac:(lia)) as Na.
    pose proof (zrange_0_nth T (Z.of_nat b) ltac:(lia)) as Nb.
    rewrite Nat2Z.id in Na, Nb. rewrite S3. now f_equal.
Qed.


(** X27: the constructor ends with the message about the number of
    parameters exactly when the type count is outside
    [1 .. MAX_TYPE_ILP], and then before it reads anything; it ends with
    the reading error only when the file lacks a symbol or, after the
    symbols, a complete record for some pair of types. *)
Theorem ILP_ctor_exit fid T N para0 out text :
  ILP_ctor fid T N para0 = Exit out text ->
  (~ (1 <= T <= MAX_TYPE_ILP)%Z
   /\ out = [UseElements T]
   /\ text = ("Incorrect number of ILP parameters." ++ newline)%string)
  \/ ((1 <= T <= MAX_TYPE_ILP)%Z
      /\ text = "Reading error for ILP potential."
      /\ (skip_symbols (Z.to_nat T) fid = None
          \/ exists fid1, skip_symbols (Z.to_nat T) fid = Some fid1
               /\ skip_records (Z.to_nat (T * T)) fid1 = None)).
Proof.
  unfold Construct.ILP_ctor. intros H.
  destruct ((T >=? 1) && (T <=? MAX_TYPE_ILP))%Z eqn:V; cbn [negb] in H.
  - right. apply andb_true_iff in V. destruct V as [V1 V2].
    split; [lia |].
    destruct (for_range (zrange 0 T) _ (fid, [UseElements T]))
      as [[fid1 out1] | |] eqn:E1; try discriminate; cbn [and_then] in H.
    + apply symbols_loop in E1. destruct E1 as [E1 _].
      rewrite zrange_0_length in E1 by lia.
      destruct (for_range (zrange 0 T) _ (fid1, para0, 0))
        as [[[fid2 para] rc] | |] eqn:E2; try discriminate.
      cbn [and_then] in H. inversion H; subst.
      apply table_loop_exit in E2. destruct E2 as [E2 E3].
      rewrite zrange_0_length in E3 by lia.
      split; [exact E2 |]. right. exists fid1. split; [exact E1 |].
      replace (Z.to_nat (T * T)) with (Z.to_nat T * Z.to_nat T)%nat by nia.
      exact E3.
    + inversion H; subst. apply symbols_loop_exit in E1.
      destruct E1 as [E1 E2]. rewrite zrange_0_length in E2 by lia.
      split; [exact E1 |]. now left.
  - left. apply andb_false_iff in V. inversion H; subst.
    split; [lia |]. now split.
Qed.

End Constructor.

End ConstructFacts.

(** ** The sampler at the bounds of its buffer *)

Module HeatMore.
Import Mem Heat Reads SumSpec HeatSpec HeatRunSpec MemFacts HeatFacts.
Open Scope R_scope.

Lemma copy_to_oob name (src dst : list R) (off : Z) :
  src <> [] -> (Z.of_nat (List.length dst) <= off)%Z ->
  copy_to name dst off src = Fault (OobWrite name off).
Proof.
  intros Hsrc Hoff. destruct src as [| v src]; [contradiction |].
  cbn [copy_to]. now rewrite wr_oob.
Qed.

Lemma copy_to_nil name (dst : list R) (off : Z) :
  copy_to name dst off [] = Ok dst.
Proof. reflexivity. Qed.

Lemma sum_list_nonneg (l : list R) :
  (forall x, In x l -> 0 <= x) -> 0 <= sum_list l.
Proof.
  unfold sum_list. induction l as [| x l IH]; intros H; cbn.
  - lra.
  - pose proof (H x (or_introl eq_refl)).
    pose proof (IH (fun y Hy => H y (or_intror Hy))). lra.
Qed.

Lemma at_R_nonneg (l : list R) (i : Z) :
  (forall x, In x l -> 0 <= x) -> 0 <= at_R l i.
Proof.
  intros H. unfold at_R.
  destruct (nth_in_or_default (Z.to_nat i) l 0) as [Hin | E].
  - now apply H.
  - rewrite E. apply Rle_refl.
Qed.


(** X28: a sampled step whose row [step / sample_interval] is not below
    [number_of_steps / sample_interval] lies beyond the buffer that
    [preprocess_heat] allocates: the call writes outside [group_temp], at
    the first entry of that row. *)
Theorem sample_beyond_buffer (para : Parameters) (interval : Z) (h : Heat)
    (atom : Atom) (e0 e1 : R) (rest : list R) (step : Z) :
  (0 <= number_of_groups para)%Z ->
  sampling para interval h ->
  Z.rem step interval = 0%Z ->
  (number_of_steps para ÷ interval <= step ÷ interval)%Z ->
  (forall g, (0 <= g < number_of_groups para)%Z -> wf_group atom g) ->
  sample_block_temperature step para atom (e0 :: e1 :: rest) h
  = Fault (OobWrite "group_temp"
             ((step ÷ interval) * (number_of_groups para + 2))).
Proof.
  intros HNg (Hs & Hi & Hlen) Hrem Hrow Hwf.
  unfold sample_block_temperature. rewrite Hs, Hi, Hrem. cbn [Z.eqb].
  set (Ng := number_of_groups para) in *.
  rewrite (map_res_ok (find_group_temp atom) (group_temperature atom)).
  2:{ intros g Hg. apply zrange_in in Hg.
      apply find_group_temp_ok. apply Hwf. lia. }
  cbn [bind].
  assert (Hoff : (Z.of_nat (List.length (group_temp h))
                  <= step ÷ interval * (Ng + 2))%Z) by nia.
  destruct (Z.eq_dec Ng 0) as [E0 | Hpos].
  - rewrite E0 in *. rewrite (@zrange_nil 0 0) by lia. cbn [map copy_to bind].
    rewrite (rd_ok _ _ 0) by (cbn; lia). cbn [bind].
    rewrite wr_oob by (rewrite Z.add_0_r; exact Hoff).
    cbn [bind]. now rewrite Z.add_0_r.
  - rewrite copy_to_oob; [reflexivity | | exact Hoff].
    intros E. apply (f_equal (@List.length R)) in E.
    rewrite length_map, zrange_length in E. cbn in E. lia.
Qed.


(** X30: for a group that is not empty and masses that are not negative
    [find_group_temp] returns a temperature that is not negative. *)
Theorem find_group_temp_nonneg (atom : Atom) (bid : Z) :
  wf_group atom bid ->
  (0 < at_Z (group_size atom) bid)%Z ->
  (forall m, In m (mass atom) -> 0 <= m) ->
  exists t, find_group_temp atom bid = Ok t /\ 0 <= t.
Proof.
  intros Hwf Hsize Hmass.
  exists (group_temperature atom bid).
  split; [now apply find_group_temp_ok |].
  unfold group_temperature.
  apply Rmult_le_pos.
  - apply sum_list_nonneg. intros x Hx.
    apply in_map_iff in Hx. destruct Hx as (n & <- & _).
    unfold ke_term. apply Rmult_le_pos; [now apply at_R_nonneg |]. nra.
  - apply Rlt_le, Rinv_0_lt_compat.
    assert (0 < IZR (at_Z (group_size atom) bid)) by (now apply IZR_lt).
    assert (0 < K_B) by (unfold K_B; lra).
    nra.
Qed.

End HeatMore.

(** ** Examples for the constructor and the sampler *)

Module ConstructExamples.
Import Mem Normal ILP Construct ConstructSpec Inputs.
Open Scope R_scope.

Local Notation ctor1 :=
  (ILP_ctor (list R) scan_symbol scan_number 2 1024 file1 1 2 (para1 2 6)).

Lemma file1_done : { r | ctor1 = Done r }.
Proof. eexists. reflexivity. Defined.


Lemma ILP_ctor_table_witness :
  exists obj out,
    ctor1 = Done (obj, out)
    /\ exists f,
         record_at (list R) scan_number (tl file1) 0 = Some f
         /\ entry_of (o_ilp_para obj) 0 0 f.
Proof.
  destruct file1_done as [[obj out] E].
  exists obj, out. split; [exact E |].
  destruct (ConstructFacts.ILP_ctor_table (list R) scan_symbol scan_number
              2 1024 file1 1 2 (para1 2 6) obj out E)
    as (_ & fid1 & fid2 & H1 & _ & H3 & _).
  injection H1 as <-.
  exact (H3 0%Z 0%Z ltac:(lia) ltac:(lia)).
Defined.

Lemma ILP_ctor_rc_witness :
  exists obj out,
    ctor1 = Done (obj, out)
    /\ 0 <= o_rc obj
    /\ rcut_global (o_ilp_para obj) 0 0 <= o_rc obj.
Proof.
  destruct file1_done as [[obj out] E].
  exists obj, out. split; [exact E |].
  destruct (ConstructFacts.ILP_ctor_rc (list R) scan_symbol scan_number
              2 1024 file1 1 2 (para1 2 6) obj out E)
    as (H1 & H2 & _).
  split; [exact H1 |]. apply H2; lia.
Defined.


Lemma ILP_ctor_exit_witness :
  ILP_ctor (list R) scan_symbol scan_number 2 1024 [0; 1; 2] 1 2 (para1 2 6)
  = Exit [UseElements 1; Symbol "X"; EndOfLine]
         "Reading error for ILP potential."
  /\ skip_records (list R) scan_number (Z.to_nat (1 * 1)) [1; 2] = None.
Proof.
  assert (E : ILP_ctor (list R) scan_symbol scan_number 2 1024 [0; 1; 2]
                1 2 (para1 2 6)
              = Exit [UseElements 1; Symbol "X"; EndOfLine]
                     "Reading error for ILP potential.")
    by reflexivity.
  split; [exact E |].
  destruct (ConstructFacts.ILP_ctor_exit (list R) scan_symbol scan_number
              2 1024 [0; 1; 2] 1 2 (para1 2 6) _ _ E)
    as [(H & _) | (_ & _ & [H | (fid1 & H1 & H2)])].
  - exfalso. apply H. lia.
  - discriminate H.
  - injection H1 as <-. exact H2.
Defined.

End ConstructExamples.

Module HeatExamples.
Import Mem Heat Reads SumSpec HeatSpec HeatRunSpec MemFacts HeatFacts.
Open Scope R_scope.

Lemma sample_beyond_buffer_witness :
  sample_block_temperature 2 para_odd atom_ex [5; 7]
    (preprocess_heat (fun _ => 0) para_odd heat_odd)
  = Fault (OobWrite "group_temp" 3).
Proof.
  apply (HeatMore.sample_beyond_buffer para_odd 2
           (preprocess_heat (fun _ => 0) para_odd heat_odd) atom_ex
           5 7 [] 2).
  - cbn. lia.
  - repeat split.
  - reflexivity.
  - vm_compute. intros H. discriminate H.
  - exact atom_ex_wf.
Defined.


Lemma find_group_temp_nonneg_witness :
  exists t, find_group_temp atom_ex 0 = Ok t /\ 0 <= t.
Proof.
  apply (HeatMore.find_group_temp_nonneg atom_ex 0).
  - apply atom_ex_wf. lia.
  - vm_compute. reflexivity.
  - intros m [<- | []]. lra.
Defined.

End HeatExamples.
